(** * gohighs: sparse assembly helpers of package highs

    A shallow embedding of [highs/utils.go] ([nonzerosToCSR], [expandSlice],
    [maxRowCol]), of [Model.AddDenseRow] from [highs/model.go] and of
    [Solution.Value] from [highs/solution.go], with the properties the
    specification states about them; then of the rest of the model side
    (the other row builders, [NumVars], [NumConstraints], the options and
    [Solve]) and of the status readings of [highs/solution.go], with
    properties read off the code.

    Conventions
    - Go's [int] is modelled by [Z]; the functions of utils.go only compare
      indices and take lengths, so no wrap-around occurs.  [NumVars] and
      [NumConstraints] add one to an index: there the 64-bit wrap-around is
      written out ([wrap_int]).
    - The methods of [*Solver] wrap calls into the native HiGHS library;
      [Solve] is modelled over any behaviour of the ones it calls.
    - Go's [float64] is modelled by Rocq's primitive binary64 floats; the
      code only copies coefficients and tests [val != 0.0].
    - A run-time panic is an outcome of its own ([Panics]).  [make] panics
      as [runtime.makeslice] does, on a negative length and on one beyond
      [maxAlloc]; calling a [nil] function value panics.  Running out of
      memory is a fatal error of the runtime that depends on the machine,
      not a panic, and is left out: the properties of [expandSlice] and
      [Solve] are stated for the case that [make] returns or that it
      panics.
    - A slice is a [list]; a [nil] slice and an empty slice are both [[]].
    - [sort.Slice] belongs to Go's standard library.  General theorems are
      stated for any sorting routine that meets the documented contract of
      [sort.Slice] (a permutation of its input, ordered by [less], no
      stability promise); closed evaluations use [GoSort.Slice], a model of
      the pattern-defeating quicksort that [sort.Slice] runs since Go 1.19
      (sort/zsortfunc.go); the module builds with Go 1.25.  [GoSort.Slice]
      is proved to meet the contract ([Slice_contract]), so every general
      theorem applies to it. *)

From Stdlib Require Import ZArith Lia Bool String.
From Stdlib Require Import Floats.PrimFloat.
From stdpp Require Import base option list sorting strings gmap.

Local Open Scope Z_scope.

(** ** Data model *)

Definition float64 := float.

(** [type Nonzero struct { Row int; Col int; Val float64 }] (cgo.go). *)
Record Nonzero := mkNonzero { Row : Z; Col : Z; Val : float64 }.

(** [type Error struct { Op string; Status Status; Msg string }] (cgo.go);
    [newErrorMsg] always stores [StatusError]. *)
Inductive Status := StatusOK | StatusWarning | StatusError.

Record Error := mkError { Op : string; ErrStatus : Status; Msg : string }.

Definition newErrorMsg (op msg : string) : Error :=
  {| Op := op; ErrStatus := StatusError; Msg := msg |}.

(** The three validation failures, under the names the specification uses. *)
Definition InvalidIndex : Error :=
  newErrorMsg "nonzerosToCSR" "negative row or column index".

Definition NotUpperTriangular : Error :=
  newErrorMsg "nonzerosToCSR" "Hessian must be upper triangular".

Definition InconsistentLength : Error :=
  newErrorMsg "expandSlice" "inconsistent slice length".

(** Outcome of a Go call that may hit a run-time panic. *)
Inductive run (A : Type) : Type :=
| Returns (a : A)
| Panics (msg : string).

Arguments Returns {A} a.
Arguments Panics {A} msg.

(** ** Package sort: the routine behind [sort.Slice] *)

Module GoSort.

Section lessSwap.

Context {A : Type} (less : A -> A -> bool).

(** [data.Less(i, j)] and [data.Swap(i, j)] on the slice being sorted. *)
Definition Less (data : list A) (i j : nat) : bool :=
  match data !! i, data !! j with
  | Some x, Some y => less x y
  | _, _ => false
  end.

Definition Swap (data : list A) (i j : nat) : list A :=
  match data !! i, data !! j with
  | Some x, Some y => <[i := y]> (<[j := x]> data)
  | _, _ => data
  end.

(** Inner loop of [insertionSort_func]:
    [for j := i; j > a && data.Less(j, j-1); j-- { data.Swap(j, j-1) }]. *)
Fixpoint insertion_shift (data : list A) (a j : nat) : list A :=
  match j with
  | O => data
  | S j' =>
      if (a <? j)%nat && Less data j j'
      then insertion_shift (Swap data j j') a j'
      else data
  end.

Definition insertionSort_func (data : list A) (a b : nat) : list A :=
  fold_left (fun d i => insertion_shift d a i) (seq (a + 1) (b - (a + 1))) data.

Fixpoint siftDown_loop (fuel : nat) (data : list A) (root hi first : nat)
  : list A :=
  match fuel with
  | O => data
  | S fuel' =>
      let child := (2 * root + 1)%nat in
      if (hi <=? child)%nat then data
      else
        let child :=
          if (child + 1 <? hi)%nat
             && Less data (first + child) (first + child + 1)
          then (child + 1)%nat else child in
        if negb (Less data (first + root) (first + child)) then data
        else siftDown_loop fuel' (Swap data (first + root) (first + child))
                           child hi first
  end.

Definition siftDown_func (data : list A) (lo hi first : nat) : list A :=
  siftDown_loop hi data lo hi first.

Definition heapSort_func (data : list A) (a b : nat) : list A :=
  let first := a in
  let lo := O in
  let hi := (b - a)%nat in
  let data :=
    fold_left (fun d i => siftDown_func d i hi first)
              (rev (seq 0 ((hi - 1) / 2 + 1))) data in
  fold_left (fun d i => siftDown_func (Swap d first (first + i)) lo i first)
            (rev (seq 0 hi)) data.

(** [bits.Len]: the number of bits needed to write [x]. *)
Definition bits_Len (x : nat) : nat :=
  match x with
  | O => O
  | _ => Z.to_nat (Z.log2 (Z.of_nat x) + 1)
  end.

(** [xorshift.Next] on a [uint64] state. *)
Definition xorshift_Next (r : Z) : Z :=
  let r := Z.lxor r (Z.shiftl r 13 mod 2 ^ 64) in
  let r := Z.lxor r (Z.shiftr r 7) in
  Z.lxor r (Z.shiftl r 17 mod 2 ^ 64).

Definition nextPowerOfTwo (length : nat) : Z :=
  2 ^ Z.of_nat (bits_Len length).

Definition breakPatterns_func (data : list A) (a b : nat) : list A :=
  let length := (b - a)%nat in
  if (8 <=? length)%nat then
    let modulus := nextPowerOfTwo length in
    let idx := (a + (length / 4) * 2 - 1)%nat in
    snd (fold_left
           (fun '(random, d) i =>
              let random := xorshift_Next random in
              let other := Z.to_nat (Z.land random (modulus - 1)) in
              let other :=
                if (length <=? other)%nat then (other - length)%nat else other in
              (random, Swap d (idx - 1 + i) (a + other)))
           (seq 0 3) (Z.of_nat length, data))
  else data.

Inductive sortedHint := unknownHint | increasingHint | decreasingHint.

(** [order2_func], [median_func], [medianAdjacent_func]: indices only, the
    swap counter is threaded through. *)
Definition order2_func (data : list A) (a b swaps : nat) : nat * nat * nat :=
  if Less data b a then (b, a, S swaps) else (a, b, swaps).

Definition median_func (data : list A) (a b c swaps : nat) : nat * nat :=
  let '(a, b, swaps) := order2_func data a b swaps in
  let '(b, c, swaps) := order2_func data b c swaps in
  let '(a, b, swaps) := order2_func data a b swaps in
  (b, swaps).

Definition medianAdjacent_func (data : list A) (a swaps : nat) : nat * nat :=
  median_func data (a - 1) a (a + 1) swaps.

Definition shortestNinther : nat := 50.
Definition maxSwaps : nat := 4 * 3.

Definition choosePivot_func (data : list A) (a b : nat) : nat * sortedHint :=
  let l := (b - a)%nat in
  let i := (a + l / 4 * 1)%nat in
  let j := (a + l / 4 * 2)%nat in
  let k := (a + l / 4 * 3)%nat in
  let '(j, swaps) :=
    if (8 <=? l)%nat then
      let '(i, j, k, swaps) :=
        if (shortestNinther <=? l)%nat then
          let '(i, swaps) := medianAdjacent_func data i O in
          let '(j, swaps) := medianAdjacent_func data j swaps in
          let '(k, swaps) := medianAdjacent_func data k swaps in
          (i, j, k, swaps)
        else (i, j, k, O) in
      median_func data i j k swaps
    else (j, O) in
  if (swaps =? 0)%nat then (j, increasingHint)
  else if (swaps =? maxSwaps)%nat then (j, decreasingHint)
  else (j, unknownHint).

Fixpoint reverseRange_loop (fuel : nat) (data : list A) (i j : nat) : list A :=
  match fuel with
  | O => data
  | S fuel' =>
      if (i <? j)%nat
      then reverseRange_loop fuel' (Swap data i j) (i + 1) (j - 1)
      else data
  end.

Definition reverseRange_func (data : list A) (a b : nat) : list A :=
  reverseRange_loop (b - a) data a (b - 1).

(** [for i < b && !data.Less(i, i-1) { i++ }] *)
Fixpoint ordered_run (fuel : nat) (data : list A) (i b : nat) : nat :=
  match fuel with
  | O => i
  | S fuel' =>
      if (i <? b)%nat && negb (Less data i (i - 1))
      then ordered_run fuel' data (i + 1) b
      else i
  end.

(** [for j := i - 1; j >= 1; j-- { if !data.Less(j, j-1) { break }; data.Swap(j, j-1) }] *)
Fixpoint shift_left (data : list A) (j : nat) : list A :=
  match j with
  | O => data
  | S j' => if Less data j j' then shift_left (Swap data j j') j' else data
  end.

(** [for j := i + 1; j < b; j++ { if !data.Less(j, j-1) { break }; data.Swap(j, j-1) }] *)
Fixpoint shift_right (fuel : nat) (data : list A) (j b : nat) : list A :=
  match fuel with
  | O => data
  | S fuel' =>
      if (j <? b)%nat && Less data j (j - 1)
      then shift_right fuel' (Swap data j (j - 1)) (j + 1) b
      else data
  end.

Definition maxSteps : nat := 5.
Definition shortestShifting : nat := 50.

Fixpoint partialInsertionSort_loop (steps : nat) (data : list A) (a b i : nat)
  : list A * bool :=
  match steps with
  | O => (data, false)
  | S steps' =>
      let i := ordered_run (b - a) data i b in
      if (i =? b)%nat then (data, true)
      else if (b - a <? shortestShifting)%nat then (data, false)
      else
        let data := Swap data i (i - 1) in
        let data := if (2 <=? i - a)%nat then shift_left data (i - 1) else data in
        let data :=
          if (2 <=? b - i)%nat then shift_right (b - i) data (i + 1) b else data in
        partialInsertionSort_loop steps' data a b i
  end.

Definition partialInsertionSort_func (data : list A) (a b : nat)
  : list A * bool :=
  partialInsertionSort_loop maxSteps data a b (a + 1).

(** [for i <= j && data.Less(i, a) { i++ }] *)
Fixpoint scan_less (fuel : nat) (data : list A) (a i j : nat) : nat :=
  match fuel with
  | O => i
  | S fuel' =>
      if (i <=? j)%nat && Less data i a
      then scan_less fuel' data a (i + 1) j
      else i
  end.

(** [for i <= j && !data.Less(j, a) { j-- }] *)
Fixpoint scan_not_less (fuel : nat) (data : list A) (a i j : nat) : nat :=
  match fuel with
  | O => j
  | S fuel' =>
      if (i <=? j)%nat && negb (Less data j a)
      then scan_not_less fuel' data a i (j - 1)
      else j
  end.

Fixpoint partition_loop (fuel : nat) (data : list A) (a i j : nat)
  : list A * nat :=
  match fuel with
  | O => (data, j)
  | S fuel' =>
      let i := scan_less (S j) data a i j in
      let j := scan_not_less (S j) data a i j in
      if (j <? i)%nat then (data, j)
      else partition_loop fuel' (Swap data i j) a (i + 1) (j - 1)
  end.

Definition partition_func (data : list A) (a b pivot : nat)
  : list A * nat * bool :=
  let data := Swap data a pivot in
  let i := (a + 1)%nat in
  let j := (b - 1)%nat in
  let i := scan_less (S j) data a i j in
  let j := scan_not_less (S j) data a i j in
  if (j <? i)%nat then (Swap data j a, j, true)
  else
    let data := Swap data i j in
    let '(data, j) := partition_loop (b - a) data a (i + 1) (j - 1) in
    (Swap data j a, j, false).

(** [for i <= j && !data.Less(a, i) { i++ }] *)
Fixpoint scan_not_greater (fuel : nat) (data : list A) (a i j : nat) : nat :=
  match fuel with
  | O => i
  | S fuel' =>
      if (i <=? j)%nat && negb (Less data a i)
      then scan_not_greater fuel' data a (i + 1) j
      else i
  end.

(** [for i <= j && data.Less(a, j) { j-- }] *)
Fixpoint scan_greater (fuel : nat) (data : list A) (a i j : nat) : nat :=
  match fuel with
  | O => j
  | S fuel' =>
      if (i <=? j)%nat && Less data a j
      then scan_greater fuel' data a i (j - 1)
      else j
  end.

Fixpoint partitionEqual_loop (fuel : nat) (data : list A) (a i j : nat)
  : list A * nat :=
  match fuel with
  | O => (data, i)
  | S fuel' =>
      let i := scan_not_greater (S j) data a i j in
      let j := scan_greater (S j) data a i j in
      if (j <? i)%nat then (data, i)
      else partitionEqual_loop fuel' (Swap data i j) a (i + 1) (j - 1)
  end.

Definition partitionEqual_func (data : list A) (a b pivot : nat)
  : list A * nat :=
  partitionEqual_loop (S (b - a)) (Swap data a pivot) a (a + 1) (b - 1).

Definition maxInsertion : nat := 12.

(** [pdqsort_func]: the [for] loop and its recursive call share the fuel;
    [S (b - a)] units are enough, since every round drops the pivot. *)
Fixpoint pdqsort_func (fuel : nat) (data : list A) (a b limit : nat)
  (wasBalanced wasPartitioned : bool) : list A :=
  match fuel with
  | O => data
  | S fuel' =>
      let length := (b - a)%nat in
      if (length <=? maxInsertion)%nat then insertionSort_func data a b
      else if (limit =? 0)%nat then heapSort_func data a b
      else
        let '(data, limit) :=
          if negb wasBalanced
          then (breakPatterns_func data a b, (limit - 1)%nat)
          else (data, limit) in
        let '(pivot, hint) := choosePivot_func data a b in
        let '(data, pivot, hint) :=
          match hint with
          | decreasingHint =>
              (reverseRange_func data a b, ((b - 1) - (pivot - a))%nat,
               increasingHint)
          | _ => (data, pivot, hint)
          end in
        let '(data, done) :=
          match hint with
          | increasingHint =>
              if wasBalanced && wasPartitioned
              then partialInsertionSort_func data a b
              else (data, false)
          | _ => (data, false)
          end in
        if done then data
        else if (0 <? a)%nat && negb (Less data (a - 1) pivot) then
          let '(data, mid) := partitionEqual_func data a b pivot in
          pdqsort_func fuel' data mid b limit wasBalanced wasPartitioned
        else
          let '(data, mid, alreadyPartitioned) :=
            partition_func data a b pivot in
          let leftLen := (mid - a)%nat in
          let rightLen := (b - mid)%nat in
          let balanceThreshold := (length / 8)%nat in
          if (leftLen <? rightLen)%nat then
            let data := pdqsort_func fuel' data a mid limit true true in
            pdqsort_func fuel' data (mid + 1) b limit
                         (balanceThreshold <=? leftLen)%nat alreadyPartitioned
          else
            let data := pdqsort_func fuel' data (mid + 1) b limit true true in
            pdqsort_func fuel' data a mid limit
                         (balanceThreshold <=? rightLen)%nat alreadyPartitioned
  end.

(** [sort.Slice(x, less)]. *)
Definition Slice (x : list A) : list A :=
  let length := List.length x in
  let limit := bits_Len length in
  pdqsort_func (S length) x 0 length limit true true.

End lessSwap.

End GoSort.

(** What package sort requires of [less]: a transitive ordering in which
    being incomparable is transitive as well (a strict weak ordering). *)
Record strict_weak_order {A : Type} (less : A -> A -> bool) : Prop := {
  swo_irrefl : forall x, less x x = false;
  swo_trans : forall x y z, less x y = true -> less y z = true -> less x z = true;
  swo_incomp : forall x y z,
    less x y = false -> less y x = false ->
    less y z = false -> less z y = false ->
    less x z = false /\ less z x = false
}.

(** The shape of [sort.Slice]: from a comparison and a slice to the slice
    as it is left. *)
Definition sorter : Type := forall A : Type, (A -> A -> bool) -> list A -> list A.

(** No element is [less] than one placed before it. *)
Definition ordered_by {A : Type} (less : A -> A -> bool) (l : list A) : Prop :=
  StronglySorted (fun x y => less y x = false) l.

(** The slice is only rearranged: it holds a permutation of what it held. *)
Definition rearranges (sort_Slice : sorter) : Prop :=
  forall A (less : A -> A -> bool) l, sort_Slice A less l ≡ₚ l.

(** The contract [sort.Slice] documents: the slice is rearranged and, for a
    strict weak ordering, ordered by [less].  "The sort is not guaranteed to
    be stable." *)
Record sort_contract (sort_Slice : sorter) : Prop := {
  sort_permutes : rearranges sort_Slice;
  sort_orders : forall A (less : A -> A -> bool) l,
    strict_weak_order less -> ordered_by less (sort_Slice A less l)
}.

(** [insertionSort_func] run on a whole slice: what [sort.Slice] does with
    [maxInsertion] elements or fewer, and a sorting routine in its own right
    on longer ones. *)
Definition insertion_Slice : sorter :=
  fun A less x => GoSort.insertionSort_func less x 0 (length x).

(** ** highs/utils.go *)

(** The closure handed to [sort.Slice]: by row, then by column. *)
Definition less_rowcol (x y : Nonzero) : bool :=
  if negb (Row x =? Row y) then Row x <? Row y else Col x <? Col y.

(** The four results of [nonzerosToCSR]. *)
Record csr := mkCsr {
  start : list Z;
  index : list Z;
  value : list float64;
  err : option Error
}.

(** "Validate and deduplicate": the loop over [sorted], with [filtered] as
    its accumulator; [inl] is the early [return nil, nil, nil, err]. *)
Fixpoint filter_loop (triangular : bool) (sorted filtered : list Nonzero)
  : Error + list Nonzero :=
  match sorted with
  | [] => inr filtered
  | n :: rest =>
      if (Row n <? 0) || (Col n <? 0) then inl InvalidIndex
      else if triangular && (Row n >? Col n) then inl NotUpperTriangular
      else
        match last filtered with
        | Some p =>
            if (Row p =? Row n) && (Col p =? Col n)
            then filter_loop triangular rest
                   (<[(length filtered - 1)%nat :=
                        {| Row := Row p; Col := Col p; Val := Val n |}]> filtered)
            else filter_loop triangular rest (filtered ++ [n])
        | None => filter_loop triangular rest (filtered ++ [n])
        end
  end.

(** "Build CSR format": the loop over [filtered] at position [i]. *)
Fixpoint build_loop (filtered : list Nonzero) (i : nat) (prevRow : Z)
  (start index : list Z) (value : list float64)
  : list Z * list Z * list float64 :=
  match filtered with
  | [] => (start, index, value)
  | n :: rest =>
      let '(start, prevRow) :=
        if Row n >? prevRow then (start ++ [Z.of_nat i], Row n)
        else (start, prevRow) in
      build_loop rest (S i) prevRow start
                 (<[i := Col n]> index) (<[i := Val n]> value)
  end.

Section withSort.

Variable sort_Slice : sorter.

Definition nonzerosToCSR (nz : list Nonzero) (triangular : bool) : csr :=
  if (length nz =? 0)%nat then mkCsr [] [] [] None
  else
    let sorted := sort_Slice Nonzero less_rowcol nz in
    match filter_loop triangular sorted [] with
    | inl e => mkCsr [] [] [] (Some e)
    | inr filtered =>
        let '(start, index, value) :=
          build_loop filtered 0 (-1) []
                     (replicate (length filtered) 0)
                     (replicate (length filtered) 0%float) in
        mkCsr start index value None
    end.

End withSort.

(** The largest allocation the Go runtime serves (runtime/malloc.go): the
    heap has 48 address bits on the platforms the package builds for
    ([(linux || darwin) && (amd64 || arm64)]). *)
Definition maxAlloc : Z := 2 ^ 48.

(** [make([]float64, n)]: [runtime.makeslice] panics on a negative length
    and on one whose [n * 8] bytes exceed [maxAlloc]. *)
Definition make_float64 (n : Z) : run (list float64) :=
  if (n <? 0) || (maxAlloc <? n * 8) then Panics "makeslice: len out of range"
  else Returns (replicate (Z.to_nat n) 0%float).

(** [for i := range result { result[i] = fillValue }] *)
Definition fill (result : list float64) (fillValue : float64) : list float64 :=
  fold_left (fun r i => <[i := fillValue]> r) (seq 0 (length result)) result.

Definition expandSlice (n : Z) (slice : list float64) (fillValue : float64)
  : run (list float64 * option Error) :=
  if Z.of_nat (length slice) =? n then Returns (slice, None)
  else if (length slice =? 0)%nat then
    match make_float64 n with
    | Returns result => Returns (fill result fillValue, None)
    | Panics msg => Panics msg
    end
  else Returns ([], Some InconsistentLength).

Definition maxRowCol (nz : list Nonzero) : Z * Z :=
  fold_left
    (fun '(maxRow, maxCol) n =>
       let maxRow := if Row n >? maxRow then Row n else maxRow in
       let maxCol := if Col n >? maxCol then Col n else maxCol in
       (maxRow, maxCol))
    nz (-1, -1).

(** ** highs/model.go *)

(** [VariableType] is an integer enumeration declared in cgo.go. *)
Inductive VariableType :=
| Continuous | Integer | SemiContinuous | SemiInteger | ImplicitInteger.

Record Model := mkModel {
  Maximize : bool;
  Offset : float64;
  ColCosts : list float64;
  ColLower : list float64;
  ColUpper : list float64;
  RowLower : list float64;
  RowUpper : list float64;
  ConstMatrix : list Nonzero;
  Hessian : list Nonzero;
  VarTypes : list VariableType
}.

(** Go's [val != 0.0] on float64 (IEEE comparison: false on both zeros, true
    on NaN). *)
Definition float_ne_zero (val : float64) : bool := negb (PrimFloat.eqb val 0%float).

(** [for col, val := range coeffs { if val != 0.0 { append ... } }] from
    column [col] on. *)
Fixpoint addCoeffs (constMatrix : list Nonzero) (row : Z) (col : nat)
  (coeffs : list float64) : list Nonzero :=
  match coeffs with
  | [] => constMatrix
  | val :: rest =>
      let constMatrix :=
        if float_ne_zero val
        then constMatrix ++ [ {| Row := row; Col := Z.of_nat col; Val := val |} ]
        else constMatrix in
      addCoeffs constMatrix row (S col) rest
  end.

Definition AddDenseRow (m : Model) (lower : float64) (coeffs : list float64)
  (upper : float64) : Model :=
  let row := Z.of_nat (length (RowLower m)) in
  {| Maximize := Maximize m;
     Offset := Offset m;
     ColCosts := ColCosts m;
     ColLower := ColLower m;
     ColUpper := ColUpper m;
     RowLower := RowLower m ++ [lower];
     RowUpper := RowUpper m ++ [upper];
     ConstMatrix := addCoeffs (ConstMatrix m) row 0 coeffs;
     Hessian := Hessian m;
     VarTypes := VarTypes m |}.

(** ** highs/solution.go *)

Inductive ModelStatus :=
| ModelStatusNotSet | ModelStatusLoadError | ModelStatusModelError
| ModelStatusPresolveError | ModelStatusSolveError | ModelStatusPostsolveError
| ModelStatusModelEmpty | ModelStatusOptimal | ModelStatusInfeasible
| ModelStatusUnboundedOrInfeasible | ModelStatusUnbounded
| ModelStatusObjectiveBound | ModelStatusObjectiveTarget
| ModelStatusTimeLimit | ModelStatusIterationLimit | ModelStatusUnknown.

Inductive BasisStatus :=
| BasisStatusLower | BasisStatusBasic | BasisStatusUpper | BasisStatusZero
| BasisStatusNonbasic.

Record Solution := mkSolution {
  SolStatus : ModelStatus;
  ColValues : list float64;
  ColDuals : list float64;
  RowValues : list float64;
  RowDuals : list float64;
  ColBasis : list BasisStatus;
  RowBasis : list BasisStatus;
  Objective : float64
}.

(** [s.ColValues[index]]: indexing outside the slice is a run-time panic. *)
Definition Value (s : Solution) (index : Z) : run float64 :=
  if (index <? 0) || (index >=? Z.of_nat (length (ColValues s)))
  then Returns 0%float
  else
    match ColValues s !! Z.to_nat index with
    | Some v => Returns v
    | None => Panics "index out of range"
    end.

(** ** Go's [int] where the code adds to it *)

(** The package builds for amd64 and arm64 only (build constraint of
    cgo.go), so [int] has 64 bits; [NumVars] and [NumConstraints] compute
    [max + 1], which wraps around at the top of the range. *)
Definition wrap_int (z : Z) : Z := (z + 2 ^ 63) mod 2 ^ 64 - 2 ^ 63.

(** [len(s)] as an [int]. *)
Definition len {A : Type} (l : list A) : Z := Z.of_nat (length l).

(** ** highs/utils.go: the infinities *)

Definition Inf : float64 := infinity.

Definition NegInf : float64 := neg_infinity.

(** ** highs/model.go: the other row builders and the dimensions *)

(** [for i, col := range cols { if vals[i] != 0.0 { append ... } }] from
    position [i] on; [vals[i]] past the end of [vals] is a run-time panic. *)
Fixpoint addEntries (constMatrix : list Nonzero) (row : Z) (i : nat)
  (cols : list Z) (vals : list float64) : run (list Nonzero) :=
  match cols with
  | [] => Returns constMatrix
  | col :: rest =>
      match vals !! i with
      | None => Panics "index out of range"
      | Some val =>
          let constMatrix :=
            if float_ne_zero val
            then constMatrix ++ [ {| Row := row; Col := col; Val := val |} ]
            else constMatrix in
          addEntries constMatrix row (S i) rest vals
      end
  end.

Definition AddSparseRow (m : Model) (lower : float64) (cols : list Z)
  (vals : list float64) (upper : float64) : run Model :=
  let row := Z.of_nat (length (RowLower m)) in
  match addEntries (ConstMatrix m) row 0 cols vals with
  | Panics msg => Panics msg
  | Returns constMatrix =>
      Returns
        {| Maximize := Maximize m;
           Offset := Offset m;
           ColCosts := ColCosts m;
           ColLower := ColLower m;
           ColUpper := ColUpper m;
           RowLower := RowLower m ++ [lower];
           RowUpper := RowUpper m ++ [upper];
           ConstMatrix := constMatrix;
           Hessian := Hessian m;
           VarTypes := VarTypes m |}
  end.

Definition AddEqRow (m : Model) (coeffs : list float64) (rhs : float64)
  : Model :=
  AddDenseRow m rhs coeffs rhs.

(** [math.Inf(-1)] and [math.Inf(1)]. *)
Definition AddLeRow (m : Model) (coeffs : list float64) (rhs : float64)
  : Model :=
  AddDenseRow m neg_infinity coeffs rhs.

Definition AddGeRow (m : Model) (coeffs : list float64) (rhs : float64)
  : Model :=
  AddDenseRow m rhs coeffs infinity.

(** [for _, nz := range l { if nz.Col > maxCol { maxCol = nz.Col } }] *)
Definition scanCol (l : list Nonzero) (maxCol : Z) : Z :=
  fold_left (fun maxCol nz => if Col nz >? maxCol then Col nz else maxCol)
            l maxCol.

(** [for _, nz := range l { if nz.Row > maxRow { maxRow = nz.Row } }] *)
Definition scanRow (l : list Nonzero) (maxRow : Z) : Z :=
  fold_left (fun maxRow nz => if Row nz >? maxRow then Row nz else maxRow)
            l maxRow.

Definition NumVars (m : Model) : Z :=
  let maxCol := -1 in
  let maxCol := scanCol (ConstMatrix m) maxCol in
  let maxCol := scanCol (Hessian m) maxCol in
  if len (ColCosts m) >? wrap_int (maxCol + 1) then len (ColCosts m)
  else if len (ColLower m) >? wrap_int (maxCol + 1) then len (ColLower m)
  else if len (ColUpper m) >? wrap_int (maxCol + 1) then len (ColUpper m)
  else if len (VarTypes m) >? wrap_int (maxCol + 1) then len (VarTypes m)
  else wrap_int (maxCol + 1).

Definition NumConstraints (m : Model) : Z :=
  let maxRow := -1 in
  let maxRow := scanRow (ConstMatrix m) maxRow in
  if len (RowLower m) >? wrap_int (maxRow + 1) then len (RowLower m)
  else if len (RowUpper m) >? wrap_int (maxRow + 1) then len (RowUpper m)
  else wrap_int (maxRow + 1).

(** ** highs/cgo.go and highs/solution.go: reading a status *)

(** [func (s ModelStatus) IsOptimal() bool] *)
Definition ModelStatus_IsOptimal (s : ModelStatus) : bool :=
  match s with ModelStatusOptimal => true | _ => false end.

(** [func (s ModelStatus) HasSolution() bool] *)
Definition ModelStatus_HasSolution (s : ModelStatus) : bool :=
  match s with
  | ModelStatusOptimal | ModelStatusObjectiveBound
  | ModelStatusObjectiveTarget | ModelStatusTimeLimit
  | ModelStatusIterationLimit => true
  | _ => false
  end.

Definition IsOptimal (s : Solution) : bool :=
  match SolStatus s with ModelStatusOptimal => true | _ => false end.

Definition IsInfeasible (s : Solution) : bool :=
  match SolStatus s with
  | ModelStatusInfeasible | ModelStatusUnboundedOrInfeasible => true
  | _ => false
  end.

Definition IsUnbounded (s : Solution) : bool :=
  match SolStatus s with
  | ModelStatusUnbounded | ModelStatusUnboundedOrInfeasible => true
  | _ => false
  end.

Definition IsTimeLimit (s : Solution) : bool :=
  match SolStatus s with ModelStatusTimeLimit => true | _ => false end.

Definition HasSolution (s : Solution) : bool :=
  ModelStatus_HasSolution (SolStatus s).

(** ** highs/model.go: options and [Solve] *)

(** [type solveConfig struct]: a [nil] pointer is [None], a Go map is a
    finite map. *)
Record solveConfig := mkSolveConfig {
  output : option bool;
  timeLimit : option float64;
  mipAbsGap : option float64;
  mipRelGap : option float64;
  threads : option Z;
  presolve : option string;
  extraBool : gmap string bool;
  extraInt : gmap string Z;
  extraFloat : gmap string float64;
  extraString : gmap string string
}.

Definition defaultSolveConfig : solveConfig :=
  mkSolveConfig None None None None None None ∅ ∅ ∅ ∅.

(** [type SolveOption func(c *solveConfig)]: a function value is the update
    its closure makes to the configuration; [nil] is a value of the type as
    well, here [None]. *)
Definition SolveOption := option (solveConfig -> solveConfig).

Definition WithOutput (enabled : bool) : SolveOption := Some (fun c =>
  mkSolveConfig (Some enabled) (timeLimit c) (mipAbsGap c) (mipRelGap c)
    (threads c) (presolve c)
    (extraBool c) (extraInt c) (extraFloat c) (extraString c)).

Definition WithTimeLimit (seconds : float64) : SolveOption := Some (fun c =>
  mkSolveConfig (output c) (Some seconds) (mipAbsGap c) (mipRelGap c)
    (threads c) (presolve c)
    (extraBool c) (extraInt c) (extraFloat c) (extraString c)).

Definition WithMIPAbsGap (gap : float64) : SolveOption := Some (fun c =>
  mkSolveConfig (output c) (timeLimit c) (Some gap) (mipRelGap c)
    (threads c) (presolve c)
    (extraBool c) (extraInt c) (extraFloat c) (extraString c)).

Definition WithMIPRelGap (gap : float64) : SolveOption := Some (fun c =>
  mkSolveConfig (output c) (timeLimit c) (mipAbsGap c) (Some gap)
    (threads c) (presolve c)
    (extraBool c) (extraInt c) (extraFloat c) (extraString c)).

Definition WithThreads (n : Z) : SolveOption := Some (fun c =>
  mkSolveConfig (output c) (timeLimit c) (mipAbsGap c) (mipRelGap c)
    (Some n) (presolve c)
    (extraBool c) (extraInt c) (extraFloat c) (extraString c)).

Definition WithPresolve (mode : string) : SolveOption := Some (fun c =>
  mkSolveConfig (output c) (timeLimit c) (mipAbsGap c) (mipRelGap c)
    (threads c) (Some mode)
    (extraBool c) (extraInt c) (extraFloat c) (extraString c)).

Definition WithBoolOption (name : string) (value : bool) : SolveOption :=
  Some (fun c =>
  mkSolveConfig (output c) (timeLimit c) (mipAbsGap c) (mipRelGap c)
    (threads c) (presolve c)
    (<[name := value]> (extraBool c)) (extraInt c) (extraFloat c)
    (extraString c)).

Definition WithIntOption (name : string) (value : Z) : SolveOption :=
  Some (fun c =>
  mkSolveConfig (output c) (timeLimit c) (mipAbsGap c) (mipRelGap c)
    (threads c) (presolve c)
    (extraBool c) (<[name := value]> (extraInt c)) (extraFloat c)
    (extraString c)).

Definition WithFloatOption (name : string) (value : float64) : SolveOption :=
  Some (fun c =>
  mkSolveConfig (output c) (timeLimit c) (mipAbsGap c) (mipRelGap c)
    (threads c) (presolve c)
    (extraBool c) (extraInt c) (<[name := value]> (extraFloat c))
    (extraString c)).

Definition WithStringOption (name value : string) : SolveOption :=
  Some (fun c =>
  mkSolveConfig (output c) (timeLimit c) (mipAbsGap c) (mipRelGap c)
    (threads c) (presolve c)
    (extraBool c) (extraInt c) (extraFloat c)
    (<[name := value]> (extraString c))).

(** [make([]VariableType, n)]: a [VariableType] is an [int] of 8 bytes, so
    [runtime.makeslice] refuses the same lengths as for [float64]; zero
    values are [Continuous]. *)
Definition make_VariableType (n : Z) : run (list VariableType) :=
  if (n <? 0) || (maxAlloc <? n * 8) then Panics "makeslice: len out of range"
  else Returns (replicate (Z.to_nat n) Continuous).

(** [copy(dst, src)]: the first [min(len(dst), len(src))] elements. *)
Definition copy {A : Type} (dst src : list A) : list A :=
  take (length dst) src ++ drop (length src) dst.

(** [for _, opt := range opts { opt(cfg) }]: each option updates the
    configuration in turn; calling a [nil] function value is a run-time
    panic. *)
Fixpoint applyOptions (opts : list SolveOption) (cfg : solveConfig)
  : run solveConfig :=
  match opts with
  | [] => Returns cfg
  | Some opt :: opts => applyOptions opts (opt cfg)
  | None :: _ =>
      Panics "runtime error: invalid memory address or nil pointer dereference"
  end.

(** A call that returns a value or an [error], unless it panics. *)
Definition attempt (A : Type) : Type := run (Error + A).

Definition bind {A B : Type} (x : attempt A) (k : A -> attempt B)
  : attempt B :=
  match x with
  | Panics msg => Panics msg
  | Returns (inl e) => Returns (inl e)
  | Returns (inr a) => k a
  end.

Notation "x <- e ;; k" := (bind e (fun x => k))
  (at level 200, e at level 99, right associativity).

(** [x, err := expandSlice(n, slice, fill); if err != nil { return nil,
    newErrorMsg("Solve", msg) }] *)
Definition expanded (n : Z) (slice : list float64) (fillValue : float64)
  (msg : string) : attempt (list float64) :=
  match expandSlice n slice fillValue with
  | Panics p => Panics p
  | Returns (_, Some _) => Returns (inl (newErrorMsg "Solve" msg))
  | Returns (x, None) => Returns (inr x)
  end.

Section withSolver.

Variable sort_Slice : sorter.

(** The native solver behind [*Solver]: its state, and what the methods of
    [Solver] that [Solve] calls do to it.  Each wraps one call into the
    HiGHS library. *)
Variable Solver : Type.
Variable NewSolver : Error + Solver.
Variable SetBoolOption : Solver -> string -> bool -> Solver * option Error.
Variable SetIntOption : Solver -> string -> Z -> Solver * option Error.
Variable SetFloatOption : Solver -> string -> float64 -> Solver * option Error.
Variable SetStringOption : Solver -> string -> string -> Solver * option Error.
Variable PassModel :
  Solver -> Z -> Z ->
  list float64 -> list float64 -> list float64 ->
  list float64 -> list float64 ->
  list Z -> list Z -> list float64 ->
  list VariableType -> bool -> float64 -> Solver * option Error.
Variable PassHessian :
  Solver -> Z -> list Z -> list Z -> list float64 -> Solver * option Error.
Variable Run : Solver -> Error + Solution.

(** The order in which [range] visits a map: Go leaves it unspecified. *)
Variable range_map : forall V : Type, gmap string V -> list (string * V).

(** [if p != nil { if err := set( *p ); err != nil { return err } }] *)
Definition setIf {V : Type} (set : Solver -> V -> Solver * option Error)
  (p : option V) (s : Solver) : Solver * option Error :=
  match p with
  | Some v => set s v
  | None => (s, None)
  end.

(** [for k, v := range m { if err := set(k, v); err != nil { return err } }] *)
Fixpoint setEach {V : Type}
  (set : Solver -> string -> V -> Solver * option Error)
  (kvs : list (string * V)) (s : Solver) : Solver * option Error :=
  match kvs with
  | [] => (s, None)
  | (k, v) :: rest =>
      match set s k v with
      | (s, Some e) => (s, Some e)
      | (s, None) => setEach set rest s
      end
  end.

(** One step of [apply] after another, unless the first returned. *)
Definition andThen (f g : Solver -> Solver * option Error) (s : Solver)
  : Solver * option Error :=
  match f s with
  | (s, Some e) => (s, Some e)
  | (s, None) => g s
  end.

Definition apply (c : solveConfig) : Solver -> Solver * option Error :=
  andThen (setIf (fun s v => SetBoolOption s "output_flag" v) (output c))
 (andThen (setIf (fun s v => SetFloatOption s "time_limit" v) (timeLimit c))
 (andThen (setIf (fun s v => SetFloatOption s "mip_abs_gap" v) (mipAbsGap c))
 (andThen (setIf (fun s v => SetFloatOption s "mip_rel_gap" v) (mipRelGap c))
 (andThen (setIf (fun s v => SetIntOption s "threads" v) (threads c))
 (andThen (setIf (fun s v => SetStringOption s "presolve" v) (presolve c))
 (andThen (setEach SetBoolOption (range_map bool (extraBool c)))
 (andThen (setEach SetIntOption (range_map Z (extraInt c)))
 (andThen (setEach SetFloatOption (range_map float64 (extraFloat c)))
          (setEach SetStringOption (range_map string (extraString c))))))))))).

(** [Solve]; the deferred [solver.Close()] releases the native solver, on
    a return and on a panic alike, and does not touch what is returned. *)
Definition Solve (m : Model) (opts : list SolveOption) : attempt Solution :=
  match NewSolver with
  | inl e => Returns (inl e)
  | inr solver =>
      match applyOptions opts defaultSolveConfig with
      | Panics p => Panics p
      | Returns cfg =>
      match apply cfg solver with
      | (_, Some e) => Returns (inl e)
      | (solver, None) =>
          let numCol := NumVars m in
          let numRow := NumConstraints m in
          if numCol =? 0 then
            Returns (inr (mkSolution ModelStatusOptimal [] [] [] [] [] []
                                     0%float))
          else
            colCosts <- expanded numCol (ColCosts m) 0%float
                          "inconsistent ColCosts length" ;;
            colLower <- expanded numCol (ColLower m) neg_infinity
                          "inconsistent ColLower length" ;;
            colUpper <- expanded numCol (ColUpper m) infinity
                          "inconsistent ColUpper length" ;;
            rowLower <- expanded numRow (RowLower m) neg_infinity
                          "inconsistent RowLower length" ;;
            rowUpper <- expanded numRow (RowUpper m) infinity
                          "inconsistent RowUpper length" ;;
            let a := nonzerosToCSR sort_Slice (ConstMatrix m) false in
            match err a with
            | Some e => Returns (inl e)
            | None =>
                varTypes <-
                  (if (0 <? len (VarTypes m))
                      && negb (len (VarTypes m) =? numCol)
                   then
                     match make_VariableType numCol with
                     | Panics p => Panics p
                     | Returns expanded =>
                         Returns (inr (copy expanded (VarTypes m)))
                     end
                   else Returns (inr (VarTypes m))) ;;
                match PassModel solver numCol numRow
                        colCosts colLower colUpper rowLower rowUpper
                        (start a) (index a) (value a)
                        varTypes (Maximize m) (Offset m) with
                | (_, Some e) => Returns (inl e)
                | (solver, None) =>
                    if 0 <? len (Hessian m) then
                      let h := nonzerosToCSR sort_Slice (Hessian m) true in
                      match err h with
                      | Some e => Returns (inl e)
                      | None =>
                          match PassHessian solver numCol
                                  (start h) (index h) (value h) with
                          | (_, Some e) => Returns (inl e)
                          | (solver, None) => Returns (Run solver)
                          end
                      end
                    else Returns (Run solver)
                end
            end
      end
      end
  end.

End withSolver.

(** * Vocabulary of the properties *)

(** One round of insertion sort, on the sorted prefix held back to front:
    [x] moves past the entries it is [less] than. *)
Fixpoint insert_held {A : Type} (less : A -> A -> bool) (x : A) (held : list A)
  : list A :=
  match held with
  | [] => [x]
  | y :: held' =>
      if less x y then y :: insert_held less x held' else x :: held
  end.

(** The test of the merge step: same row and same column. *)
Definition same_key (x y : Nonzero) : bool :=
  (Row x =? Row y) && (Col x =? Col y).

(** An entry that passes both checks of the validation loop. *)
Definition passes (triangular : bool) (n : Nonzero) : Prop :=
  0 <= Row n /\ 0 <= Col n /\ (triangular = true -> Row n <= Col n).

(** The entries that survive the merge: of each run of neighbours with the
    same (row, column), the last one. *)
Fixpoint merge_runs (l : list Nonzero) : list Nonzero :=
  match l with
  | [] => []
  | n :: rest =>
      match rest with
      | m :: _ => if same_key n m then merge_runs rest else n :: merge_runs rest
      | [] => [n]
      end
  end.

(** The offsets at which the build loop opens a row. *)
Fixpoint row_starts (filtered : list Nonzero) (i : nat) (prevRow : Z) : list Z :=
  match filtered with
  | [] => []
  | n :: rest =>
      if Row n >? prevRow then Z.of_nat i :: row_starts rest (S i) (Row n)
      else row_starts rest (S i) prevRow
  end.

(** No two entries of [l] with the same (row, column) carry different
    values. *)
Definition agreeing_duplicates (l : list Nonzero) : Prop :=
  forall x y, x ∈ l -> y ∈ l -> Row x = Row y -> Col x = Col y -> Val x = Val y.

(** Strict order on (row, column). *)
Definition key_lt (x y : Nonzero) : Prop :=
  Row x < Row y \/ (Row x = Row y /\ Col x < Col y).

(** The rows for which the build loop records an offset. *)
Fixpoint start_rows (filtered : list Nonzero) (prevRow : Z) : list Z :=
  match filtered with
  | [] => []
  | n :: rest =>
      if Row n >? prevRow then Row n :: start_rows rest (Row n)
      else start_rows rest prevRow
  end.

(** Row indices never decrease along [l]. *)
Definition rows_ascend (l : list Nonzero) : Prop :=
  StronglySorted (fun a b => Row a <= Row b) l.

(** The column indices of the [k]-th recorded row: [index[start[k]:end]],
    with [end] the next recorded offset, or [len(index)] for the last row. *)
Definition row_cols (r : csr) (k : nat) : list Z :=
  match start r !! k with
  | Some s =>
      let e := default (Z.of_nat (length (index r))) (start r !! S k) in
      take (Z.to_nat e - Z.to_nat s) (drop (Z.to_nat s) (index r))
  | None => []
  end.

(** The range [a, b) of [d] is ordered: no element is [less] than one
    placed before it. *)
Definition sorted_in {A : Type} `{!Inhabited A} (less : A -> A -> bool)
  (a b : nat) (d : list A) : Prop :=
  forall i j, (a <= i)%nat -> (i < j)%nat -> (j < b)%nat ->
              less (d !!! j) (d !!! i) = false.

(** [r] has the length of [d] and its elements outside the range [a, b). *)
Definition same_outside {A : Type} `{!Inhabited A} (a b : nat) (d r : list A)
  : Prop :=
  length r = length d /\
  forall k, (k < a)%nat \/ (b <= k)%nat -> r !!! k = d !!! k.

(** [P] holds of every element in the range [a, b). *)
Definition all_in {A : Type} `{!Inhabited A} (a b : nat) (P : A -> Prop)
  (d : list A) : Prop :=
  forall k, (a <= k)%nat -> (k < b)%nat -> P (d !!! k).

(** What [pdqsort_func] relies on when [a > 0]: the element just before the
    range is a floor, nothing in the range is [less] than it. *)
Definition floor_at {A : Type} `{!Inhabited A} (less : A -> A -> bool)
  (a b : nat) (d : list A) : Prop :=
  (0 < a)%nat -> forall k, (a <= k)%nat -> (k < b)%nat ->
                           less (d !!! k) (d !!! (a - 1)%nat) = false.

(** The heap of [heapSort_func], laid out from [first]: [c] is a child of
    [k], and from [lo] on no parent is [less] than a child below [hi]. *)
Definition is_child (c k : nat) : Prop :=
  (c = 2 * k + 1)%nat \/ (c = 2 * k + 2)%nat.

Definition heap_from {A : Type} `{!Inhabited A} (less : A -> A -> bool)
  (first lo hi : nat) (d : list A) : Prop :=
  forall k c, (lo <= k)%nat -> is_child c k -> (c < hi)%nat ->
    less (d !!! (first + k)%nat) (d !!! (first + c)%nat) = false.

(** The triples of the specification's end-to-end scenario. *)
Definition scenario : list Nonzero :=
  [mkNonzero 0 1 1%float; mkNonzero 1 0 1%float; mkNonzero 1 1 2%float;
   mkNonzero 2 0 3%float; mkNonzero 2 1 2%float].

(** The value written last for (row, col), in input order: what the
    specification lets survive the merge. *)
Definition last_written (nz : list Nonzero) (row col : Z) : option float64 :=
  Val <$> last (filter (fun n => Row n = row /\ Col n = col) nz).

(** One row with columns 0..11 and column 9 written twice, first 1.0 then
    2.0: thirteen entries, one more than the insertion-sort threshold of
    [sort.Slice]. *)
Definition twice_written : list Nonzero :=
  [mkNonzero 0 1 5%float; mkNonzero 0 9 1%float; mkNonzero 0 9 2%float;
   mkNonzero 0 2 5%float; mkNonzero 0 3 5%float; mkNonzero 0 4 5%float;
   mkNonzero 0 5 5%float; mkNonzero 0 6 5%float; mkNonzero 0 7 5%float;
   mkNonzero 0 8 5%float; mkNonzero 0 10 5%float; mkNonzero 0 11 5%float;
   mkNonzero 0 0 5%float].

(** The entries a dense row contributes: one per column whose coefficient
    is not zero, in column order. *)
Definition dense_entries (row : Z) (col : nat) (coeffs : list float64)
  : list Nonzero :=
  filter (fun n => float_ne_zero (Val n) = true)
         (imap (fun i val => mkNonzero row (Z.of_nat (col + i)) val) coeffs).

(** The same entries with the rows renumbered by [f]. *)
Definition renumber (f : Z -> Z) (nz : list Nonzero) : list Nonzero :=
  map (fun n => {| Row := f (Row n); Col := Col n; Val := Val n |}) nz.

(** The entries a sparse row contributes: one per position whose value is
    not zero, in the order given. *)
Definition sparse_entries (row : Z) (cols : list Z) (vals : list float64)
  : list Nonzero :=
  filter (fun n => float_ne_zero (Val n) = true)
         (zip_with (fun col val => mkNonzero row col val) cols vals).

(** Both bound slices have one entry per row, and every matrix entry lies in
    one of these rows. *)
Definition rows_consistent (m : Model) : Prop :=
  length (RowLower m) = length (RowUpper m) /\
  Forall (fun n => Row n < len (RowLower m)) (ConstMatrix m).

(** What one more row does to a model with consistent rows. *)
Definition one_more_row (m m' : Model) : Prop :=
  rows_consistent m' /\ NumConstraints m' = NumConstraints m + 1.

(** The matrix of a model built row by row from dense rows: entries in
    row-major order without repetition, rows and columns in range. *)
Definition dense_form (m : Model) : Prop :=
  StronglySorted key_lt (ConstMatrix m) /\
  Forall (fun n => 0 <= Row n < len (RowLower m) /\ 0 <= Col n)
         (ConstMatrix m).

(** A slice that [Solve] accepts for a dimension [n]: empty, or of length
    [n]. *)
Definition fits (n : Z) (slice : list float64) : Prop :=
  len slice = 0 \/ len slice = n.

(** [expandSlice] returns a slice for the dimension [n]: [slice] has that
    length, or it is empty and [make] served [n] elements. *)
Definition expands (n : Z) (slice : list float64) : Prop :=
  exists fillValue x, expandSlice n slice fillValue = Returns (x, None).

(** The error [Solve] returns for a slice that does not fit. *)
Definition length_error (name : string) : attempt Solution :=
  Returns (inl (newErrorMsg "Solve"
                  ("inconsistent " ++ name ++ " length")%string)).

(** Arguments of [PassModel] that agree with each other. *)
Definition consistent_model (numCol numRow : Z)
  (colCost colLower colUpper rowLower rowUpper : list float64)
  (aStart aIndex : list Z) (aValue : list float64)
  (integrality : list VariableType) : Prop :=
  0 < numCol /\ 0 <= numRow /\
  len colCost = numCol /\ len colLower = numCol /\ len colUpper = numCol /\
  len rowLower = numRow /\ len rowUpper = numRow /\
  length aIndex = length aValue /\
  StronglySorted Z.lt aStart /\
  Forall (fun s => 0 <= s < len aIndex) aStart /\
  Forall (fun c => 0 <= c < numCol) aIndex /\
  (integrality = [] \/ len integrality = numCol).

(** A stand-in for the native solver: no state, every call accepted. *)
Definition accept_option {V : Type} (s : unit) (name : string) (v : V)
  : unit * option Error := (s, None).

Definition accept_model (s : unit) (numCol numRow : Z)
  (colCost colLower colUpper rowLower rowUpper : list float64)
  (aStart aIndex : list Z) (aValue : list float64)
  (integrality : list VariableType) (maximize : bool) (offset : float64)
  : unit * option Error := (s, None).

(** The same, refusing column or row data of the wrong length. *)
Definition checked_model (s : unit) (numCol numRow : Z)
  (colCost colLower colUpper rowLower rowUpper : list float64)
  (aStart aIndex : list Z) (aValue : list float64)
  (integrality : list VariableType) (maximize : bool) (offset : float64)
  : unit * option Error :=
  if (len colCost =? numCol) && (len colLower =? numCol)
     && (len colUpper =? numCol) && (len rowLower =? numRow)
     && (len rowUpper =? numRow)
  then (s, None)
  else (s, Some (newErrorMsg "PassModel" "inconsistent dimensions")).

Definition accept_hessian (s : unit) (dim : Z) (hStart hIndex : list Z)
  (hValue : list float64) : unit * option Error := (s, None).

Definition run_optimal (s : unit) : Error + Solution :=
  inr (mkSolution ModelStatusOptimal [1%float] [] [] [] [] [] 1%float).

Definition range_listed (V : Type) (m : gmap string V) : list (string * V) :=
  map_to_list m.


(** The ten options of the package, by name, and the [SolveOption] each
    stands for. *)
Inductive given :=
| GivenOutput (enabled : bool)
| GivenTimeLimit (seconds : float64)
| GivenMIPAbsGap (gap : float64)
| GivenMIPRelGap (gap : float64)
| GivenThreads (n : Z)
| GivenPresolve (mode : string)
| GivenBool (name : string) (value : bool)
| GivenInt (name : string) (value : Z)
| GivenFloat (name : string) (value : float64)
| GivenString (name value : string).

Definition option_of (g : given) : SolveOption :=
  match g with
  | GivenOutput enabled => WithOutput enabled
  | GivenTimeLimit seconds => WithTimeLimit seconds
  | GivenMIPAbsGap gap => WithMIPAbsGap gap
  | GivenMIPRelGap gap => WithMIPRelGap gap
  | GivenThreads n => WithThreads n
  | GivenPresolve mode => WithPresolve mode
  | GivenBool name value => WithBoolOption name value
  | GivenInt name value => WithIntOption name value
  | GivenFloat name value => WithFloatOption name value
  | GivenString name value => WithStringOption name value
  end.

(** What an option says about one setting, if anything. *)
Definition says_output (g : given) : option bool :=
  match g with GivenOutput b => Some b | _ => None end.
Definition says_timeLimit (g : given) : option float64 :=
  match g with GivenTimeLimit t => Some t | _ => None end.
Definition says_mipAbsGap (g : given) : option float64 :=
  match g with GivenMIPAbsGap t => Some t | _ => None end.
Definition says_mipRelGap (g : given) : option float64 :=
  match g with GivenMIPRelGap t => Some t | _ => None end.
Definition says_threads (g : given) : option Z :=
  match g with GivenThreads n => Some n | _ => None end.
Definition says_presolve (g : given) : option string :=
  match g with GivenPresolve s => Some s | _ => None end.
Definition says_bool (name : string) (g : given) : option bool :=
  match g with
  | GivenBool k v => if decide (k = name) then Some v else None
  | _ => None
  end.
Definition says_int (name : string) (g : given) : option Z :=
  match g with
  | GivenInt k v => if decide (k = name) then Some v else None
  | _ => None
  end.
Definition says_float (name : string) (g : given) : option float64 :=
  match g with
  | GivenFloat k v => if decide (k = name) then Some v else None
  | _ => None
  end.
Definition says_string (name : string) (g : given) : option string :=
  match g with
  | GivenString k v => if decide (k = name) then Some v else None
  | _ => None
  end.

(** * Properties *)

(** ** Lists *)

Lemma filter_none {A : Type} (P : A -> Prop) `{forall x, Decision (P x)}
  (l : list A) :
  Forall (fun x => ~ P x) l -> filter P l = [].
Proof.
  induction 1 as [|x l Hx Hl IH]; [reflexivity|].
  rewrite filter_cons_False by exact Hx. exact IH.
Qed.

(** ** The ordering and the sorting contract *)

Lemma swo_asym {A : Type} (less : A -> A -> bool) :
  strict_weak_order less ->
  forall x y, less x y = true -> less y x = false.
Proof.
  intros Hswo x y Hxy.
  destruct (less y x) eqn:Hyx; [|reflexivity].
  pose proof (swo_trans _ Hswo x y x Hxy Hyx) as Hxx.
  rewrite (swo_irrefl _ Hswo) in Hxx. discriminate.
Qed.

Lemma not_less_trans {A : Type} (less : A -> A -> bool) :
  strict_weak_order less ->
  forall x y z, less y x = false -> less z y = false -> less z x = false.
Proof.
  intros Hswo x y z Hyx Hzy.
  destruct (less z x) eqn:Hzx; [|reflexivity].
  destruct (less x y) eqn:Hxy.
  { rewrite (swo_trans _ Hswo z x y Hzx Hxy) in Hzy. discriminate. }
  destruct (less y z) eqn:Hyz.
  { rewrite (swo_trans _ Hswo y z x Hyz Hzx) in Hyx. discriminate. }
  destruct (swo_incomp _ Hswo x y z Hxy Hyx Hyz Hzy) as [_ Hzx'].
  congruence.
Qed.

Lemma less_rowcol_spec (x y : Nonzero) :
  less_rowcol x y = true <->
  Row x < Row y \/ (Row x = Row y /\ Col x < Col y).
Proof.
  unfold less_rowcol.
  destruct (Z.eqb_spec (Row x) (Row y)) as [He|Hne]; simpl.
  - rewrite Z.ltb_lt. lia.
  - rewrite Z.ltb_lt. lia.
Qed.

Lemma less_rowcol_false (x y : Nonzero) :
  less_rowcol x y = false <->
  Row y < Row x \/ (Row y = Row x /\ Col y <= Col x).
Proof.
  destruct (less_rowcol x y) eqn:E.
  - apply less_rowcol_spec in E. split; [discriminate|lia].
  - split; [intros _|reflexivity].
    assert (~ (Row x < Row y \/ (Row x = Row y /\ Col x < Col y))) as Hn.
    { intros Hc. apply less_rowcol_spec in Hc. congruence. }
    lia.
Qed.

Lemma less_rowcol_swo : strict_weak_order less_rowcol.
Proof.
  split.
  - intros x. apply less_rowcol_false. lia.
  - intros x y z. rewrite !less_rowcol_spec. lia.
  - intros x y z. rewrite !less_rowcol_false. lia.
Qed.

(** ** [sort.Slice] rearranges: every step is a swap *)

Lemma Swap_perm {A : Type} (data : list A) i j : GoSort.Swap data i j ≡ₚ data.
Proof.
  unfold GoSort.Swap.
  destruct (data !! i) as [x|] eqn:Hi; [|reflexivity].
  destruct (data !! j) as [y|] eqn:Hj; [|reflexivity].
  pose proof (lookup_lt_Some _ _ _ Hi) as Hli.
  pose proof (lookup_lt_Some _ _ _ Hj) as Hlj.
  apply Permutation_inj. split; [rewrite !length_insert; reflexivity|].
  exists (fun k => if decide (k = i) then j else if decide (k = j) then i else k).
  split.
  - intros k1 k2. repeat case_decide; lia.
  - intros k. rewrite !list_lookup_insert, !length_insert.
    repeat case_decide; try congruence; try lia.
Qed.

Lemma fold_left_perm {A B : Type} (f : list A -> B -> list A) (l : list B) :
  (forall d b, f d b ≡ₚ d) -> forall d, fold_left f l d ≡ₚ d.
Proof.
  intros Hf. induction l as [|b l IH]; intros d; simpl; [reflexivity|].
  rewrite IH. apply Hf.
Qed.

Section rearranges.

Context {A : Type} (less : A -> A -> bool).

Lemma insertion_shift_perm (data : list A) a j :
  GoSort.insertion_shift less data a j ≡ₚ data.
Proof.
  revert data. induction j as [|j IH]; intros data; simpl; [reflexivity|].
  destruct (_ && _); [|reflexivity]. rewrite IH. apply Swap_perm.
Qed.

Lemma insertionSort_func_perm (data : list A) a b :
  GoSort.insertionSort_func less data a b ≡ₚ data.
Proof.
  unfold GoSort.insertionSort_func. apply fold_left_perm.
  intros d i. apply insertion_shift_perm.
Qed.

Lemma siftDown_func_perm (data : list A) lo hi first :
  GoSort.siftDown_func less data lo hi first ≡ₚ data.
Proof.
  unfold GoSort.siftDown_func. generalize hi at 1. intros fuel.
  revert data lo. induction fuel as [|fuel IH]; intros data lo; simpl;
    [reflexivity|].
  destruct (_ <=? _)%nat; [reflexivity|].
  destruct (negb _); [reflexivity|]. rewrite IH. apply Swap_perm.
Qed.

Lemma heapSort_func_perm (data : list A) a b :
  GoSort.heapSort_func less data a b ≡ₚ data.
Proof.
  unfold GoSort.heapSort_func. cbv zeta.
  rewrite fold_left_perm.
  - apply fold_left_perm. intros d i. apply siftDown_func_perm.
  - intros d i. rewrite siftDown_func_perm. apply Swap_perm.
Qed.

Lemma reverseRange_func_perm (data : list A) a b :
  GoSort.reverseRange_func data a b ≡ₚ data.
Proof.
  unfold GoSort.reverseRange_func. generalize (b - a)%nat (b - 1)%nat.
  intros fuel j. revert data a j.
  induction fuel as [|fuel IH]; intros data a j; simpl; [reflexivity|].
  destruct (_ <? _)%nat; [|reflexivity]. rewrite IH. apply Swap_perm.
Qed.

Lemma breakPatterns_func_perm (data : list A) a b :
  GoSort.breakPatterns_func data a b ≡ₚ data.
Proof.
  unfold GoSort.breakPatterns_func. cbv zeta.
  destruct (_ <=? _)%nat; [|reflexivity].
  generalize (Z.of_nat (b - a)). generalize (seq 0 3).
  intros l. revert data. induction l as [|i l IH]; intros data r; simpl;
    [reflexivity|].
  rewrite IH. apply Swap_perm.
Qed.

Lemma shift_left_perm (data : list A) j : GoSort.shift_left less data j ≡ₚ data.
Proof.
  revert data. induction j as [|j IH]; intros data; simpl; [reflexivity|].
  destruct (GoSort.Less _ _ _ _); [|reflexivity]. rewrite IH. apply Swap_perm.
Qed.

Lemma shift_right_perm fuel (data : list A) j b :
  GoSort.shift_right less fuel data j b ≡ₚ data.
Proof.
  revert data j. induction fuel as [|fuel IH]; intros data j; simpl;
    [reflexivity|].
  destruct (_ && _); [|reflexivity]. rewrite IH. apply Swap_perm.
Qed.

Lemma partialInsertionSort_func_perm (data : list A) a b :
  fst (GoSort.partialInsertionSort_func less data a b) ≡ₚ data.
Proof.
  unfold GoSort.partialInsertionSort_func.
  generalize GoSort.maxSteps (a + 1)%nat. intros steps.
  revert data. induction steps as [|steps IH]; intros data i; simpl;
    [reflexivity|].
  destruct (_ =? _)%nat; [reflexivity|].
  destruct (_ <? _)%nat; [reflexivity|].
  rewrite IH.
  assert (forall (c : bool) (d1 d2 : list A),
            d1 ≡ₚ d2 -> (if c then d1 else d2) ≡ₚ d2) as Hif
    by (intros [] d1 d2 H; [exact H|reflexivity]).
  rewrite Hif by apply shift_right_perm.
  rewrite Hif by apply shift_left_perm.
  apply Swap_perm.
Qed.

Lemma partition_func_perm (data : list A) a b pivot :
  fst (fst (GoSort.partition_func less data a b pivot)) ≡ₚ data.
Proof.
  unfold GoSort.partition_func. cbv zeta.
  destruct (_ <? _)%nat; cbn [fst].
  { rewrite !Swap_perm. reflexivity. }
  match goal with
  | |- context [GoSort.partition_loop less ?f ?d ?a ?i ?j] =>
      assert (fst (GoSort.partition_loop less f d a i j) ≡ₚ d) as Hloop;
      [generalize f d i j|destruct (GoSort.partition_loop less f d a i j)]
  end.
  - intros fuel. induction fuel as [|fuel IH]; intros d i j; simpl;
      [reflexivity|].
    destruct (_ <? _)%nat; [reflexivity|]. rewrite IH. apply Swap_perm.
  - cbn [fst] in *. rewrite Swap_perm, Hloop, !Swap_perm. reflexivity.
Qed.

Lemma partitionEqual_func_perm (data : list A) a b pivot :
  fst (GoSort.partitionEqual_func less data a b pivot) ≡ₚ data.
Proof.
  unfold GoSort.partitionEqual_func.
  rewrite <- (Swap_perm data a pivot) at 2.
  generalize (S (b - a)) (GoSort.Swap data a pivot) (a + 1)%nat (b - 1)%nat.
  intros fuel. induction fuel as [|fuel IH]; intros d i j; simpl;
    [reflexivity|].
  destruct (_ <? _)%nat; [reflexivity|]. rewrite IH. apply Swap_perm.
Qed.

Lemma pdqsort_func_perm fuel (data : list A) a b limit wasBalanced
  wasPartitioned :
  GoSort.pdqsort_func less fuel data a b limit wasBalanced wasPartitioned
  ≡ₚ data.
Proof.
  revert data a b limit wasBalanced wasPartitioned.
  induction fuel as [|fuel IH];
    intros data a b limit wasBalanced wasPartitioned; [reflexivity|].
  cbn [GoSort.pdqsort_func]. cbv zeta.
  destruct (_ <=? _)%nat; [apply insertionSort_func_perm|].
  destruct (_ =? _)%nat; [apply heapSort_func_perm|].
  set (broken := if negb wasBalanced
                 then (GoSort.breakPatterns_func data a b, (limit - 1)%nat)
                 else (data, limit)).
  assert (fst broken ≡ₚ data) as Hbroken.
  { subst broken. destruct (negb wasBalanced); cbn [fst];
      [apply breakPatterns_func_perm|reflexivity]. }
  destruct broken as [data1 limit1]. cbn [fst] in Hbroken.
  destruct (GoSort.choosePivot_func less data1 a b) as [pivot hint].
  set (turned := match hint with
                 | GoSort.decreasingHint =>
                     (GoSort.reverseRange_func data1 a b,
                      (b - 1 - (pivot - a))%nat, GoSort.increasingHint)
                 | _ => (data1, pivot, hint)
                 end).
  assert (fst (fst turned) ≡ₚ data) as Hturned.
  { subst turned. destruct hint; cbn [fst]; try exact Hbroken.
    rewrite reverseRange_func_perm. exact Hbroken. }
  destruct turned as [[data2 pivot2] hint2]. cbn [fst] in Hturned.
  set (tried := match hint2 with
                | GoSort.increasingHint =>
                    if wasBalanced && wasPartitioned
                    then GoSort.partialInsertionSort_func less data2 a b
                    else (data2, false)
                | _ => (data2, false)
                end).
  assert (fst tried ≡ₚ data) as Htried.
  { subst tried. destruct hint2; cbn [fst]; try exact Hturned.
    destruct (wasBalanced && wasPartitioned); cbn [fst]; [|exact Hturned].
    rewrite partialInsertionSort_func_perm. exact Hturned. }
  destruct tried as [data3 done]. cbn [fst] in Htried.
  destruct done; [exact Htried|].
  destruct (_ && _).
  - pose proof (partitionEqual_func_perm data3 a b pivot2) as Heq.
    destruct (GoSort.partitionEqual_func less data3 a b pivot2) as [data4 mid].
    cbn [fst] in Heq. rewrite IH, Heq. exact Htried.
  - pose proof (partition_func_perm data3 a b pivot2) as Hpart.
    destruct (GoSort.partition_func less data3 a b pivot2)
      as [[data4 mid] alreadyPartitioned].
    cbn [fst] in Hpart.
    destruct (_ <? _)%nat; rewrite !IH, Hpart; exact Htried.
Qed.

Lemma Slice_perm (x : list A) : GoSort.Slice less x ≡ₚ x.
Proof. apply pdqsort_func_perm. Qed.

End rearranges.

Lemma Slice_rearranges : rearranges (@GoSort.Slice).
Proof. intros A less l. apply Slice_perm. Qed.

(** ** Insertion sort, as package sort runs it *)

Lemma insert_held_perm {A : Type} (less : A -> A -> bool) x held :
  insert_held less x held ≡ₚ x :: held.
Proof.
  induction held as [|y held IH]; simpl; [reflexivity|].
  destruct (less x y); [|reflexivity].
  rewrite IH. apply Permutation_swap.
Qed.

Lemma insert_held_length {A : Type} (less : A -> A -> bool) x held :
  length (insert_held less x held) = S (length held).
Proof. rewrite insert_held_perm. reflexivity. Qed.

Lemma insert_held_descending {A : Type} (less : A -> A -> bool) x held :
  strict_weak_order less ->
  StronglySorted (fun a b => less a b = false) held ->
  StronglySorted (fun a b => less a b = false) (insert_held less x held).
Proof.
  intros Hswo. induction held as [|y held IH]; simpl; intros Hl.
  - repeat constructor.
  - apply StronglySorted_inv in Hl as [Hl Hy].
    destruct (less x y) eqn:Hxy.
    + constructor; [auto|].
      rewrite insert_held_perm. constructor; [|exact Hy].
      eapply swo_asym; eauto.
    + constructor; [constructor; assumption|].
      constructor; [exact Hxy|].
      eapply Forall_impl; [exact Hy|].
      intros z Hyz. simpl in Hyz. eapply not_less_trans; eauto.
Qed.

Lemma descending_rev {A : Type} (less : A -> A -> bool) (l : list A) :
  StronglySorted (fun a b => less a b = false) l -> ordered_by less (rev l).
Proof.
  unfold ordered_by. induction 1 as [|x l Hl IH Hx]; simpl; [constructor|].
  apply StronglySorted_app. split; [|split].
  - intros a b Ha Hb. apply list_elem_of_singleton in Hb as ->.
    rewrite Forall_forall in Hx. apply Hx.
    apply list_elem_of_In. apply in_rev. apply list_elem_of_In. exact Ha.
  - exact IH.
  - repeat constructor.
Qed.

(** The inner loop, on a slice split at the entry being placed. *)
Lemma insertion_shift_held {A : Type} (less : A -> A -> bool) x held suf :
  GoSort.insertion_shift less (rev held ++ x :: suf) 0 (length held) =
  rev (insert_held less x held) ++ suf.
Proof.
  revert suf. induction held as [|y held IH]; intros suf; [reflexivity|].
  cbn [length GoSort.insertion_shift rev insert_held].
  assert ((rev held ++ [y]) ++ x :: suf = rev held ++ y :: x :: suf) as Hsplit
    by (rewrite <- app_assoc; reflexivity).
  assert ((rev held ++ y :: x :: suf) !! length held = Some y) as Hy.
  { rewrite <- (length_rev held). apply list_lookup_middle. reflexivity. }
  assert ((rev held ++ y :: x :: suf) !! S (length held) = Some x) as Hx.
  { rewrite <- (length_rev held).
    replace (S (length (rev held))) with (length (rev held) + 1)%nat by lia.
    rewrite lookup_app_r by lia.
    replace (length (rev held) + 1 - length (rev held))%nat with 1%nat by lia.
    reflexivity. }
  rewrite Hsplit. unfold GoSort.Less. rewrite Hx, Hy. cbn [Nat.ltb Nat.leb andb].
  destruct (less x y) eqn:Hxy.
  - unfold GoSort.Swap. rewrite Hx, Hy.
    assert (<[S (length held):=y]> (<[length held:=x]> (rev held ++ y :: x :: suf))
            = rev held ++ x :: y :: suf) as ->.
    { rewrite <- (length_rev held).
      replace (length (rev held)) with (length (rev held) + 0)%nat at 2 by lia.
      rewrite insert_app_r. cbn [list_insert insert].
      replace (S (length (rev held))) with (length (rev held) + 1)%nat by lia.
      rewrite insert_app_r. reflexivity. }
    rewrite IH. cbn [rev]. rewrite <- app_assoc. reflexivity.
  - cbn [rev]. rewrite <- !app_assoc. reflexivity.
Qed.

Lemma insertion_rounds_held {A : Type} (less : A -> A -> bool) held suf :
  fold_left (fun d i => GoSort.insertion_shift less d 0 i)
            (seq (length held) (length suf)) (rev held ++ suf) =
  rev (fold_left (fun h x => insert_held less x h) suf held).
Proof.
  revert held. induction suf as [|x suf IH]; intros held.
  - simpl. apply app_nil_r.
  - cbn [length seq fold_left]. rewrite insertion_shift_held.
    rewrite <- (insert_held_length less x held). apply IH.
Qed.

Lemma insertion_Slice_held {A : Type} (less : A -> A -> bool) (x : list A) :
  insertion_Slice A less x =
  rev (fold_left (fun h a => insert_held less a h) x []).
Proof.
  unfold insertion_Slice, GoSort.insertionSort_func.
  destruct x as [|a x]; [reflexivity|].
  cbn [length]. replace (S (length x) - (0 + 1))%nat with (length x) by lia.
  apply (insertion_rounds_held less [a] x).
Qed.

Lemma insertion_Slice_contract : sort_contract insertion_Slice.
Proof.
  split.
  - intros A less l. rewrite insertion_Slice_held, <- Permutation_rev.
    assert (forall held, fold_left (fun h a => insert_held less a h) l held
                         ≡ₚ held ++ l) as H.
    { induction l as [|a l IH]; intros held; simpl.
      - rewrite app_nil_r. reflexivity.
      - rewrite IH, insert_held_perm. apply Permutation_middle. }
    apply (H []).
  - intros A less l Hswo. rewrite insertion_Slice_held.
    apply descending_rev.
    assert (forall held, StronglySorted (fun a b => less a b = false) held ->
              StronglySorted (fun a b => less a b = false)
                (fold_left (fun h a => insert_held less a h) l held)) as H.
    { induction l as [|a l IH]; intros held Hh; simpl; [exact Hh|].
      apply IH, insert_held_descending; assumption. }
    apply H. constructor.
Qed.

(** Up to [maxInsertion] elements [sort.Slice] is that insertion sort. *)
Lemma Slice_short {A : Type} (less : A -> A -> bool) (x : list A) :
  (length x <= GoSort.maxInsertion)%nat ->
  GoSort.Slice less x = insertion_Slice A less x.
Proof.
  intros Hlen. unfold GoSort.Slice, insertion_Slice.
  cbn [GoSort.pdqsort_func]. rewrite Nat.sub_0_r.
  apply Nat.leb_le in Hlen. rewrite Hlen. reflexivity.
Qed.

(** ** [sort.Slice] orders its slice

    The pattern-defeating quicksort of package sort, step by step: each
    routine leaves the slice outside its range alone and, where it claims
    to, leaves the range ordered by [less]. *)

Section ordering.

Local Open Scope nat_scope.

(** *** Swaps, ranges and what lies outside them *)

Section swapping.
Context {A : Type} `{!Inhabited A} (less : A -> A -> bool).

Lemma Less_total (d : list A) i j :
  i < length d -> j < length d ->
  GoSort.Less less d i j = less (d !!! i) (d !!! j).
Proof.
  intros Hi Hj. unfold GoSort.Less.
  rewrite (list_lookup_lookup_total_lt d i Hi), (list_lookup_lookup_total_lt d j Hj).
  reflexivity.
Qed.

Lemma Swap_length (d : list A) i j : length (GoSort.Swap d i j) = length d.
Proof. apply Permutation_length, Swap_perm. Qed.

Lemma Swap_total (d : list A) i j k :
  i < length d -> j < length d ->
  GoSort.Swap d i j !!! k =
  if decide (k = i) then d !!! j else if decide (k = j) then d !!! i else d !!! k.
Proof.
  intros Hi Hj. unfold GoSort.Swap.
  rewrite (list_lookup_lookup_total_lt d i Hi), (list_lookup_lookup_total_lt d j Hj).
  rewrite !list_lookup_total_insert, !length_insert.
  repeat case_decide; try reflexivity; try lia.
Qed.

Lemma same_outside_refl a b (d : list A) : same_outside a b d d.
Proof. split; [reflexivity|]. intros; reflexivity. Qed.

Lemma same_outside_trans a b (d1 d2 d3 : list A) :
  same_outside a b d1 d2 -> same_outside a b d2 d3 -> same_outside a b d1 d3.
Proof.
  intros [L1 H1] [L2 H2]. split; [congruence|].
  intros k Hk. rewrite H2, H1 by exact Hk. reflexivity.
Qed.

Lemma same_outside_wider a b a' b' (d r : list A) :
  a' <= a -> b <= b' -> same_outside a b d r -> same_outside a' b' d r.
Proof.
  intros Ha Hb [L H]. split; [exact L|]. intros k Hk. apply H. lia.
Qed.

Lemma Swap_same_outside a b (d : list A) i j :
  a <= i -> i < b -> a <= j -> j < b -> b <= length d ->
  same_outside a b d (GoSort.Swap d i j).
Proof.
  intros Hai Hib Haj Hjb Hb. split; [apply Swap_length|].
  intros k Hk. rewrite Swap_total by lia.
  repeat case_decide; try reflexivity; lia.
Qed.

(** With the same elements outside a range and the same elements overall,
    the range holds the same elements. *)
Lemma range_perm a b (d r : list A) :
  a <= b -> b <= length d -> r ≡ₚ d -> same_outside a b d r ->
  take (b - a) (drop a r) ≡ₚ take (b - a) (drop a d).
Proof.
  intros Hab Hb Hperm [Hlen Hout].
  assert (take a r = take a d) as Htake.
  { apply list_eq_same_length with a; rewrite ?length_take; try lia.
    intros i x y Hi Hx Hy.
    rewrite lookup_take_lt in Hx, Hy by lia.
    apply list_lookup_total_correct in Hx, Hy.
    rewrite <- Hx, <- Hy. apply Hout. lia. }
  assert (drop b r = drop b d) as Hdrop.
  { apply list_eq_same_length with (length d - b); rewrite ?length_drop; try lia.
    intros i x y Hi Hx Hy.
    rewrite lookup_drop in Hx, Hy.
    apply list_lookup_total_correct in Hx, Hy.
    rewrite <- Hx, <- Hy. apply Hout. lia. }
  assert (forall l : list A, a <= b -> b <= length l ->
            l = take a l ++ take (b - a) (drop a l) ++ drop b l) as Hsplit.
  { intros l H1 H2.
    rewrite <- (take_drop a l) at 1. f_equal.
    rewrite <- (take_drop (b - a) (drop a l)) at 1. f_equal.
    rewrite drop_drop. f_equal. lia. }
  rewrite (Hsplit r), (Hsplit d) in Hperm by lia.
  rewrite Htake, Hdrop in Hperm.
  apply Permutation_app_inv_l in Hperm.
  apply Permutation_app_inv_r in Hperm. exact Hperm.
Qed.

Lemma all_in_Forall a b (P : A -> Prop) (d : list A) :
  a <= b -> b <= length d ->
  all_in a b P d <-> Forall P (take (b - a) (drop a d)).
Proof.
  intros Hab Hb. rewrite Forall_lookup. split.
  - intros H i x Hx. apply lookup_take_Some in Hx as [Hx Hi].
    rewrite lookup_drop in Hx. apply list_lookup_total_correct in Hx.
    rewrite <- Hx. apply H; lia.
  - intros H k Hak Hkb. apply (H (k - a)).
    rewrite lookup_take_lt by lia. rewrite lookup_drop.
    replace (a + (k - a)) with k by lia.
    apply list_lookup_lookup_total_lt. lia.
Qed.

Lemma all_in_transfer a b (P : A -> Prop) (d r : list A) :
  a <= b -> b <= length d -> r ≡ₚ d -> same_outside a b d r ->
  all_in a b P d -> all_in a b P r.
Proof.
  intros Hab Hb Hperm Hout Hd.
  pose proof Hout as [Hlen _].
  apply all_in_Forall; [lia|lia|].
  rewrite (range_perm a b d r Hab Hb Hperm Hout).
  apply all_in_Forall; assumption.
Qed.

End swapping.

(** *** Insertion sort on a range *)

Section insertion_ranges.
Context {A : Type} `{!Inhabited A} (less : A -> A -> bool).
Hypothesis Hswo : strict_weak_order less.

Lemma insertion_shift_sorted a j : forall d i,
  j <= i -> i < length d ->
  sorted_in less a j d -> sorted_in less j (S i) d ->
  (forall p q, a <= p -> p < j -> j < q -> q <= i ->
               less (d !!! q) (d !!! p) = false) ->
  sorted_in less a (S i) (GoSort.insertion_shift less d a j) /\
  same_outside a (S j) d (GoSort.insertion_shift less d a j).
Proof.
  induction j as [|j IH]; intros d i Hji Hi Hlow Hhigh Hcross.
  { simpl. split; [|apply same_outside_refl].
    intros i1 j1 H1 H2 H3. apply Hhigh; lia. }
  cbn [GoSort.insertion_shift].
  rewrite Less_total by lia.
  destruct (a <? S j) eqn:Haj; cbn [andb].
  2: { apply Nat.ltb_ge in Haj. split; [|apply same_outside_refl].
       intros i1 j1 H1 H2 H3. apply Hhigh; lia. }
  apply Nat.ltb_lt in Haj.
  destruct (less (d !!! S j) (d !!! j)) eqn:Hless.
  - destruct (IH (GoSort.Swap d (S j) j) i) as [Hs Ho].
    + lia.
    + rewrite Swap_length. exact Hi.
    + intros i1 j1 H1 H2 H3. rewrite !Swap_total by lia.
      repeat case_decide; try lia. apply Hlow; lia.
    + intros i1 j1 H1 H2 H3. rewrite !Swap_total by lia.
      repeat case_decide; try lia.
      * eapply swo_asym; eauto.
      * apply Hcross; lia.
      * apply Hhigh; lia.
      * apply Hhigh; lia.
    + intros p q H1 H2 H3 H4. rewrite !Swap_total by lia.
      repeat case_decide; try lia.
      * apply Hlow; lia.
      * apply Hcross; lia.
    + split; [exact Hs|].
      eapply same_outside_trans.
      * apply (Swap_same_outside a (S (S j)) d (S j) j); lia.
      * eapply same_outside_wider; [| |exact Ho]; lia.
  - split; [|apply same_outside_refl].
    intros i1 j1 H1 H2 H3.
    destruct (decide (j1 < S j)); [apply Hlow; lia|].
    destruct (decide (S j <= i1)); [apply Hhigh; lia|].
    destruct (decide (j1 = S j)) as [->|]; [|apply Hcross; lia].
    destruct (decide (i1 = j)) as [->|]; [exact Hless|].
    apply (not_less_trans less Hswo _ (d !!! j) _); [apply Hlow; lia|exact Hless].
Qed.

Lemma insertion_rounds_sorted a n : forall i d,
  a < i -> i + n <= length d -> sorted_in less a i d ->
  let r := fold_left (fun d i => GoSort.insertion_shift less d a i) (seq i n) d in
  sorted_in less a (i + n) r /\ same_outside a (i + n) d r.
Proof.
  induction n as [|n IH]; intros i d Hai Hlen Hs; cbn [seq fold_left].
  { rewrite Nat.add_0_r. split; [exact Hs|apply same_outside_refl]. }
  assert (sorted_in less i (S i) d) as Hone by (intros i1 j1 H1 H2 H3; lia).
  destruct (insertion_shift_sorted a i d i) as [Hs1 Ho1];
    [lia|lia|exact Hs|exact Hone|intros; lia|].
  pose proof Ho1 as [Hl1 _].
  destruct (IH (S i) (GoSort.insertion_shift less d a i)) as [Hs2 Ho2];
    [lia|lia|exact Hs1|].
  replace (i + S n) with (S i + n) by lia.
  split; [exact Hs2|].
  eapply same_outside_trans; [|exact Ho2].
  eapply same_outside_wider; [| |exact Ho1]; lia.
Qed.

(** [insertionSort_func] orders [a, b) and touches nothing else. *)
Lemma insertionSort_func_sorted (d : list A) a b :
  a <= b -> b <= length d ->
  sorted_in less a b (GoSort.insertionSort_func less d a b) /\
  same_outside a b d (GoSort.insertionSort_func less d a b).
Proof.
  intros Hab Hb. unfold GoSort.insertionSort_func.
  destruct (decide (a = b)) as [->|Hne].
  { replace (b - (b + 1)) with 0 by lia. simpl.
    split; [intros i j; lia|apply same_outside_refl]. }
  destruct (insertion_rounds_sorted a (b - (a + 1)) (a + 1) d) as [Hs Ho];
    [lia|lia|intros i j; lia|].
  replace (a + 1 + (b - (a + 1))) with b in * by lia.
  split; assumption.
Qed.

End insertion_ranges.

(** *** [partition_func] *)

Section partitioning.
Context {A : Type} `{!Inhabited A} (less : A -> A -> bool).
Hypothesis Hswo : strict_weak_order less.

Lemma scan_less_spec fuel : forall (d : list A) a i j,
  j < length d -> a < length d -> j < i + fuel ->
  let i' := GoSort.scan_less less fuel d a i j in
  i <= i' /\ i' <= Nat.max i (S j) /\
  (forall k, i <= k -> k < i' -> less (d !!! k) (d !!! a) = true) /\
  (i' <= j -> less (d !!! i') (d !!! a) = false).
Proof.
  induction fuel as [|fuel IH]; intros d a i j Hj Ha Hfuel; cbn [GoSort.scan_less].
  { repeat split; try lia. }
  destruct (i <=? j) eqn:Hij; cbn [andb].
  2: { apply Nat.leb_gt in Hij. repeat split; try lia. }
  apply Nat.leb_le in Hij. rewrite Less_total by lia.
  destruct (less (d !!! i) (d !!! a)) eqn:Hl.
  - destruct (IH d a (i + 1) j Hj Ha ltac:(lia)) as (H1 & H2 & H3 & H4).
    repeat split; try lia.
    + intros k Hk1 Hk2. destruct (decide (k = i)) as [->|]; [exact Hl|].
      apply H3; lia.
    + exact H4.
  - repeat split; try lia. intros _. exact Hl.
Qed.

Lemma scan_not_less_spec fuel : forall (d : list A) a i j,
  j < length d -> a < length d -> 1 <= i -> j < i + fuel ->
  let j' := GoSort.scan_not_less less fuel d a i j in
  j' <= j /\ Nat.min i (S j) <= S j' /\
  (forall k, j' < k -> k <= j -> less (d !!! k) (d !!! a) = false) /\
  (i <= j' -> less (d !!! j') (d !!! a) = true).
Proof.
  induction fuel as [|fuel IH]; intros d a i j Hj Ha Hi Hfuel;
    cbn [GoSort.scan_not_less].
  { repeat split; try lia. }
  destruct (i <=? j) eqn:Hij; cbn [andb].
  2: { apply Nat.leb_gt in Hij. repeat split; try lia. }
  apply Nat.leb_le in Hij. rewrite Less_total by lia.
  destruct (less (d !!! j) (d !!! a)) eqn:Hl; cbn [negb].
  - repeat split; try lia. intros _. exact Hl.
  - destruct (IH d a i (j - 1) ltac:(lia) Ha Hi ltac:(lia)) as (H1 & H2 & H3 & H4).
    repeat split; try lia.
    + intros k Hk1 Hk2. destruct (decide (k = j)) as [->|]; [exact Hl|].
      apply H3; lia.
    + exact H4.
Qed.

Lemma partition_loop_spec b fuel : forall (d : list A) a i j,
  a + 1 <= i -> i <= j + 1 -> j < b -> b <= length d -> j + 1 < i + fuel ->
  (forall k, a < k -> k < i -> less (d !!! k) (d !!! a) = true) ->
  (forall k, j < k -> k < b -> less (d !!! k) (d !!! a) = false) ->
  let r := fst (GoSort.partition_loop less fuel d a i j) in
  let m := snd (GoSort.partition_loop less fuel d a i j) in
  a <= m /\ m < b /\ same_outside (a + 1) b d r /\
  (forall k, a < k -> k <= m -> less (r !!! k) (r !!! a) = true) /\
  (forall k, m < k -> k < b -> less (r !!! k) (r !!! a) = false).
Proof.
  induction fuel as [|fuel IH]; intros d a i j Hai Hij Hjb Hb Hfuel Hl Hr;
    [lia|].
  cbn [GoSort.partition_loop]. cbv zeta.
  destruct (scan_less_spec (S j) d a i j) as (S1 & S2 & S3 & S4); try lia.
  set (i' := GoSort.scan_less less (S j) d a i j) in *.
  destruct (scan_not_less_spec (S j) d a i' j) as (T1 & T2 & T3 & T4); try lia.
  set (j' := GoSort.scan_not_less less (S j) d a i' j) in *.
  destruct (j' <? i') eqn:Hcmp.
  - apply Nat.ltb_lt in Hcmp. cbn [fst snd].
    split; [lia|]. split; [lia|]. split; [apply same_outside_refl|]. split.
    + intros k Hk1 Hk2. destruct (decide (k < i)); [apply Hl; lia|apply S3; lia].
    + intros k Hk1 Hk2. destruct (decide (k <= j)); [apply T3; lia|apply Hr; lia].
  - apply Nat.ltb_ge in Hcmp.
    assert (less (d !!! i') (d !!! a) = false) as Hi' by (apply S4; lia).
    assert (less (d !!! j') (d !!! a) = true) as Hj' by (apply T4; lia).
    assert (i' < j') as Hlt.
    { destruct (decide (i' = j')) as [E|]; [|lia]. rewrite E in Hi'. congruence. }
    destruct (IH (GoSort.Swap d i' j') a (i' + 1) (j' - 1)) as (R1 & R2 & R3 & R4 & R5);
      try lia.
    + rewrite Swap_length. lia.
    + intros k Hk1 Hk2. rewrite !Swap_total by lia.
      repeat case_decide; try lia; try assumption.
      destruct (decide (k < i)); [apply Hl; lia|apply S3; lia].
    + intros k Hk1 Hk2. rewrite !Swap_total by lia.
      repeat case_decide; try lia; try assumption.
      destruct (decide (k <= j)); [apply T3; lia|apply Hr; lia].
    + split; [lia|]. split; [lia|]. split; [|split; assumption].
      eapply same_outside_trans; [|exact R3].
      apply Swap_same_outside; lia.
Qed.

Lemma partition_func_loop (d : list A) a b pivot :
  fst (GoSort.partition_func less d a b pivot) =
  (GoSort.Swap (fst (GoSort.partition_loop less (S (b - a))
                       (GoSort.Swap d a pivot) a (a + 1) (b - 1)))
               (snd (GoSort.partition_loop less (S (b - a))
                       (GoSort.Swap d a pivot) a (a + 1) (b - 1))) a,
   snd (GoSort.partition_loop less (S (b - a))
          (GoSort.Swap d a pivot) a (a + 1) (b - 1))).
Proof.
  unfold GoSort.partition_func. cbn [GoSort.partition_loop]. cbv zeta.
  destruct (_ <? _); [reflexivity|].
  destruct (GoSort.partition_loop less (b - a) _ a _ _) as [d2 m]. reflexivity.
Qed.

(** [partition_func]: the pivot lands at [mid], with the smaller elements
    before it and no smaller element after it. *)
Lemma partition_func_spec (d : list A) a b pivot :
  a <= pivot -> pivot < b -> b <= length d ->
  let r := fst (fst (GoSort.partition_func less d a b pivot)) in
  let m := snd (fst (GoSort.partition_func less d a b pivot)) in
  a <= m /\ m < b /\ same_outside a b d r /\
  (forall k, a <= k -> k < m -> less (r !!! k) (r !!! m) = true) /\
  (forall k, m < k -> k < b -> less (r !!! k) (r !!! m) = false).
Proof.
  intros Hap Hpb Hb. rewrite partition_func_loop. cbn [fst snd].
  pose proof (Swap_same_outside a b d a pivot ltac:(lia) ltac:(lia) Hap Hpb Hb)
    as Ho0.
  set (d0 := GoSort.Swap d a pivot) in *.
  assert (length d0 = length d) as Hl0 by apply Swap_length.
  destruct (partition_loop_spec b (S (b - a)) d0 a (a + 1) (b - 1))
    as (R1 & R2 & R3 & R4 & R5); try lia.
  set (d2 := fst (GoSort.partition_loop less (S (b - a)) d0 a (a + 1) (b - 1))) in *.
  set (m := snd (GoSort.partition_loop less (S (b - a)) d0 a (a + 1) (b - 1))) in *.
  pose proof R3 as [Hl2 _].
  split; [lia|]. split; [lia|]. split; [|split].
  - eapply same_outside_trans; [exact Ho0|].
    eapply same_outside_trans.
    + eapply same_outside_wider; [| |exact R3]; lia.
    + apply Swap_same_outside; lia.
  - intros k Hk1 Hk2. rewrite !Swap_total by lia.
    repeat case_decide; try lia; apply R4; lia.
  - intros k Hk1 Hk2. rewrite !Swap_total by lia.
    repeat case_decide; try lia; apply R5; lia.
Qed.

End partitioning.

(** *** [partitionEqual_func], and the steps that only move elements *)

Section partitioning_equal.
Context {A : Type} `{!Inhabited A} (less : A -> A -> bool).

Lemma scan_not_greater_spec fuel : forall (d : list A) a i j,
  j < length d -> a < length d -> j < i + fuel ->
  let i' := GoSort.scan_not_greater less fuel d a i j in
  i <= i' /\ i' <= Nat.max i (S j) /\
  (forall k, i <= k -> k < i' -> less (d !!! a) (d !!! k) = false) /\
  (i' <= j -> less (d !!! a) (d !!! i') = true).
Proof.
  induction fuel as [|fuel IH]; intros d a i j Hj Ha Hfuel;
    cbn [GoSort.scan_not_greater].
  { repeat split; try lia. }
  destruct (i <=? j) eqn:Hij; cbn [andb].
  2: { apply Nat.leb_gt in Hij. repeat split; try lia. }
  apply Nat.leb_le in Hij. rewrite Less_total by lia.
  destruct (less (d !!! a) (d !!! i)) eqn:Hl; cbn [negb].
  - repeat split; try lia. intros _. exact Hl.
  - destruct (IH d a (i + 1) j Hj Ha ltac:(lia)) as (H1 & H2 & H3 & H4).
    repeat split; try lia.
    + intros k Hk1 Hk2. destruct (decide (k = i)) as [->|]; [exact Hl|].
      apply H3; lia.
    + exact H4.
Qed.

Lemma scan_greater_spec fuel : forall (d : list A) a i j,
  j < length d -> a < length d -> 1 <= i -> j < i + fuel ->
  let j' := GoSort.scan_greater less fuel d a i j in
  j' <= j /\ Nat.min i (S j) <= S j' /\
  (forall k, j' < k -> k <= j -> less (d !!! a) (d !!! k) = true) /\
  (i <= j' -> less (d !!! a) (d !!! j') = false).
Proof.
  induction fuel as [|fuel IH]; intros d a i j Hj Ha Hi Hfuel;
    cbn [GoSort.scan_greater].
  { repeat split; try lia. }
  destruct (i <=? j) eqn:Hij; cbn [andb].
  2: { apply Nat.leb_gt in Hij. repeat split; try lia. }
  apply Nat.leb_le in Hij. rewrite Less_total by lia.
  destruct (less (d !!! a) (d !!! j)) eqn:Hl.
  - destruct (IH d a i (j - 1) ltac:(lia) Ha Hi ltac:(lia)) as (H1 & H2 & H3 & H4).
    repeat split; try lia.
    + intros k Hk1 Hk2. destruct (decide (k = j)) as [->|]; [exact Hl|].
      apply H3; lia.
    + exact H4.
  - repeat split; try lia. intros _. exact Hl.
Qed.

Lemma partitionEqual_loop_spec b fuel : forall (d : list A) a i j,
  a + 1 <= i -> i <= j + 1 -> j < b -> b <= length d -> j + 1 < i + fuel ->
  (forall k, a < k -> k < i -> less (d !!! a) (d !!! k) = false) ->
  (forall k, j < k -> k < b -> less (d !!! a) (d !!! k) = true) ->
  let r := fst (GoSort.partitionEqual_loop less fuel d a i j) in
  let m := snd (GoSort.partitionEqual_loop less fuel d a i j) in
  a + 1 <= m /\ m <= b /\ same_outside (a + 1) b d r /\
  (forall k, a < k -> k < m -> less (r !!! a) (r !!! k) = false) /\
  (forall k, m <= k -> k < b -> less (r !!! a) (r !!! k) = true).
Proof.
  induction fuel as [|fuel IH]; intros d a i j Hai Hij Hjb Hb Hfuel Hl Hr;
    [lia|].
  cbn [GoSort.partitionEqual_loop]. cbv zeta.
  destruct (scan_not_greater_spec (S j) d a i j) as (S1 & S2 & S3 & S4); try lia.
  set (i' := GoSort.scan_not_greater less (S j) d a i j) in *.
  destruct (scan_greater_spec (S j) d a i' j) as (T1 & T2 & T3 & T4); try lia.
  set (j' := GoSort.scan_greater less (S j) d a i' j) in *.
  destruct (j' <? i') eqn:Hcmp.
  - apply Nat.ltb_lt in Hcmp. cbn [fst snd].
    split; [lia|]. split; [lia|]. split; [apply same_outside_refl|]. split.
    + intros k Hk1 Hk2. destruct (decide (k < i)); [apply Hl; lia|apply S3; lia].
    + intros k Hk1 Hk2. destruct (decide (k <= j)); [apply T3; lia|apply Hr; lia].
  - apply Nat.ltb_ge in Hcmp.
    assert (less (d !!! a) (d !!! i') = true) as Hi' by (apply S4; lia).
    assert (less (d !!! a) (d !!! j') = false) as Hj' by (apply T4; lia).
    assert (i' < j') as Hlt.
    { destruct (decide (i' = j')) as [E|]; [|lia]. rewrite E in Hi'. congruence. }
    destruct (IH (GoSort.Swap d i' j') a (i' + 1) (j' - 1))
      as (R1 & R2 & R3 & R4 & R5); try lia.
    + rewrite Swap_length. lia.
    + intros k Hk1 Hk2. rewrite !Swap_total by lia.
      repeat case_decide; try lia; try assumption.
      destruct (decide (k < i)); [apply Hl; lia|apply S3; lia].
    + intros k Hk1 Hk2. rewrite !Swap_total by lia.
      repeat case_decide; try lia; try assumption.
      destruct (decide (k <= j)); [apply T3; lia|apply Hr; lia].
    + split; [lia|]. split; [lia|]. split; [|split; assumption].
      eapply same_outside_trans; [|exact R3].
      apply Swap_same_outside; lia.
Qed.

(** [partitionEqual_func]: the elements not above the pivot come first,
    the pivot itself at [a]; those above it follow from [mid] on. *)
Lemma partitionEqual_func_spec (d : list A) a b pivot :
  a <= pivot -> pivot < b -> b <= length d ->
  let r := fst (GoSort.partitionEqual_func less d a b pivot) in
  let m := snd (GoSort.partitionEqual_func less d a b pivot) in
  a + 1 <= m /\ m <= b /\ same_outside a b d r /\
  r !!! a = d !!! pivot /\
  (forall k, a <= k -> k < m -> less (d !!! pivot) (r !!! k) = false \/ k = a) /\
  (forall k, m <= k -> k < b -> less (d !!! pivot) (r !!! k) = true).
Proof.
  intros Hap Hpb Hb. unfold GoSort.partitionEqual_func.
  pose proof (Swap_same_outside a b d a pivot ltac:(lia) ltac:(lia) Hap Hpb Hb)
    as Ho0.
  assert (GoSort.Swap d a pivot !!! a = d !!! pivot) as Hpa.
  { rewrite Swap_total by lia. case_decide; [reflexivity|lia]. }
  set (d0 := GoSort.Swap d a pivot) in *.
  assert (length d0 = length d) as Hl0 by apply Swap_length.
  destruct (partitionEqual_loop_spec b (S (b - a)) d0 a (a + 1) (b - 1))
    as (R1 & R2 & R3 & R4 & R5); try lia.
  set (r := fst (GoSort.partitionEqual_loop less (S (b - a)) d0 a (a + 1) (b - 1))) in *.
  set (m := snd (GoSort.partitionEqual_loop less (S (b - a)) d0 a (a + 1) (b - 1))) in *.
  assert (r !!! a = d !!! pivot) as Hra.
  { destruct R3 as [_ R3]. rewrite R3 by lia. exact Hpa. }
  rewrite Hra in R4, R5.
  split; [lia|]. split; [lia|]. split; [|split; [exact Hra|split]].
  - eapply same_outside_trans; [exact Ho0|].
    eapply same_outside_wider; [| |exact R3]; lia.
  - intros k Hk1 Hk2. destruct (decide (k = a)); [right; assumption|left].
    apply R4; lia.
  - exact R5.
Qed.

End partitioning_equal.

Section frames.
Context {A : Type} `{!Inhabited A} (less : A -> A -> bool).

Lemma reverseRange_func_outside (d : list A) a b :
  b <= length d -> same_outside a b d (GoSort.reverseRange_func d a b).
Proof.
  intros Hb. unfold GoSort.reverseRange_func.
  assert (forall fuel (d : list A) i j, a <= i -> j < b \/ j <= i -> b <= length d ->
            same_outside a b d (GoSort.reverseRange_loop fuel d i j)) as H.
  { induction fuel as [|fuel IH]; intros d0 i j Hi Hj Hb0; simpl;
      [apply same_outside_refl|].
    destruct (i <? j) eqn:Hij; [|apply same_outside_refl].
    apply Nat.ltb_lt in Hij.
    eapply same_outside_trans; [apply (Swap_same_outside a b d0 i j); lia|].
    apply IH; [lia|lia|rewrite Swap_length; lia]. }
  destruct (decide (a < b)).
  - apply H; lia.
  - replace (b - a) with 0 by lia. simpl. apply same_outside_refl.
Qed.

Lemma nextPowerOfTwo_bound (l : nat) :
  0 < l -> (Z.of_nat l < GoSort.nextPowerOfTwo l <= 2 * Z.of_nat l)%Z.
Proof.
  intros Hl. unfold GoSort.nextPowerOfTwo, GoSort.bits_Len.
  destruct l as [|l]; [lia|].
  pose proof (Z.log2_spec (Z.of_nat (S l)) ltac:(lia)) as [H1 H2].
  pose proof (Z.log2_nonneg (Z.of_nat (S l))) as H0.
  rewrite Z2Nat.id by lia.
  rewrite Z.pow_succ_r in H2 by lia.
  replace (Z.log2 (Z.of_nat (S l)) + 1)%Z with (Z.succ (Z.log2 (Z.of_nat (S l))))
    by lia.
  rewrite Z.pow_succ_r by lia. lia.
Qed.

Lemma breakPatterns_func_outside (d : list A) a b :
  b <= length d -> same_outside a b d (GoSort.breakPatterns_func d a b).
Proof.
  intros Hb. unfold GoSort.breakPatterns_func. cbv zeta.
  destruct (8 <=? b - a) eqn:Hl; [|apply same_outside_refl].
  apply Nat.leb_le in Hl.
  pose proof (nextPowerOfTwo_bound (b - a) ltac:(lia)) as [Hp1 Hp2].
  generalize (Z.of_nat (b - a)). intros random.
  assert (forall (l : list nat) (d : list A) random,
            Forall (fun i => i < 3) l -> b <= length d ->
            same_outside a b d
              (snd (fold_left
                 (fun '(random, d0) i =>
                    let random0 := GoSort.xorshift_Next random in
                    let other :=
                      Z.to_nat (Z.land random0 (GoSort.nextPowerOfTwo (b - a) - 1)) in
                    let other0 :=
                      if b - a <=? other then other - (b - a) else other in
                    (random0, GoSort.Swap d0 (a + (b - a) / 4 * 2 - 1 - 1 + i)
                                (a + other0)))
                 l (random, d)))) as H.
  { induction l as [|i l IH]; intros d0 rnd Hall Hb0; cbn [fold_left snd];
      [apply same_outside_refl|].
    apply Forall_cons in Hall as [Hi Hall].
    set (rnd' := GoSort.xorshift_Next rnd).
    set (other := Z.to_nat (Z.land rnd' (GoSort.nextPowerOfTwo (b - a) - 1))).
    assert (other < 2 * (b - a)) as Hother.
    { subst other.
      assert (0 <= Z.land rnd' (GoSort.nextPowerOfTwo (b - a) - 1)
              < GoSort.nextPowerOfTwo (b - a))%Z as Hland.
      { unfold GoSort.nextPowerOfTwo in *.
        replace (2 ^ Z.of_nat (GoSort.bits_Len (b - a)) - 1)%Z
          with (Z.ones (Z.of_nat (GoSort.bits_Len (b - a))))
          by (rewrite Z.ones_equiv; lia).
        rewrite Z.land_ones by lia.
        apply Z.mod_pos_bound. lia. }
      lia. }
    set (other0 := if b - a <=? other then other - (b - a) else other).
    assert (other0 < b - a) as Hother0.
    { subst other0. destruct (b - a <=? other) eqn:E;
        [apply Nat.leb_le in E|apply Nat.leb_gt in E]; lia. }
    assert ((b - a) / 4 * 2 <= (b - a) / 2) as Hdiv.
    { pose proof (Nat.div_mod_eq (b - a) 4). pose proof (Nat.div_mod_eq (b - a) 2).
      pose proof (Nat.mod_upper_bound (b - a) 4). pose proof (Nat.mod_upper_bound (b - a) 2).
      lia. }
    assert (4 <= (b - a) / 4 * 2) as Hdiv2.
    { pose proof (Nat.div_mod_eq (b - a) 4).
      pose proof (Nat.mod_upper_bound (b - a) 4). lia. }
    assert ((b - a) / 2 < b - a) as Hhalf.
    { pose proof (Nat.div_mod_eq (b - a) 2).
      pose proof (Nat.mod_upper_bound (b - a) 2). lia. }
    eapply same_outside_trans; [|apply IH; [exact Hall|rewrite Swap_length; exact Hb0]].
    apply Swap_same_outside; lia. }
  apply H; [|exact Hb].
  repeat constructor.
Qed.

Lemma median_func_choice (d : list A) x y z s :
  let m := fst (GoSort.median_func less d x y z s) in m = x \/ m = y \/ m = z.
Proof.
  unfold GoSort.median_func, GoSort.order2_func.
  repeat match goal with
         | |- context [if ?c then _ else _] => destruct c
         end; cbn [fst]; auto.
Qed.

(** The pivot is chosen inside the range. *)
Lemma choosePivot_func_range (d : list A) a b :
  a < b ->
  a <= fst (GoSort.choosePivot_func less d a b) /\
  fst (GoSort.choosePivot_func less d a b) < b.
Proof.
  intros Hab. unfold GoSort.choosePivot_func. cbv zeta.
  pose proof (Nat.div_mod_eq (b - a) 4) as Hdm.
  pose proof (Nat.mod_upper_bound (b - a) 4 ltac:(lia)) as Hmod.
  set (q := (b - a) / 4) in *.
  match goal with
  | |- context [fst (let '(j, swaps) := ?X in _)] =>
      assert (a <= fst X /\ fst X < b) as Hj; [|destruct X as [j swaps]]
  end.
  2: { cbn [fst] in Hj.
       destruct (swaps =? 0); [exact Hj|].
       destruct (swaps =? GoSort.maxSwaps); exact Hj. }
  destruct (8 <=? b - a) eqn:H8; [|cbn [fst]; lia].
  apply Nat.leb_le in H8.
  destruct (GoSort.shortestNinther <=? b - a) eqn:H50.
  - apply Nat.leb_le in H50. unfold GoSort.shortestNinther in H50.
    unfold GoSort.medianAdjacent_func.
    pose proof (median_func_choice d (a + q * 1 - 1) (a + q * 1) (a + q * 1 + 1) 0)
      as Hi.
    destruct (GoSort.median_func less d (a + q * 1 - 1) (a + q * 1) (a + q * 1 + 1) 0)
      as [i s1]. cbn [fst] in Hi.
    pose proof (median_func_choice d (a + q * 2 - 1) (a + q * 2) (a + q * 2 + 1) s1)
      as Hj.
    destruct (GoSort.median_func less d (a + q * 2 - 1) (a + q * 2) (a + q * 2 + 1) s1)
      as [j s2]. cbn [fst] in Hj.
    pose proof (median_func_choice d (a + q * 3 - 1) (a + q * 3) (a + q * 3 + 1) s2)
      as Hk.
    destruct (GoSort.median_func less d (a + q * 3 - 1) (a + q * 3) (a + q * 3 + 1) s2)
      as [k s3]. cbn [fst] in Hk.
    pose proof (median_func_choice d i j k s3) as Hm. cbv zeta in Hm. lia.
  - pose proof (median_func_choice d (a + q * 1) (a + q * 2) (a + q * 3) 0) as Hm.
    cbv zeta in Hm. lia.
Qed.

End frames.

(** *** [partialInsertionSort_func] *)

Section partial_insertion.
Context {A : Type} `{!Inhabited A} (less : A -> A -> bool).
Hypothesis Hswo : strict_weak_order less.

Lemma ordered_run_spec fuel : forall (d : list A) i b,
  1 <= i -> b <= length d -> b <= i + fuel ->
  let i' := GoSort.ordered_run less fuel d i b in
  i <= i' /\ i' <= Nat.max i b /\
  (forall k, i <= k -> k < i' -> less (d !!! k) (d !!! (k - 1)) = false) /\
  (i' < b -> less (d !!! i') (d !!! (i' - 1)) = true).
Proof.
  induction fuel as [|fuel IH]; intros d i b Hi Hb Hfuel;
    cbn [GoSort.ordered_run].
  { repeat split; try lia. }
  destruct (i <? b) eqn:Hib; cbn [andb].
  2: { apply Nat.ltb_ge in Hib. repeat split; try lia. }
  apply Nat.ltb_lt in Hib. rewrite Less_total by lia.
  destruct (less (d !!! i) (d !!! (i - 1))) eqn:Hl; cbn [negb].
  - repeat split; try lia. intros _. exact Hl.
  - destruct (IH d (i + 1) b ltac:(lia) Hb ltac:(lia)) as (H1 & H2 & H3 & H4).
    repeat split; try lia.
    + intros k Hk1 Hk2. destruct (decide (k = i)) as [->|]; [exact Hl|].
      apply H3; lia.
    + exact H4.
Qed.

Lemma sorted_in_extend a i i' (d : list A) :
  a < i -> sorted_in less a i d ->
  (forall k, i <= k -> k < i' -> less (d !!! k) (d !!! (k - 1)) = false) ->
  sorted_in less a i' d.
Proof.
  intros Hai Hs Hadj p q Hp Hpq Hq. revert p Hp Hpq.
  induction q as [q IHq] using lt_wf_ind. intros p Hp Hpq.
  destruct (decide (q < i)); [apply Hs; lia|].
  pose proof (Hadj q ltac:(lia) Hq) as Hstep.
  destruct (decide (p = q - 1)) as [->|]; [exact Hstep|].
  apply (not_less_trans less Hswo _ (d !!! (q - 1)) _); [|exact Hstep].
  apply IHq; lia.
Qed.

(** [shift_left] runs down to index 1 whatever [a] is; with a floor before
    the range it stops at [a] as [insertion_shift] does. *)
Lemma shift_left_insertion a j : forall (d : list A),
  a <= j -> j < length d ->
  (0 < a -> forall k, a <= k -> k <= j -> less (d !!! k) (d !!! (a - 1)) = false) ->
  GoSort.shift_left less d j = GoSort.insertion_shift less d a j.
Proof.
  induction j as [|j IH]; intros d Haj Hj Hpre; [reflexivity|].
  cbn [GoSort.shift_left GoSort.insertion_shift].
  rewrite Less_total by lia.
  destruct (a <? S j) eqn:Ha; cbn [andb].
  - apply Nat.ltb_lt in Ha.
    destruct (less (d !!! S j) (d !!! j)); [|reflexivity].
    apply IH; [lia|rewrite Swap_length; lia|].
    intros Hpos k Hk1 Hk2. rewrite !Swap_total by lia.
    repeat case_decide; try lia; apply Hpre; lia.
  - apply Nat.ltb_ge in Ha. assert (a = S j) as -> by lia.
    specialize (Hpre ltac:(lia) (S j) ltac:(lia) ltac:(lia)).
    replace (S j - 1) with j in Hpre by lia. rewrite Hpre. reflexivity.
Qed.

Lemma shift_right_outside fuel : forall (d : list A) j b,
  1 <= j -> b <= length d ->
  same_outside (j - 1) b d (GoSort.shift_right less fuel d j b).
Proof.
  induction fuel as [|fuel IH]; intros d j b Hj Hb; cbn [GoSort.shift_right];
    [apply same_outside_refl|].
  destruct (j <? b) eqn:Hjb; cbn [andb]; [|apply same_outside_refl].
  apply Nat.ltb_lt in Hjb.
  destruct (GoSort.Less less d j (j - 1)); [|apply same_outside_refl].
  eapply same_outside_trans.
  - apply (Swap_same_outside (j - 1) b d j (j - 1)); lia.
  - eapply same_outside_wider; [| |apply IH]; try lia.
    rewrite Swap_length. exact Hb.
Qed.

Lemma floor_at_transfer a b (d r : list A) :
  a <= b -> b <= length d -> r ≡ₚ d -> same_outside a b d r ->
  floor_at less a b d -> floor_at less a b r.
Proof.
  intros Hab Hb Hperm Hout Hfl Hpos.
  pose proof Hout as [_ Ho]. rewrite (Ho (a - 1)) by lia.
  apply (all_in_transfer a b (fun x => less x (d !!! (a - 1)) = false) d r);
    try assumption.
  intros k Hk1 Hk2. apply Hfl; assumption.
Qed.

Lemma partialInsertionSort_loop_spec steps : forall (d : list A) a b i,
  a < i -> i <= b -> b <= length d ->
  sorted_in less a i d -> floor_at less a b d ->
  let r := fst (GoSort.partialInsertionSort_loop less steps d a b i) in
  let ok := snd (GoSort.partialInsertionSort_loop less steps d a b i) in
  same_outside a b d r /\ (ok = true -> sorted_in less a b r).
Proof.
  induction steps as [|steps IH]; intros d a b i Hai Hib Hb Hs Hfl;
    cbn [GoSort.partialInsertionSort_loop].
  { cbn [fst snd]. split; [apply same_outside_refl|discriminate]. }
  cbv zeta.
  destruct (ordered_run_spec (b - a) d i b) as (O1 & O2 & O3 & O4); try lia.
  set (i' := GoSort.ordered_run less (b - a) d i b) in *.
  assert (sorted_in less a i' d) as Hs' by (eapply sorted_in_extend; eauto).
  destruct (i' =? b) eqn:Heq.
  { apply Nat.eqb_eq in Heq. cbn [fst snd].
    split; [apply same_outside_refl|]. intros _. rewrite <- Heq. exact Hs'. }
  apply Nat.eqb_neq in Heq.
  destruct (b - a <? GoSort.shortestShifting).
  { cbn [fst snd]. split; [apply same_outside_refl|discriminate]. }
  set (d1 := GoSort.Swap d i' (i' - 1)).
  assert (same_outside a b d d1) as Ho1 by (apply Swap_same_outside; lia).
  assert (d1 ≡ₚ d) as Hp1 by apply Swap_perm.
  assert (length d1 = length d) as Hl1 by apply Swap_length.
  pose proof (floor_at_transfer a b d d1 ltac:(lia) Hb Hp1 Ho1 Hfl) as Hfl1.
  set (d2 := if 2 <=? i' - a then GoSort.shift_left less d1 (i' - 1) else d1).
  assert (sorted_in less a i' d2 /\ same_outside a b d1 d2 /\ d2 ≡ₚ d1)
    as (Hs2 & Ho2 & Hp2).
  { subst d2. destruct (2 <=? i' - a) eqn:H2.
    - apply Nat.leb_le in H2.
      rewrite (shift_left_insertion a (i' - 1) d1) by
        (try lia; intros Hpos k Hk1 Hk2; apply Hfl1; lia).
      assert (sorted_in less a (i' - 1) d1) as Hlow.
      { intros p q Hp Hpq Hq. subst d1. rewrite !Swap_total by lia.
        repeat case_decide; try lia. apply Hs'; lia. }
      assert (sorted_in less (i' - 1) (S (i' - 1)) d1) as Hhigh.
      { intros p q Hp Hpq Hq. lia. }
      destruct (insertion_shift_sorted less Hswo a (i' - 1) d1 (i' - 1)
                  ltac:(lia) ltac:(lia) Hlow Hhigh ltac:(intros; lia))
        as [Hsi Hoi].
      { replace (S (i' - 1)) with i' in * by lia.
        split; [exact Hsi|]. split.
        * eapply same_outside_wider; [| |exact Hoi]; lia.
        * apply insertion_shift_perm. }
    - apply Nat.leb_gt in H2. split; [|split; [apply same_outside_refl|reflexivity]].
      intros p q Hp Hpq Hq. lia. }
  pose proof Ho2 as [Hl2 _].
  set (d3 := if 2 <=? b - i' then GoSort.shift_right less (b - i') d2 (i' + 1) b
             else d2).
  assert (same_outside i' b d2 d3 /\ d3 ≡ₚ d2) as (Ho3 & Hp3).
  { subst d3. destruct (2 <=? b - i').
    - split; [|apply shift_right_perm].
      replace i' with (i' + 1 - 1) at 1 by lia.
      apply shift_right_outside; lia.
    - split; [apply same_outside_refl|reflexivity]. }
  pose proof Ho3 as [Hl3 Hsame3].
  assert (same_outside a b d d3) as Ho.
  { eapply same_outside_trans; [exact Ho1|].
    eapply same_outside_trans; [exact Ho2|].
    eapply same_outside_wider; [| |exact Ho3]; lia. }
  assert (d3 ≡ₚ d) as Hp by (rewrite Hp3, Hp2; exact Hp1).
  destruct (IH d3 a b i') as [Hor Hsr]; try lia.
  - intros p q Hp' Hpq Hq. rewrite !Hsame3 by lia. apply Hs2; lia.
  - apply (floor_at_transfer a b d d3); try assumption. lia.
  - split; [|exact Hsr]. eapply same_outside_trans; [exact Ho|exact Hor].
Qed.

(** [partialInsertionSort_func] stays in its range, and the range is
    ordered when it reports success. *)
Lemma partialInsertionSort_func_spec (d : list A) a b :
  a < b -> b <= length d -> floor_at less a b d ->
  let r := fst (GoSort.partialInsertionSort_func less d a b) in
  let ok := snd (GoSort.partialInsertionSort_func less d a b) in
  same_outside a b d r /\ (ok = true -> sorted_in less a b r).
Proof.
  intros Hab Hb Hfl. unfold GoSort.partialInsertionSort_func.
  apply partialInsertionSort_loop_spec; try lia; try assumption.
  intros p q Hp Hpq Hq. lia.
Qed.

End partial_insertion.

(** *** [heapSort_func] *)

Section heaps.
Context {A : Type} `{!Inhabited A} (less : A -> A -> bool).
Hypothesis Hswo : strict_weak_order less.

Lemma siftDown_loop_perm fuel : forall (d : list A) root hi first,
  GoSort.siftDown_loop less fuel d root hi first ≡ₚ d.
Proof.
  induction fuel as [|fuel IH]; intros d root hi first;
    cbn [GoSort.siftDown_loop]; [reflexivity|].
  cbv zeta. destruct (hi <=? 2 * root + 1); [reflexivity|].
  match goal with |- context [negb ?c] => destruct c end; cbn [negb];
    [|reflexivity].
  rewrite IH. apply Swap_perm.
Qed.

(** [siftDown_func]: with the heap in order everywhere but at [root], it
    is in order everywhere afterwards. *)
Lemma siftDown_loop_spec first hi lo fuel : forall (d : list A) root,
  lo <= root -> hi <= root + fuel -> first + hi <= length d ->
  (forall k c, lo <= k -> k <> root -> is_child c k -> c < hi ->
     less (d !!! (first + k)) (d !!! (first + c)) = false) ->
  (forall g c, lo <= g -> is_child root g -> is_child c root -> c < hi ->
     less (d !!! (first + g)) (d !!! (first + c)) = false) ->
  heap_from less first lo hi (GoSort.siftDown_loop less fuel d root hi first) /\
  same_outside first (first + hi) d
    (GoSort.siftDown_loop less fuel d root hi first).
Proof.
  induction fuel as [|fuel IH]; intros d root Hlo Hfuel Hlen P1 P2;
    cbn [GoSort.siftDown_loop].
  { split; [|apply same_outside_refl]. intros k c Hk Hc Hchi.
    apply P1; try assumption. unfold is_child in Hc. lia. }
  cbv zeta. destruct (hi <=? 2 * root + 1) eqn:Hhi.
  { apply Nat.leb_le in Hhi. split; [|apply same_outside_refl].
    intros k c Hk Hc Hchi.
    apply P1; try assumption. unfold is_child in Hc. lia. }
  apply Nat.leb_gt in Hhi.
  set (c0 := 2 * root + 1) in *.
  set (cs := if (c0 + 1 <? hi) && GoSort.Less less d (first + c0) (first + c0 + 1)
             then c0 + 1 else c0).
  assert (cs < hi /\ is_child cs root /\
          forall c, is_child c root -> c < hi ->
                    less (d !!! (first + cs)) (d !!! (first + c)) = false)
    as (Hcs & Hchild & Hmax).
  { subst cs. destruct (c0 + 1 <? hi) eqn:H1; cbn [andb].
    - apply Nat.ltb_lt in H1. rewrite Less_total by lia.
      destruct (less (d !!! (first + c0)) (d !!! (first + c0 + 1))) eqn:Hl.
      + split; [lia|]. split; [right; lia|].
        intros c Hc Hchi. destruct Hc as [->| ->].
        * replace (first + (c0 + 1)) with (first + c0 + 1) by lia.
          fold c0. apply (swo_asym less Hswo). exact Hl.
        * replace (2 * root + 2) with (c0 + 1) by lia.
          apply (swo_irrefl _ Hswo).
      + split; [lia|]. split; [left; lia|].
        intros c Hc Hchi. destruct Hc as [->| ->].
        * apply (swo_irrefl _ Hswo).
        * replace (first + (2 * root + 2)) with (first + c0 + 1) by lia.
          exact Hl.
    - apply Nat.ltb_ge in H1. split; [lia|]. split; [left; lia|].
      intros c Hc Hchi. destruct Hc as [->| ->]; [|lia].
      apply (swo_irrefl _ Hswo). }
  clearbody cs.
  rewrite Less_total by lia.
  destruct (less (d !!! (first + root)) (d !!! (first + cs))) eqn:Hrc;
    cbn [negb].
  2: { split; [|apply same_outside_refl]. intros k c Hk Hc Hchi.
       destruct (decide (k = root)) as [->|Hne]; [|apply P1; assumption].
       apply (not_less_trans less Hswo _ (d !!! (first + cs)) _);
         [apply Hmax; assumption|exact Hrc]. }
  assert (root < cs) as Hlt by (unfold is_child in Hchild; lia).
  destruct (IH (GoSort.Swap d (first + root) (first + cs)) cs) as [Hheap Hout];
    try lia.
  - rewrite Swap_length. lia.
  - intros k c Hk Hkc Hc Hchi. rewrite !Swap_total by lia.
    assert (k < c) by (unfold is_child in Hc; lia).
    destruct (decide (k = root)) as [->|Hkr].
    + repeat case_decide; try lia.
      * apply (swo_asym less Hswo). exact Hrc.
      * apply Hmax; assumption.
    + repeat case_decide; try lia.
      * apply P2; try assumption. replace root with c by lia. exact Hc.
      * exfalso. assert (c = cs) as -> by lia.
        unfold is_child in Hc, Hchild. lia.
      * apply P1; assumption.
  - intros g c Hg Hgc Hc Hchi. rewrite !Swap_total by lia.
    assert (g = root) as -> by (unfold is_child in Hgc, Hchild; lia).
    assert (cs < c) by (unfold is_child in Hc; lia).
    repeat case_decide; try lia.
    apply P1; try assumption; lia.
  - split; [exact Hheap|].
    eapply same_outside_trans; [|exact Hout].
    apply Swap_same_outside; lia.
Qed.

(** Nothing in a heap is above its root. *)
Lemma heap_root_max first m (d : list A) :
  heap_from less first 0 m d ->
  forall p, p < m -> less (d !!! first) (d !!! (first + p)) = false.
Proof.
  intros Hheap p. induction p as [p IHp] using lt_wf_ind. intros Hp.
  destruct (decide (p = 0)) as [->|Hp0].
  { rewrite Nat.add_0_r. apply (swo_irrefl _ Hswo). }
  assert (exists g, is_child p g) as [g Hg].
  { exists ((p - 1) / 2). unfold is_child.
    pose proof (Nat.div_mod_eq (p - 1) 2) as Hdm.
    pose proof (Nat.mod_upper_bound (p - 1) 2 ltac:(lia)). lia. }
  assert (g < p) by (unfold is_child in Hg; lia).
  apply (not_less_trans less Hswo _ (d !!! (first + g)) _).
  - apply Hheap; [lia|exact Hg|exact Hp].
  - apply IHp; lia.
Qed.

Lemma rev_seq_S n : rev (seq 0 (S n)) = n :: rev (seq 0 n).
Proof. rewrite seq_S, rev_app_distr. reflexivity. Qed.

Lemma heapify_spec first hi n : forall (d : list A),
  first + hi <= length d -> heap_from less first n hi d ->
  let r := fold_left (fun d i => GoSort.siftDown_func less d i hi first)
                     (rev (seq 0 n)) d in
  heap_from less first 0 hi r /\ same_outside first (first + hi) d r.
Proof.
  induction n as [|n IH]; intros d Hlen Hheap.
  { cbn. split; [exact Hheap|apply same_outside_refl]. }
  cbv zeta. rewrite rev_seq_S. cbn [fold_left].
  change (GoSort.siftDown_func less d n hi first)
    with (GoSort.siftDown_loop less hi d n hi first).
  destruct (siftDown_loop_spec first hi n hi d n) as [Hh Ho]; try lia.
  - intros k c Hk Hkn Hc Hchi. apply Hheap; try assumption. lia.
  - intros g c Hg Hng. unfold is_child in Hng. lia.
  - destruct (IH (GoSort.siftDown_loop less hi d n hi first)) as [Hh' Ho'].
    + destruct Ho as [-> _]. exact Hlen.
    + exact Hh.
    + split; [exact Hh'|]. eapply same_outside_trans; [exact Ho|exact Ho'].
Qed.

Lemma popping_spec first hi n : forall (d : list A),
  n <= hi -> first + hi <= length d ->
  heap_from less first 0 n d ->
  sorted_in less (first + n) (first + hi) d ->
  (forall p q, p < n -> n <= q -> q < hi ->
     less (d !!! (first + q)) (d !!! (first + p)) = false) ->
  let r := fold_left
             (fun d i => GoSort.siftDown_func less
                           (GoSort.Swap d first (first + i)) 0 i first)
             (rev (seq 0 n)) d in
  sorted_in less first (first + hi) r /\ same_outside first (first + hi) d r.
Proof.
  induction n as [|n IH]; intros d Hn Hlen Hheap Hsorted Hcross.
  { cbn. rewrite Nat.add_0_r in Hsorted.
    split; [exact Hsorted|apply same_outside_refl]. }
  cbv zeta. rewrite rev_seq_S. cbn [fold_left].
  set (d1 := GoSort.Swap d first (first + n)).
  assert (length d1 = length d) as Hl1 by apply Swap_length.
  assert (d1 !!! (first + n) = d !!! (first + 0)) as E1.
  { subst d1. rewrite Swap_total by lia. rewrite Nat.add_0_r.
    repeat case_decide; try lia; try reflexivity. congruence. }
  assert (forall k, k <> first -> k <> first + n -> d1 !!! k = d !!! k) as E2.
  { intros k Hk1 Hk2. subst d1. rewrite Swap_total by lia.
    repeat case_decide; try lia; reflexivity. }
  assert (d1 !!! first = d !!! (first + n)) as E3.
  { subst d1. rewrite Swap_total by lia.
    repeat case_decide; try lia; reflexivity. }
  pose proof (heap_root_max first (S n) d Hheap) as Hmax.
  unfold GoSort.siftDown_func.
  destruct (siftDown_loop_spec first n 0 n d1 0) as [Hh Ho]; try lia.
  { intros k c _ Hk Hc Hchi.
    assert (k < c) by (unfold is_child in Hc; lia).
    rewrite !E2 by lia. apply Hheap; [lia|exact Hc|lia]. }
  { intros g c _ Hg. unfold is_child in Hg. lia. }
  set (d2 := GoSort.siftDown_loop less n d1 0 n first) in *.
  assert (d2 ≡ₚ d1) as Hp2 by apply siftDown_loop_perm.
  pose proof Ho as [Hl2 Hsame].
  destruct (IH d2) as [Hs' Ho']; try lia.
  - exact Hh.
  - intros x y Hx Hxy Hy. rewrite !Hsame by lia.
    destruct (decide (x = first + n)) as [->|Hxn].
    + rewrite E1, E2 by lia.
      replace y with (first + (y - first)) by lia. apply Hcross; lia.
    + rewrite !E2 by lia. apply Hsorted; lia.
  - intros p q Hpn Hnq Hq.
    rewrite (Hsame (first + q)) by lia.
    apply (all_in_transfer first (first + n)
             (fun x => less (d1 !!! (first + q)) x = false) d1 d2); try lia;
      try assumption.
    intros k Hk1 Hk2.
    destruct (decide (q = n)) as [->|Hqn];
      destruct (decide (k = first)) as [->|Hkf].
    + rewrite E1, E3, Nat.add_0_r. apply Hmax. lia.
    + rewrite E1, E2, Nat.add_0_r by lia.
      replace k with (first + (k - first)) by lia. apply Hmax. lia.
    + rewrite E3, E2 by lia. apply Hcross; lia.
    + rewrite !E2 by lia.
      replace k with (first + (k - first)) by lia. apply Hcross; lia.
  - split; [exact Hs'|].
    eapply same_outside_trans; [|exact Ho'].
    eapply same_outside_trans.
    + apply (Swap_same_outside first (first + hi) d first (first + n)); lia.
    + eapply same_outside_wider; [| |exact Ho]; lia.
Qed.

(** [heapSort_func] orders [a, b) and touches nothing else. *)
Lemma heapSort_func_spec (d : list A) a b :
  a <= b -> b <= length d ->
  sorted_in less a b (GoSort.heapSort_func less d a b) /\
  same_outside a b d (GoSort.heapSort_func less d a b).
Proof.
  intros Hab Hb. unfold GoSort.heapSort_func. cbv zeta.
  set (hi := b - a).
  destruct (heapify_spec a hi ((hi - 1) / 2 + 1) d) as [Hh Ho]; [lia| |].
  { intros k c Hk Hc Hchi. exfalso. unfold is_child in Hc.
    pose proof (Nat.div_mod_eq (hi - 1) 2) as Hdm.
    pose proof (Nat.mod_upper_bound (hi - 1) 2 ltac:(lia)). lia. }
  set (d1 := fold_left _ _ d) in *.
  pose proof Ho as [Hl1 _].
  destruct (popping_spec a hi hi d1 ltac:(lia) ltac:(lia) Hh
              ltac:(intros x y; lia) ltac:(intros; lia)) as [Hs Ho2].
  replace (a + hi) with b in * by lia. split; [exact Hs|].
  eapply same_outside_trans; [exact Ho|exact Ho2].
Qed.

End heaps.

(** *** [pdqsort_func] and [Slice] *)

Section quicksort.
Context {A : Type} `{!Inhabited A} (less : A -> A -> bool).
Hypothesis Hswo : strict_weak_order less.

(** Two ordered sides around a pivot make an ordered range. *)
Lemma sorted_around a m b (r : list A) :
  a <= m -> m < b ->
  sorted_in less a m r -> sorted_in less (m + 1) b r ->
  (forall k, a <= k -> k < m -> less (r !!! k) (r !!! m) = true) ->
  (forall k, m < k -> k < b -> less (r !!! k) (r !!! m) = false) ->
  sorted_in less a b r.
Proof.
  intros Ham Hmb Hl Hr Hlow Hhigh p q Hp Hpq Hq.
  destruct (decide (q < m)); [apply Hl; lia|].
  destruct (decide (m < p)); [apply Hr; lia|].
  destruct (decide (q = m)) as [->|].
  { apply (swo_asym less Hswo). apply Hlow; lia. }
  destruct (decide (p = m)) as [->|]; [apply Hhigh; lia|].
  destruct (less (r !!! q) (r !!! p)) eqn:Hqp; [|reflexivity].
  rewrite <- (Hhigh q ltac:(lia) ltac:(lia)).
  symmetry. apply (swo_trans _ Hswo _ (r !!! p)); [exact Hqp|].
  apply Hlow; lia.
Qed.

Lemma floor_at_narrow a b b' (d : list A) :
  b' <= b -> floor_at less a b d -> floor_at less a b' d.
Proof. intros Hb Hfl Hpos k Hk1 Hk2. apply Hfl; lia. Qed.

(** [pdqsort_func], with fuel for its range, orders [a, b) and touches
    nothing else. *)
Lemma pdqsort_func_spec fuel : forall (d : list A) a b limit wb wp,
  b - a < fuel -> a <= b -> b <= length d -> floor_at less a b d ->
  sorted_in less a b (GoSort.pdqsort_func less fuel d a b limit wb wp) /\
  same_outside a b d (GoSort.pdqsort_func less fuel d a b limit wb wp).
Proof.
  induction fuel as [|fuel IH]; intros d a b limit wb wp Hfuel Hab Hb Hfl;
    [lia|].
  cbn [GoSort.pdqsort_func]. cbv zeta.
  destruct (b - a <=? GoSort.maxInsertion) eqn:Hshort.
  { apply insertionSort_func_sorted; assumption. }
  apply Nat.leb_gt in Hshort. unfold GoSort.maxInsertion in Hshort.
  destruct (limit =? 0).
  { apply heapSort_func_spec; assumption. }
  (* breakPatterns *)
  set (broken := if negb wb
                 then (GoSort.breakPatterns_func d a b, limit - 1)
                 else (d, limit)).
  assert (fst broken ≡ₚ d /\ same_outside a b d (fst broken)) as [Hp1 Ho1].
  { subst broken. destruct (negb wb); cbn [fst].
    - split; [apply breakPatterns_func_perm|
              apply breakPatterns_func_outside; exact Hb].
    - split; [reflexivity|apply same_outside_refl]. }
  destruct broken as [d1 limit1]. cbn [fst] in Hp1, Ho1.
  (* choosePivot *)
  pose proof (choosePivot_func_range less d1 a b ltac:(lia)) as Hpiv.
  destruct (GoSort.choosePivot_func less d1 a b) as [pivot hint].
  cbn [fst] in Hpiv.
  set (turned := match hint with
                 | GoSort.decreasingHint =>
                     (GoSort.reverseRange_func d1 a b,
                      b - 1 - (pivot - a), GoSort.increasingHint)
                 | _ => (d1, pivot, hint)
                 end).
  assert (fst (fst turned) ≡ₚ d /\ same_outside a b d (fst (fst turned)) /\
          a <= snd (fst turned) /\ snd (fst turned) < b)
    as (Hp2 & Ho2 & Hpiv2a & Hpiv2b).
  { pose proof Ho1 as [Hl1 _].
    subst turned. destruct hint; cbn [fst snd];
      try (split; [exact Hp1|split; [exact Ho1|lia]]).
    split; [rewrite reverseRange_func_perm; exact Hp1|].
    split; [|lia].
    eapply same_outside_trans; [exact Ho1|].
    apply reverseRange_func_outside. lia. }
  destruct turned as [[d2 pivot2] hint2]. cbn [fst snd] in Hp2, Ho2, Hpiv2a, Hpiv2b.
  pose proof Ho2 as [Hl2 _].
  assert (floor_at less a b d2) as Hfl2
    by (apply (floor_at_transfer less a b d d2); assumption).
  (* partialInsertionSort *)
  set (tried := match hint2 with
                | GoSort.increasingHint =>
                    if wb && wp
                    then GoSort.partialInsertionSort_func less d2 a b
                    else (d2, false)
                | _ => (d2, false)
                end).
  assert (fst tried ≡ₚ d /\ same_outside a b d (fst tried) /\
          (snd tried = true -> sorted_in less a b (fst tried)))
    as (Hp3 & Ho3 & Hdone).
  { assert (fst (d2, false) ≡ₚ d /\ same_outside a b d (fst (d2, false)) /\
            (snd (d2, false) = true -> sorted_in less a b (fst (d2, false))))
      as Hskip by (cbn [fst snd]; split; [exact Hp2|split; [exact Ho2|discriminate]]).
    subst tried. destruct hint2; try exact Hskip.
    destruct (wb && wp); [|exact Hskip].
    destruct (partialInsertionSort_func_spec less Hswo d2 a b) as [Hop Hsp];
      [lia|lia|exact Hfl2|].
    split; [rewrite partialInsertionSort_func_perm; exact Hp2|].
    split; [|exact Hsp].
    eapply same_outside_trans; [exact Ho2|exact Hop]. }
  destruct tried as [d3 done]. cbn [fst snd] in Hp3, Ho3, Hdone.
  destruct done; [split; [apply Hdone; reflexivity|exact Ho3]|].
  clear Hdone.
  pose proof Ho3 as [Hl3 _].
  assert (floor_at less a b d3) as Hfl3
    by (apply (floor_at_transfer less a b d d3); assumption).
  destruct ((0 <? a) && negb (GoSort.Less less d3 (a - 1) pivot2)) eqn:Hequal.
  - (* the pivot equals the element before the range *)
    apply andb_true_iff in Hequal as [Hpos Hle].
    apply Nat.ltb_lt in Hpos. apply negb_true_iff in Hle.
    rewrite Less_total in Hle by lia.
    destruct (partitionEqual_func_spec less d3 a b pivot2)
      as (Hm1 & Hm2 & Ho4 & Hhead & Hleft & Hright); try lia.
    pose proof (partitionEqual_func_perm less d3 a b pivot2) as Hp4.
    destruct (GoSort.partitionEqual_func less d3 a b pivot2) as [d4 mid].
    cbn [fst snd] in *.
    pose proof Ho4 as [Hl4 Hsame4].
    set (pv := d3 !!! pivot2) in *.
    assert (forall k, a <= k -> k < mid -> less pv (d4 !!! k) = false) as Hleft'.
    { intros k Hk1 Hk2. destruct (Hleft k Hk1 Hk2) as [Hk| ->]; [exact Hk|].
      rewrite Hhead. apply (swo_irrefl _ Hswo). }
    assert (floor_at less a b d4) as Hfl4.
    { apply (floor_at_transfer less a b d3 d4); try assumption; lia. }
    assert (forall k, a <= k -> k < b -> less (d4 !!! k) (d3 !!! (a - 1)) = false)
      as Hfloor.
    { intros k Hk1 Hk2. rewrite <- (Hsame4 (a - 1)) by lia.
      apply Hfl4; assumption. }
    destruct (IH d4 mid b limit1 wb wp) as [Hs Ho]; try lia.
    { intros _ k Hk1 Hk2.
      destruct (less (d4 !!! k) (d4 !!! (mid - 1))) eqn:Hc; [|reflexivity].
      rewrite <- (Hleft' (mid - 1) ltac:(lia) ltac:(lia)).
      symmetry. apply (swo_trans _ Hswo _ (d4 !!! k)); [|exact Hc].
      apply Hright; lia. }
    set (r := GoSort.pdqsort_func less fuel d4 mid b limit1 wb wp) in *.
    pose proof Ho as [Hlr Hsamer].
    assert (r ≡ₚ d4) as Hpr by apply pdqsort_func_perm.
    assert (forall k, mid <= k -> k < b -> less pv (r !!! k) = true) as Hright'.
    { apply (all_in_transfer mid b (fun x => less pv x = true) d4 r);
        try assumption; lia. }
    split.
    + intros p q Hp Hpq Hq.
      destruct (decide (mid <= p)); [apply Hs; lia|].
      rewrite (Hsamer p) by lia.
      destruct (decide (q < mid)).
      * rewrite (Hsamer q) by lia.
        apply (not_less_trans less Hswo _ (d3 !!! (a - 1)) _);
          [|apply Hfloor; lia].
        apply (not_less_trans less Hswo _ pv _); [|exact Hle].
        apply Hleft'; lia.
      * destruct (less (r !!! q) (d4 !!! p)) eqn:Hc; [|reflexivity].
        rewrite <- (Hleft' p ltac:(lia) ltac:(lia)).
        symmetry. apply (swo_trans _ Hswo _ (r !!! q)); [|exact Hc].
        apply Hright'; lia.
    + eapply same_outside_trans; [exact Ho3|].
      eapply same_outside_trans; [exact Ho4|].
      eapply same_outside_wider; [| |exact Ho]; lia.
  - (* partition around the pivot, then both sides *)
    clear Hequal.
    destruct (partition_func_spec less d3 a b pivot2)
      as (Hm1 & Hm2 & Ho4 & Hlow & Hhigh); try lia.
    pose proof (partition_func_perm less d3 a b pivot2) as Hp4.
    destruct (GoSort.partition_func less d3 a b pivot2) as [[d4 mid] ap].
    cbn [fst snd] in *.
    pose proof Ho4 as [Hl4 Hsame4].
    assert (floor_at less a b d4) as Hfl4.
    { apply (floor_at_transfer less a b d3 d4); try assumption; lia. }
    assert (same_outside a b d d4) as Hod4
      by (eapply same_outside_trans; [exact Ho3|exact Ho4]).
    destruct (mid - a <? b - mid).
    + destruct (IH d4 a mid limit1 true true) as [HsL HoL]; try lia.
      { eapply floor_at_narrow; [|exact Hfl4]. lia. }
      set (dL := GoSort.pdqsort_func less fuel d4 a mid limit1 true true) in *.
      pose proof HoL as [HlL HsameL].
      assert (dL ≡ₚ d4) as HpL by apply pdqsort_func_perm.
      destruct (IH dL (mid + 1) b limit1 ((b - a) / 8 <=? mid - a) ap)
        as [HsR HoR]; try lia.
      { intros _ k Hk1 Hk2. replace (mid + 1 - 1) with mid by lia.
        rewrite !HsameL by lia. apply Hhigh; lia. }
      set (dR := GoSort.pdqsort_func less fuel dL (mid + 1) b limit1 _ ap) in *.
      pose proof HoR as [HlR HsameR].
      assert (dR ≡ₚ dL) as HpR by apply pdqsort_func_perm.
      split.
      * apply (sorted_around a mid b); try lia; try assumption.
        -- intros p q Hp Hpq Hq. rewrite !HsameR by lia. apply HsL; lia.
        -- intros k Hk1 Hk2. rewrite !HsameR by lia. rewrite (HsameL mid) by lia.
           apply (all_in_transfer a mid (fun x => less x (d4 !!! mid) = true) d4 dL);
             try assumption; lia.
        -- intros k Hk1 Hk2. rewrite (HsameR mid), (HsameL mid) by lia.
           apply (all_in_transfer (mid + 1) b
                    (fun x => less x (d4 !!! mid) = false) dL dR);
             try assumption; try lia.
           intros j Hj1 Hj2. rewrite HsameL by lia. apply Hhigh; lia.
      * eapply same_outside_trans; [exact Hod4|].
        eapply same_outside_trans;
          [eapply same_outside_wider; [| |exact HoL]; lia|].
        eapply same_outside_wider; [| |exact HoR]; lia.
    + destruct (IH d4 (mid + 1) b limit1 true true) as [HsR HoR]; try lia.
      { intros _ k Hk1 Hk2. replace (mid + 1 - 1) with mid by lia.
        apply Hhigh; lia. }
      set (dR := GoSort.pdqsort_func less fuel d4 (mid + 1) b limit1 true true) in *.
      pose proof HoR as [HlR HsameR].
      assert (dR ≡ₚ d4) as HpR by apply pdqsort_func_perm.
      destruct (IH dR a mid limit1 ((b - a) / 8 <=? b - mid) ap)
        as [HsL HoL]; try lia.
      { intros Hpos k Hk1 Hk2. rewrite !HsameR by lia. apply Hfl4; lia. }
      set (dL := GoSort.pdqsort_func less fuel dR a mid limit1 _ ap) in *.
      pose proof HoL as [HlL HsameL].
      assert (dL ≡ₚ dR) as HpL by apply pdqsort_func_perm.
      split.
      * apply (sorted_around a mid b); try lia; try assumption.
        -- intros p q Hp Hpq Hq. rewrite !HsameL by lia. apply HsR; lia.
        -- intros k Hk1 Hk2. rewrite (HsameL mid), (HsameR mid) by lia.
           apply (all_in_transfer a mid
                    (fun x => less x (d4 !!! mid) = true) dR dL);
             try assumption; try lia.
           intros j Hj1 Hj2. rewrite HsameR by lia. apply Hlow; lia.
        -- intros k Hk1 Hk2. rewrite (HsameL mid), (HsameR mid) by lia.
           rewrite (HsameL k) by lia.
           apply (all_in_transfer (mid + 1) b
                    (fun x => less x (d4 !!! mid) = false) d4 dR);
             try assumption; try lia.
           intros j Hj1 Hj2. apply Hhigh; lia.
      * eapply same_outside_trans; [exact Hod4|].
        eapply same_outside_trans;
          [eapply same_outside_wider; [| |exact HoR]; lia|].
        eapply same_outside_wider; [| |exact HoL]; lia.
Qed.

(** [sort.Slice] orders the whole slice. *)
Lemma Slice_sorted (x : list A) :
  sorted_in less 0 (length x) (GoSort.Slice less x).
Proof.
  unfold GoSort.Slice. cbv zeta.
  apply pdqsort_func_spec; try lia. intros Hpos. lia.
Qed.

End quicksort.

Lemma sorted_in_ordered_by {A : Type} `{!Inhabited A} (less : A -> A -> bool)
  (l : list A) :
  sorted_in less 0 (length l) l -> ordered_by less l.
Proof.
  unfold ordered_by. induction l as [|x l IH]; intros Hs; [constructor|].
  constructor.
  - apply IH. intros i j Hi Hij Hj.
    apply (Hs (S i) (S j)); cbn [length]; lia.
  - apply Forall_lookup. intros i y Hy.
    pose proof (lookup_lt_Some _ _ _ Hy) as Hlt.
    specialize (Hs 0 (S i) ltac:(lia) ltac:(lia) ltac:(cbn [length]; lia)).
    rewrite (list_lookup_total_correct (x :: l) (S i) y) in Hs by exact Hy.
    exact Hs.
Qed.

(** The sort of package sort meets the contract it documents. *)
Lemma Slice_contract : sort_contract (@GoSort.Slice).
Proof.
  split; [apply Slice_rearranges|].
  intros A less l Hswo.
  destruct l as [|x l]; [constructor|].
  pose (Inhabited_x := populate x : Inhabited A).
  apply sorted_in_ordered_by.
  rewrite (Permutation_length (Slice_perm less (x :: l))).
  apply Slice_sorted. exact Hswo.
Qed.

End ordering.

(** ** The two loops of [nonzerosToCSR] *)

Lemma passes_checks triangular n :
  passes triangular n ->
  ((Row n <? 0) || (Col n <? 0)) = false /\
  (triangular && (Row n >? Col n)) = false.
Proof.
  intros (Hr & Hc & Ht). split.
  - apply orb_false_iff. split; apply Z.ltb_ge; assumption.
  - destruct triangular; [simpl|reflexivity].
    rewrite Z.gtb_ltb. apply Z.ltb_ge. auto.
Qed.

Lemma filter_loop_snoc triangular sorted acc p :
  Forall (passes triangular) sorted ->
  filter_loop triangular sorted (acc ++ [p]) =
  inr (acc ++ merge_runs (p :: sorted)).
Proof.
  intros Hs. revert acc p.
  induction Hs as [|n rest Hn Hrest IH]; intros acc p; [reflexivity|].
  cbn [filter_loop].
  destruct (passes_checks _ _ Hn) as [-> ->].
  rewrite last_snoc. cbn [merge_runs]. unfold same_key.
  destruct ((Row p =? Row n) && (Col p =? Col n)) eqn:Hk.
  - apply andb_true_iff in Hk as [Hr Hc].
    apply Z.eqb_eq in Hr. apply Z.eqb_eq in Hc.
    rewrite length_app, Nat.add_sub. cbn [length].
    replace (length acc) with (length acc + 0)%nat at 1 by lia.
    rewrite insert_app_r. cbn [list_insert insert].
    rewrite Hr, Hc. destruct n as [r c v]. cbn [Row Col Val].
    apply IH.
  - rewrite IH. rewrite <- app_assoc. reflexivity.
Qed.

Lemma filter_loop_passes triangular sorted :
  Forall (passes triangular) sorted ->
  filter_loop triangular sorted [] = inr (merge_runs sorted).
Proof.
  intros Hs. destruct Hs as [|n rest Hn Hrest]; [reflexivity|].
  cbn [filter_loop last].
  destruct (passes_checks _ _ Hn) as [-> ->].
  apply (filter_loop_snoc triangular rest [] n Hrest).
Qed.

Lemma filter_loop_inr triangular sorted acc filtered :
  filter_loop triangular sorted acc = inr filtered ->
  Forall (passes triangular) sorted.
Proof.
  revert acc. induction sorted as [|n rest IH]; intros acc H; [constructor|].
  cbn [filter_loop] in H.
  destruct ((Row n <? 0) || (Col n <? 0)) eqn:Hneg; [discriminate|].
  destruct (triangular && (Row n >? Col n)) eqn:Htri; [discriminate|].
  apply orb_false_iff in Hneg as [Hr Hc].
  apply Z.ltb_ge in Hr. apply Z.ltb_ge in Hc.
  constructor.
  - repeat split; try assumption.
    intros ->. simpl in Htri. rewrite Z.gtb_ltb in Htri.
    apply Z.ltb_ge in Htri. exact Htri.
  - destruct (last acc) as [p|]; [|eauto].
    destruct ((Row p =? Row n) && (Col p =? Col n)); eauto.
Qed.

Lemma filter_loop_inl triangular sorted acc e :
  filter_loop triangular sorted acc = inl e ->
  exists n, n ∈ sorted /\
    ((e = InvalidIndex /\ (Row n < 0 \/ Col n < 0)) \/
     (e = NotUpperTriangular /\ triangular = true /\ Row n > Col n)).
Proof.
  revert acc. induction sorted as [|n rest IH]; intros acc H; [discriminate|].
  cbn [filter_loop] in H.
  destruct ((Row n <? 0) || (Col n <? 0)) eqn:Hneg.
  { exists n. split; [left|]. left. split; [congruence|].
    apply orb_true_iff in Hneg as [Hr|Hc]; [left|right]; apply Z.ltb_lt; auto. }
  destruct (triangular && (Row n >? Col n)) eqn:Htri.
  { exists n. split; [left|]. right.
    apply andb_true_iff in Htri as [-> Hgt].
    rewrite Z.gtb_ltb in Hgt. apply Z.ltb_lt in Hgt.
    repeat split; [congruence|lia]. }
  assert (exists acc', filter_loop triangular rest acc' = inl e) as [acc' H'].
  { destruct (last acc) as [p|]; [|eauto].
    destruct ((Row p =? Row n) && (Col p =? Col n)); eauto. }
  destruct (IH _ H') as (m & Hm & Hcase).
  exists m. split; [right; exact Hm|exact Hcase].
Qed.

Lemma build_loop_spec filtered i prevRow st ix vl :
  length ix = (i + length filtered)%nat ->
  length vl = (i + length filtered)%nat ->
  build_loop filtered i prevRow st ix vl =
  (st ++ row_starts filtered i prevRow,
   take i ix ++ map Col filtered,
   take i vl ++ map Val filtered).
Proof.
  revert i prevRow st ix vl.
  induction filtered as [|n rest IH]; intros i prevRow st ix vl Hix Hvl.
  - simpl in *. rewrite !app_nil_r, !firstn_all2 by lia. reflexivity.
  - cbn [build_loop row_starts map length] in *.
    assert (take (S i) (<[i:=Col n]> ix) = take i ix ++ [Col n]) as Eix.
    { rewrite (take_S_r _ _ (Col n)).
      - rewrite take_insert_ge by lia. reflexivity.
      - apply list_lookup_insert_eq. lia. }
    assert (take (S i) (<[i:=Val n]> vl) = take i vl ++ [Val n]) as Evl.
    { rewrite (take_S_r _ _ (Val n)).
      - rewrite take_insert_ge by lia. reflexivity.
      - apply list_lookup_insert_eq. lia. }
    destruct (Row n >? prevRow).
    + rewrite IH by (rewrite length_insert; lia).
      rewrite Eix, Evl, <- !app_assoc. reflexivity.
    + rewrite IH by (rewrite length_insert; lia).
      rewrite Eix, Evl, <- !app_assoc. reflexivity.
Qed.

(** What [nonzerosToCSR] returns on a non-empty slice, by the outcome of the
    validation loop. *)
Lemma nonzerosToCSR_passes (sort_Slice : sorter) nz triangular :
  nz <> [] ->
  Forall (passes triangular) (sort_Slice Nonzero less_rowcol nz) ->
  nonzerosToCSR sort_Slice nz triangular =
  let filtered := merge_runs (sort_Slice Nonzero less_rowcol nz) in
  mkCsr (row_starts filtered 0 (-1)) (map Col filtered) (map Val filtered) None.
Proof.
  intros Hne Hp. unfold nonzerosToCSR.
  destruct nz as [|n0 nz0]; [congruence|]. cbn [length Nat.eqb].
  rewrite (filter_loop_passes _ _ Hp).
  rewrite build_loop_spec by (rewrite length_replicate; reflexivity).
  reflexivity.
Qed.

Lemma nonzerosToCSR_cases (sort_Slice : sorter) nz triangular :
  let sorted := sort_Slice Nonzero less_rowcol nz in
  (nz = [] /\ nonzerosToCSR sort_Slice nz triangular = mkCsr [] [] [] None) \/
  (nz <> [] /\ Forall (passes triangular) sorted /\
   nonzerosToCSR sort_Slice nz triangular =
   mkCsr (row_starts (merge_runs sorted) 0 (-1))
         (map Col (merge_runs sorted)) (map Val (merge_runs sorted)) None) \/
  (nz <> [] /\ exists e n,
     nonzerosToCSR sort_Slice nz triangular = mkCsr [] [] [] (Some e) /\
     n ∈ sorted /\
     ((e = InvalidIndex /\ (Row n < 0 \/ Col n < 0)) \/
      (e = NotUpperTriangular /\ triangular = true /\ Row n > Col n))).
Proof.
  intros sorted. destruct nz as [|n0 nz0]; [left; split; reflexivity|].
  right.
  destruct (filter_loop triangular sorted []) as [e|filtered] eqn:Hloop.
  - right. split; [discriminate|].
    destruct (filter_loop_inl _ _ _ _ Hloop) as (n & Hn & Hcase).
    exists e, n. split; [|split; assumption].
    unfold nonzerosToCSR. cbn [length Nat.eqb]. fold sorted.
    rewrite Hloop. reflexivity.
  - left. apply filter_loop_inr in Hloop. split; [discriminate|].
    split; [exact Hloop|]. apply nonzerosToCSR_passes; [discriminate|exact Hloop].
Qed.

(** ** Sorted slices are determined by their entries *)

Lemma ordered_unique (l1 l2 : list Nonzero) :
  agreeing_duplicates l1 ->
  ordered_by less_rowcol l1 -> ordered_by less_rowcol l2 ->
  l1 ≡ₚ l2 -> l1 = l2.
Proof.
  intros Hagree H1 H2 Hperm.
  unfold ordered_by in *.
  eapply StronglySorted_unique_strong; [|exact H1|exact H2|exact Hperm].
  intros x y Hx Hy Hxy Hyx. simpl in Hxy, Hyx.
  rewrite <- Hperm in Hy.
  apply less_rowcol_false in Hxy. apply less_rowcol_false in Hyx.
  assert (Row x = Row y) as Hr by lia.
  assert (Col x = Col y) as Hc by lia.
  pose proof (Hagree x y Hx Hy Hr Hc) as Hv.
  destruct x, y; simpl in *; congruence.
Qed.

Lemma sort_Slice_unique (s1 s2 : sorter) (l1 l2 : list Nonzero) :
  sort_contract s1 -> sort_contract s2 ->
  agreeing_duplicates l1 -> l1 ≡ₚ l2 ->
  s1 Nonzero less_rowcol l1 = s2 Nonzero less_rowcol l2.
Proof.
  intros C1 C2 Hagree Hperm.
  apply ordered_unique.
  - intros x y Hx Hy. apply Hagree.
    + rewrite <- (sort_permutes _ C1 _ less_rowcol l1). exact Hx.
    + rewrite <- (sort_permutes _ C1 _ less_rowcol l1). exact Hy.
  - apply (sort_orders _ C1), less_rowcol_swo.
  - apply (sort_orders _ C2), less_rowcol_swo.
  - rewrite (sort_permutes _ C1 _ less_rowcol l1),
      (sort_permutes _ C2 _ less_rowcol l2). exact Hperm.
Qed.

Lemma NoDup_keys_agreeing (l : list Nonzero) :
  NoDup (map (fun n => (Row n, Col n)) l) -> agreeing_duplicates l.
Proof.
  intros Hnd x y Hx Hy Hr Hc.
  induction l as [|a l IH]; [inversion Hx|].
  simpl in Hnd. apply NoDup_cons in Hnd as [Ha Hnd].
  apply elem_of_cons in Hx as [->|Hx]; apply elem_of_cons in Hy as [->|Hy].
  - reflexivity.
  - exfalso. apply Ha. apply list_elem_of_fmap.
    exists y. split; [congruence|assumption].
  - exfalso. apply Ha. apply list_elem_of_fmap.
    exists x. split; [congruence|assumption].
  - auto.
Qed.

(** ** The surviving entries of an ordered slice *)

Lemma same_key_spec x y : same_key x y = true <-> Row x = Row y /\ Col x = Col y.
Proof. unfold same_key. rewrite andb_true_iff, !Z.eqb_eq. reflexivity. Qed.

Lemma merge_runs_cons2 n m rest :
  merge_runs (n :: m :: rest) =
  if same_key n m then merge_runs (m :: rest) else n :: merge_runs (m :: rest).
Proof. reflexivity. Qed.

Lemma merge_runs_elem l x : x ∈ merge_runs l -> x ∈ l.
Proof.
  induction l as [|n rest IH]; [auto|].
  destruct rest as [|m rest]; [auto|].
  rewrite merge_runs_cons2. destruct (same_key n m).
  - intros H. right. auto.
  - intros H. apply elem_of_cons in H as [->|H]; [left|right; auto].
Qed.

Lemma merge_runs_keys l x :
  x ∈ l -> exists y, y ∈ merge_runs l /\ Row y = Row x /\ Col y = Col x.
Proof.
  revert x. induction l as [|n rest IH]; intros x; [intros H; inversion H|].
  destruct rest as [|m rest].
  - intros H. exists x. apply elem_of_cons in H as [->|H]; [|inversion H].
    split; [left|split; reflexivity].
  - rewrite merge_runs_cons2. intros H.
    apply elem_of_cons in H as [->|H].
    + destruct (same_key n m) eqn:Hk.
      * apply same_key_spec in Hk as [Hr Hc].
        assert (m ∈ m :: rest) as Hm by (apply elem_of_cons; left; reflexivity).
        destruct (IH m Hm) as (y & Hy & Hyr & Hyc).
        exists y. split; [exact Hy|]. split; congruence.
      * exists n. split; [left|split; reflexivity].
    + destruct (IH x H) as (y & Hy & Hyk).
      exists y. split; [|exact Hyk].
      destruct (same_key n m); [exact Hy|right; exact Hy].
Qed.

Lemma merge_runs_nonempty l : l <> [] -> merge_runs l <> [].
Proof.
  induction l as [|n rest IH]; [congruence|intros _].
  destruct rest as [|m rest]; [discriminate|].
  rewrite merge_runs_cons2. destruct (same_key n m); [|discriminate].
  apply IH. discriminate.
Qed.

Lemma merge_runs_strict l :
  ordered_by less_rowcol l -> StronglySorted key_lt (merge_runs l).
Proof.
  unfold ordered_by.
  induction l as [|n rest IH]; intros Hl; [constructor|].
  destruct rest as [|m rest]; [repeat constructor|].
  apply StronglySorted_inv in Hl as [Hrest Hn].
  rewrite merge_runs_cons2. destruct (same_key n m) eqn:Hk; [auto|].
  constructor; [auto|].
  apply Forall_forall. intros y Hy. apply merge_runs_elem in Hy.
  assert (less_rowcol m n = false) as Hmn.
  { apply Forall_inv in Hn. exact Hn. }
  assert (less_rowcol y m = false) as Hym.
  { apply elem_of_cons in Hy as [->|Hy].
    - apply less_rowcol_swo.
    - apply StronglySorted_inv in Hrest as [_ Hm].
      rewrite Forall_forall in Hm. apply Hm. exact Hy. }
  apply less_rowcol_false in Hmn. apply less_rowcol_false in Hym.
  assert (~ (Row n = Row m /\ Col n = Col m)) as Hne.
  { rewrite <- same_key_spec. congruence. }
  unfold key_lt. lia.
Qed.

Lemma key_lt_trans x y z : key_lt x y -> key_lt y z -> key_lt x z.
Proof. unfold key_lt. lia. Qed.

Lemma strict_keys_NoDup l :
  StronglySorted key_lt l -> NoDup (map (fun n => (Row n, Col n)) l).
Proof.
  induction 1 as [|x l Hl IH Hx]; simpl; constructor; [|exact IH].
  intros Hin. apply list_elem_of_fmap in Hin as (y & Hy & Hyl).
  rewrite Forall_forall in Hx. specialize (Hx y Hyl).
  unfold key_lt in Hx. inversion Hy. lia.
Qed.

(** ** Row boundaries *)

Lemma StronglySorted_weaken {A : Type} (R1 R2 : A -> A -> Prop) l :
  (forall x y, R1 x y -> R2 x y) -> StronglySorted R1 l -> StronglySorted R2 l.
Proof.
  intros HR. induction 1 as [|x l Hl IH Hx]; constructor; [exact IH|].
  eapply Forall_impl; [exact Hx|]. intros y. apply HR.
Qed.

Lemma strict_rows_ascend l : StronglySorted key_lt l -> rows_ascend l.
Proof. apply StronglySorted_weaken. unfold key_lt. intros x y. lia. Qed.

Lemma row_starts_length F i prev :
  length (row_starts F i prev) = length (start_rows F prev).
Proof.
  revert i prev. induction F as [|n rest IH]; intros i prev; [reflexivity|].
  simpl. destruct (Row n >? prev); simpl; rewrite IH; reflexivity.
Qed.

Lemma row_starts_bounds F i prev :
  Forall (fun s => Z.of_nat i <= s < Z.of_nat (i + length F))
         (row_starts F i prev).
Proof.
  revert i prev. induction F as [|n rest IH]; intros i prev; [constructor|].
  cbn [row_starts length].
  assert (Forall (fun s => Z.of_nat i <= s < Z.of_nat (i + S (length rest)))
                 (row_starts rest (S i) (Row n))) as H1.
  { eapply Forall_impl; [apply IH|]. simpl. intros s. lia. }
  assert (Forall (fun s => Z.of_nat i <= s < Z.of_nat (i + S (length rest)))
                 (row_starts rest (S i) prev)) as H2.
  { eapply Forall_impl; [apply IH|]. simpl. intros s. lia. }
  destruct (Row n >? prev); [constructor; [lia|exact H1]|exact H2].
Qed.

Lemma row_starts_increasing F i prev : StronglySorted Z.lt (row_starts F i prev).
Proof.
  revert i prev. induction F as [|n rest IH]; intros i prev; [constructor|].
  cbn [row_starts]. destruct (Row n >? prev); [|apply IH].
  constructor; [apply IH|].
  eapply Forall_impl; [apply row_starts_bounds|]. simpl. intros s. lia.
Qed.

Lemma row_starts_gap F i prev p x y :
  rows_ascend F -> Forall (fun a => prev <= Row a) F ->
  F !! p = Some x -> F !! S p = Some y ->
  Z.of_nat (i + S p) ∉ row_starts F i prev ->
  Row x = Row y.
Proof.
  unfold rows_ascend. revert i prev p.
  induction F as [|n rest IH]; intros i prev p Hasc Hprev Hx Hy Hnot;
    [discriminate|].
  apply StronglySorted_inv in Hasc as [Hrest Hn].
  apply Forall_cons in Hprev as [Hpn Hprev].
  assert (Z.of_nat (i + S p) ∉ row_starts rest (S i) (Row n)) as Hnot'.
  { cbn [row_starts] in Hnot. destruct (Row n >? prev) eqn:Hgt.
    - intros Hin. apply Hnot. right. exact Hin.
    - rewrite Z.gtb_ltb in Hgt. apply Z.ltb_ge in Hgt.
      replace (Row n) with prev by lia. exact Hnot. }
  destruct p as [|p].
  - simpl in Hx. injection Hx as ->.
    destruct rest as [|m rest]; [discriminate|].
    simpl in Hy. injection Hy as ->.
    apply Forall_inv in Hn. cbn [row_starts] in Hnot'.
    destruct (Row y >? Row x) eqn:Hgt.
    + exfalso. apply Hnot'. replace (i + 1)%nat with (S i) by lia. left.
    + rewrite Z.gtb_ltb in Hgt. apply Z.ltb_ge in Hgt. lia.
  - simpl in Hx, Hy. apply (IH (S i) (Row n) p); try assumption.
    replace (S i + S p)%nat with (i + S (S p))%nat by lia. exact Hnot'.
Qed.

Lemma start_rows_elem F prev r :
  rows_ascend F -> Forall (fun a => prev <= Row a) F ->
  r ∈ start_rows F prev <-> (exists x, x ∈ F /\ Row x = r) /\ prev < r.
Proof.
  unfold rows_ascend. revert prev.
  induction F as [|n rest IH]; intros prev Hasc Hprev.
  - simpl. split; [intros H; inversion H|].
    intros [(x & Hx & _) _]. inversion Hx.
  - apply StronglySorted_inv in Hasc as [Hrest Hn].
    apply Forall_cons in Hprev as [Hpn Hprev].
    cbn [start_rows]. destruct (Row n >? prev) eqn:Hgt.
    + rewrite Z.gtb_ltb in Hgt. apply Z.ltb_lt in Hgt.
      rewrite elem_of_cons, (IH (Row n) Hrest Hn). split.
      * intros [->|[(x & Hx & Hxr) Hlt]].
        -- split; [exists n; split; [left|reflexivity]|exact Hgt].
        -- split; [exists x; split; [right; exact Hx|exact Hxr]|lia].
      * intros [(x & Hx & Hxr) Hlt].
        apply elem_of_cons in Hx as [->|Hx]; [left; auto|].
        rewrite Forall_forall in Hn. specialize (Hn x Hx). simpl in Hn.
        destruct (Z.eq_dec (Row x) (Row n)) as [He|Hne]; [left; congruence|].
        right. split; [exists x; split; assumption|lia].
    + rewrite Z.gtb_ltb in Hgt. apply Z.ltb_ge in Hgt.
      assert (Row n = prev) as Hnp by lia.
      rewrite (IH prev Hrest Hprev). split.
      * intros [(x & Hx & Hxr) Hlt].
        split; [exists x; split; [right; exact Hx|exact Hxr]|exact Hlt].
      * intros [(x & Hx & Hxr) Hlt].
        apply elem_of_cons in Hx as [->|Hx]; [lia|].
        split; [exists x; split; assumption|exact Hlt].
Qed.

Lemma start_rows_increasing F prev :
  StronglySorted Z.lt (start_rows F prev) /\
  Forall (fun r => prev < r) (start_rows F prev).
Proof.
  revert prev. induction F as [|n rest IH]; intros prev.
  - split; constructor.
  - cbn [start_rows]. destruct (Row n >? prev) eqn:Hgt; [|apply IH].
    rewrite Z.gtb_ltb in Hgt. apply Z.ltb_lt in Hgt.
    destruct (IH (Row n)) as [Hs Hb]. split.
    + constructor; assumption.
    + constructor; [exact Hgt|].
      eapply Forall_impl; [exact Hb|]. simpl. intros r. lia.
Qed.

Lemma increasing_NoDup (l : list Z) : StronglySorted Z.lt l -> NoDup l.
Proof.
  induction 1 as [|x l Hl IH Hx]; constructor; [|exact IH].
  intros Hin. rewrite Forall_forall in Hx. specialize (Hx x Hin). lia.
Qed.

Lemma increasing_lookup_le (l : list Z) i j a b :
  StronglySorted Z.lt l -> (i <= j)%nat ->
  l !! i = Some a -> l !! j = Some b -> a <= b.
Proof.
  intros Hl. revert i j. induction Hl as [|x l Hl IH Hx]; intros i j Hij Ha Hb;
    [discriminate|].
  destruct i as [|i]; destruct j as [|j]; simpl in *; try lia.
  - injection Ha as ->. injection Hb as ->. lia.
  - injection Ha as ->. rewrite Forall_forall in Hx.
    apply list_elem_of_lookup_2 in Hb. specialize (Hx b Hb). lia.
  - apply (IH i j); [lia|assumption..].
Qed.

(** ** Rows of the CSR arrays *)

Lemma StronglySorted_lookup {A : Type} (R : A -> A -> Prop) l i j a b :
  StronglySorted R l -> (i < j)%nat ->
  l !! i = Some a -> l !! j = Some b -> R a b.
Proof.
  intros Hl. revert i j. induction Hl as [|x l Hl IH Hx]; intros i j Hij Ha Hb;
    [discriminate|].
  destruct j as [|j]; [lia|]. destruct i as [|i]; simpl in *.
  - injection Ha as ->. rewrite Forall_forall in Hx.
    apply Hx. eapply list_elem_of_lookup_2. exact Hb.
  - apply (IH i j); [lia|assumption..].
Qed.

Lemma Sorted_adjacent {A : Type} (R : A -> A -> Prop) (l : list A) :
  (forall j x y, l !! j = Some x -> l !! S j = Some y -> R x y) -> Sorted R l.
Proof.
  induction l as [|x l IH]; intros H; constructor.
  - apply IH. intros j a b Ha Hb. apply (H (S j)); assumption.
  - destruct l as [|y l]; constructor. apply (H O); reflexivity.
Qed.

Lemma row_cols_increasing F vl e k :
  StronglySorted key_lt F -> Forall (fun a => -1 <= Row a) F ->
  StronglySorted Z.lt
    (row_cols (mkCsr (row_starts F 0 (-1)) (map Col F) vl e) k).
Proof.
  intros HF Hrows. unfold row_cols. cbn [start index].
  set (st := row_starts F 0 (-1)).
  destruct (st !! k) as [s|] eqn:Hs; [|constructor].
  set (en := default (Z.of_nat (length (map Col F))) (st !! S k)).
  apply Sorted_StronglySorted; [intros x y z; lia|].
  apply Sorted_adjacent. intros j x y Hx Hy.
  apply lookup_take_Some in Hx as [Hx Hj].
  apply lookup_take_Some in Hy as [Hy HSj].
  rewrite lookup_drop in Hx, Hy.
  rewrite list_lookup_fmap in Hx, Hy.
  destruct (F !! (Z.to_nat s + j)%nat) as [a|] eqn:Ha; [|discriminate].
  destruct (F !! (Z.to_nat s + S j)%nat) as [b|] eqn:Hb; [|discriminate].
  simpl in Hx, Hy. injection Hx as <-. injection Hy as <-.
  replace (Z.to_nat s + S j)%nat with (S (Z.to_nat s + j)) in Hb by lia.
  assert (key_lt a b) as Hlt.
  { eapply (StronglySorted_lookup key_lt F (Z.to_nat s + j) (S (Z.to_nat s + j)));
      [exact HF|lia|exact Ha|exact Hb]. }
  assert (Row a = Row b) as Hrow; [|unfold key_lt in Hlt; lia].
  apply (row_starts_gap F 0 (-1) (Z.to_nat s + j) a b);
    [apply strict_rows_ascend; exact HF|exact Hrows|exact Ha|exact Hb|].
  fold st. intros Hin.
  apply list_elem_of_lookup_1 in Hin as [m Hm].
  pose proof (row_starts_increasing F 0 (-1)) as Hinc. fold st in Hinc.
  assert (0 <= s) as Hs0.
  { pose proof (row_starts_bounds F 0 (-1)) as Hb0. fold st in Hb0.
    rewrite Forall_forall in Hb0.
    apply list_elem_of_lookup_2 in Hs. specialize (Hb0 s Hs). simpl in Hb0. lia. }
  destruct (le_lt_dec m k) as [Hmk|Hkm].
  - pose proof (increasing_lookup_le st m k _ _ Hinc Hmk Hm Hs). lia.
  - destruct (st !! S k) as [e'|] eqn:He.
    + assert (S k <= m)%nat as Hle by lia.
      pose proof (increasing_lookup_le st (S k) m _ _ Hinc Hle He Hm) as Hem.
      subst en. simpl in HSj. lia.
    + apply lookup_ge_None in He. apply lookup_lt_Some in Hm. lia.
Qed.

(** The recorded rows cover [index]: laid end to end they give it back. *)
Lemma row_cols_cover (st ix : list Z) vl e :
  StronglySorted Z.lt st ->
  Forall (fun s => 0 <= s < Z.of_nat (length ix)) st ->
  concat (map (row_cols (mkCsr st ix vl e)) (seq 0 (length st))) =
  match st with
  | [] => []
  | s :: _ => drop (Z.to_nat s) ix
  end.
Proof.
  induction st as [|s st IH]; intros Hinc Hb; [reflexivity|].
  apply StronglySorted_inv in Hinc as [Hinc Hs].
  apply Forall_cons in Hb as [Hs0 Hb].
  cbn [length seq map concat].
  assert (map (row_cols (mkCsr (s :: st) ix vl e)) (seq 1 (length st)) =
          map (row_cols (mkCsr st ix vl e)) (seq 0 (length st))) as ->.
  { rewrite <- seq_shift, map_map. reflexivity. }
  rewrite IH by assumption.
  unfold row_cols. cbn [start index lookup list_lookup].
  destruct st as [|s' st]; cbn [lookup list_lookup default].
  - rewrite app_nil_r. apply take_ge. rewrite length_drop. lia.
  - apply Forall_inv in Hs. apply Forall_inv in Hb.
    assert (drop (Z.to_nat s') ix =
            drop (Z.to_nat s' - Z.to_nat s) (drop (Z.to_nat s) ix)) as ->
      by (rewrite drop_drop; f_equal; lia).
    apply take_drop.
Qed.

Lemma row_starts_head F :
  F <> [] -> Forall (fun a => 0 <= Row a) F ->
  row_starts F 0 (-1) !! 0%nat = Some 0.
Proof.
  intros Hne Hrows. destruct F as [|n rest]; [congruence|].
  apply Forall_inv in Hrows. cbn [row_starts].
  assert ((Row n >? -1) = true) as ->; [|reflexivity].
  rewrite Z.gtb_ltb. apply Z.ltb_lt. lia.
Qed.

Lemma start_rows_distinct_rows F (l : list Nonzero) :
  StronglySorted key_lt F -> Forall (fun a => 0 <= Row a) F ->
  (forall r, (exists x, x ∈ F /\ Row x = r) <-> r ∈ map Row l) ->
  start_rows F (-1) ≡ₚ remove_dups (map Row l).
Proof.
  intros HF Hrows Hsame.
  apply NoDup_Permutation.
  - apply increasing_NoDup, start_rows_increasing.
  - apply NoDup_remove_dups.
  - intros r. rewrite elem_of_remove_dups, <- Hsame.
    rewrite start_rows_elem.
    + split; [intros [H _]; exact H|].
      intros (x & Hx & Hr). split; [exists x; split; assumption|].
      rewrite Forall_forall in Hrows. specialize (Hrows x Hx). simpl in Hrows. lia.
    + apply strict_rows_ascend, HF.
    + eapply Forall_impl; [exact Hrows|]. simpl. intros a. lia.
Qed.

(** ** nonzerosToCSR: results *)

Lemma sorted_elem (sort_Slice : sorter) (l : list Nonzero) x :
  rearranges sort_Slice ->
  x ∈ sort_Slice Nonzero less_rowcol l <-> x ∈ l.
Proof. intros C. rewrite (C _ less_rowcol l). reflexivity. Qed.

Lemma passes_not_failing triangular n :
  passes triangular n ->
  ~ (Row n < 0 \/ Col n < 0) /\ ~ (triangular = true /\ Row n > Col n).
Proof. intros (Hr & Hc & Ht). split; [lia|]. intros [Htri Hgt]. specialize (Ht Htri). lia. Qed.

(** C6: on an empty slice, with either flag, [nonzerosToCSR] returns three
    empty slices and a nil error. *)
Theorem nonzerosToCSR_empty (sort_Slice : sorter) (triangular : bool) :
  nonzerosToCSR sort_Slice [] triangular = mkCsr [] [] [] None.
Proof. reflexivity. Qed.

(** C3: [nonzerosToCSR] fails exactly when some entry has a negative row or
    column, or the triangular flag is set and some entry lies below the
    diagonal; the error is InvalidIndex or NotUpperTriangular according to the
    check that fired, and on failure the three slices are empty. *)
Theorem nonzerosToCSR_error_iff (sort_Slice : sorter) nz triangular :
  rearranges sort_Slice ->
  let r := nonzerosToCSR sort_Slice nz triangular in
  let negative := exists n, n ∈ nz /\ (Row n < 0 \/ Col n < 0) in
  let below := triangular = true /\ exists n, n ∈ nz /\ Row n > Col n in
  (is_Some (err r) <-> negative \/ below) /\
  (forall e, err r = Some e ->
     ((e = InvalidIndex /\ negative) \/ (e = NotUpperTriangular /\ below)) /\
     start r = [] /\ index r = [] /\ value r = []) /\
  (negative -> ~ below -> err r = Some InvalidIndex) /\
  (below -> ~ negative -> err r = Some NotUpperTriangular).
Proof.
  intros C r negative below.
  destruct (nonzerosToCSR_cases sort_Slice nz triangular)
    as [[Hnil Hr]|[(Hne & Hpass & Hr)|(Hne & e & n & Hr & Hn & Hcase)]];
    fold r in Hr.
  - assert (~ negative) as Hnn.
    { intros (n & Hn & _). subst nz. inversion Hn. }
    assert (~ below) as Hnb.
    { intros (_ & n & Hn & _). subst nz. inversion Hn. }
    rewrite Hr. cbn [err start index value].
    repeat split; try discriminate; try tauto.
    intros [e He]. discriminate.
  - assert (~ negative) as Hnn.
    { intros (n & Hn & Hneg). rewrite Forall_forall in Hpass.
      apply (sorted_elem sort_Slice nz n C) in Hn.
      destruct (passes_not_failing _ _ (Hpass n Hn)) as [H1 _]. tauto. }
    assert (~ below) as Hnb.
    { intros (Htri & n & Hn & Hgt). rewrite Forall_forall in Hpass.
      apply (sorted_elem sort_Slice nz n C) in Hn.
      destruct (passes_not_failing _ _ (Hpass n Hn)) as [_ H2]. tauto. }
    rewrite Hr. cbn [err start index value].
    repeat split; try discriminate; try tauto.
    intros [e He]. discriminate.
  - apply (sorted_elem sort_Slice nz n C) in Hn.
    assert ((e = InvalidIndex /\ negative) \/ (e = NotUpperTriangular /\ below))
      as Hwhich.
    { destruct Hcase as [[-> Hneg]|(-> & Htri & Hgt)].
      - left. split; [reflexivity|]. exists n. split; assumption.
      - right. split; [reflexivity|]. split; [exact Htri|].
        exists n. split; assumption. }
    rewrite Hr. cbn [err start index value].
    split; [|split; [|split]].
    + split; [intros _|intros _; eexists; reflexivity].
      destruct Hwhich as [[_ H]|[_ H]]; [left|right]; exact H.
    + intros e' He'. injection He' as <-. repeat split; try reflexivity.
      exact Hwhich.
    + intros _ Hnb. destruct Hwhich as [[-> _]|[_ H]]; [reflexivity|tauto].
    + intros _ Hnn. destruct Hwhich as [[_ H]|[-> _]]; [tauto|reflexivity].
Qed.

Lemma scenario_keys_NoDup : NoDup (map (fun n => (Row n, Col n)) scenario).
Proof.
  vm_compute.
  repeat (constructor;
          [rewrite ?elem_of_cons, elem_of_nil; intuition congruence|]).
  constructor.
Qed.

(** C4: the end-to-end scenario of the specification, as [sort.Slice] runs
    it and for every sort within its contract. *)
Theorem nonzerosToCSR_scenario :
  nonzerosToCSR (@GoSort.Slice) scenario false =
  mkCsr [0; 1; 3] [1; 0; 1; 0; 1]
        [1%float; 1%float; 2%float; 3%float; 2%float] None /\
  forall sort_Slice : sorter, sort_contract sort_Slice ->
    nonzerosToCSR sort_Slice scenario false =
    mkCsr [0; 1; 3] [1; 0; 1; 0; 1]
          [1%float; 1%float; 2%float; 3%float; 2%float] None.
Proof.
  split; [reflexivity|].
  intros sort_Slice C. unfold nonzerosToCSR.
  rewrite (sort_Slice_unique sort_Slice insertion_Slice scenario scenario C
             insertion_Slice_contract); [reflexivity| |reflexivity].
  apply NoDup_keys_agreeing, scenario_keys_NoDup.
Qed.

(** C2, as amended: when no two entries with the same (row, column) differ
    in value, every permutation of the input gives the same result. *)
Theorem nonzerosToCSR_permutation (sort_Slice : sorter) nz nz' triangular :
  sort_contract sort_Slice ->
  agreeing_duplicates nz -> nz ≡ₚ nz' ->
  nonzerosToCSR sort_Slice nz' triangular = nonzerosToCSR sort_Slice nz triangular.
Proof.
  intros C Hagree Hperm. unfold nonzerosToCSR.
  rewrite <- (sort_Slice_unique sort_Slice sort_Slice nz nz' C C Hagree Hperm).
  rewrite (Permutation_length Hperm). reflexivity.
Qed.

(** C5: on a success with non-empty output, the columns of every recorded
    row increase strictly (and the recorded rows, end to end, are the whole
    of [index]), the row offsets do not decrease and begin with 0,
    [index] and [value] both have one element per surviving entry (one per
    distinct (row, column) of the input), and a matrix whose rows are exactly
    0, 1 and 2 gets three offsets. *)
Theorem nonzerosToCSR_invariants (sort_Slice : sorter) nz triangular :
  sort_contract sort_Slice ->
  let r := nonzerosToCSR sort_Slice nz triangular in
  err r = None -> index r <> [] ->
  (forall k, StronglySorted Z.lt (row_cols r k)) /\
  concat (map (row_cols r) (seq 0 (length (start r)))) = index r /\
  StronglySorted Z.le (start r) /\
  start r !! 0%nat = Some 0 /\
  length (index r) = length (value r) /\
  length (index r) = length (merge_runs (sort_Slice Nonzero less_rowcol nz)) /\
  length (index r) = length (remove_dups (map (fun n => (Row n, Col n)) nz)) /\
  length (start r) = length (remove_dups (map Row nz)) /\
  ((forall row, row ∈ map Row nz <-> row ∈ [0; 1; 2]) ->
   length (start r) = 3%nat).
Proof.
  intros C r Herr Hout.
  destruct (nonzerosToCSR_cases sort_Slice nz triangular)
    as [[Hnil Hr]|[(Hne & Hpass & Hr)|(Hne & e & n & Hr & _)]];
    fold r in Hr.
  { rewrite Hr in Hout. cbn [index] in Hout. congruence. }
  2: { rewrite Hr in Herr. discriminate. }
  set (sorted := sort_Slice Nonzero less_rowcol nz) in *.
  set (F := merge_runs sorted) in *.
  assert (StronglySorted key_lt F) as HF.
  { apply merge_runs_strict, (sort_orders _ C), less_rowcol_swo. }
  assert (Forall (fun a => 0 <= Row a) F) as Hrows.
  { apply Forall_forall. intros a Ha. apply merge_runs_elem in Ha.
    rewrite Forall_forall in Hpass. destruct (Hpass a Ha) as (H0 & _). exact H0. }
  assert (F <> []) as HFne.
  { apply merge_runs_nonempty. intros Hs.
    pose proof (sort_permutes _ C _ less_rowcol nz) as Hp. fold sorted in Hp.
    rewrite Hs in Hp. apply Permutation_nil in Hp. congruence. }
  assert (forall row, (exists x, x ∈ F /\ Row x = row) <-> row ∈ map Row nz)
    as Hsame.
  { intros row. rewrite list_elem_of_fmap. split.
    - intros (x & Hx & Hrow). exists x. split; [congruence|].
      apply merge_runs_elem in Hx. apply (sorted_elem sort_Slice nz x (sort_permutes _ C)). exact Hx.
    - intros (x & Hrow & Hx). apply (sorted_elem sort_Slice nz x (sort_permutes _ C)) in Hx.
      destruct (merge_runs_keys _ _ Hx) as (y & Hy & Hyr & _).
      exists y. split; [exact Hy|congruence]. }
  assert (length (start r) = length (remove_dups (map Row nz))) as Hstart.
  { rewrite Hr. cbn [start]. rewrite row_starts_length.
    apply Permutation_length.
    apply start_rows_distinct_rows; assumption. }
  clearbody r. subst r. cbn [start index value] in *.
  split; [|split; [|split; [|split; [|split; [|split; [|split; [|split]]]]]]].
  - intros k. apply row_cols_increasing; [exact HF|].
    eapply Forall_impl; [exact Hrows|]. simpl. intros a. lia.
  - rewrite row_cols_cover.
    + pose proof (row_starts_head F HFne Hrows) as Hhead.
      destruct (row_starts F 0 (-1)) as [|s st]; [discriminate|].
      injection Hhead as ->. reflexivity.
    + apply row_starts_increasing.
    + eapply Forall_impl; [apply row_starts_bounds|].
      simpl. intros s. rewrite length_map. lia.
  - eapply StronglySorted_weaken; [|apply row_starts_increasing].
    intros x y. lia.
  - apply row_starts_head; assumption.
  - rewrite !length_map. reflexivity.
  - rewrite length_map. reflexivity.
  - rewrite length_map.
    rewrite <- (length_map (fun n => (Row n, Col n)) F).
    apply Permutation_length. apply NoDup_Permutation.
    + apply strict_keys_NoDup, HF.
    + apply NoDup_remove_dups.
    + intros [row col]. rewrite elem_of_remove_dups, !list_elem_of_fmap. split.
      * intros (x & Hk & Hx). exists x. split; [exact Hk|].
        apply merge_runs_elem in Hx.
        apply (sorted_elem sort_Slice nz x (sort_permutes _ C)). exact Hx.
      * intros (x & Hk & Hx). apply (sorted_elem sort_Slice nz x (sort_permutes _ C)) in Hx.
        destruct (merge_runs_keys _ _ Hx) as (y & Hy & Hyr & Hyc).
        exists y. split; [|exact Hy]. rewrite Hk. f_equal; congruence.
  - exact Hstart.
  - intros Hrows012. rewrite Hstart.
    assert (remove_dups (map Row nz) ≡ₚ [0; 1; 2]) as Hp.
    { apply NoDup_Permutation.
      - apply NoDup_remove_dups.
      - repeat (constructor;
                [rewrite ?elem_of_cons, elem_of_nil; intuition congruence|]).
        constructor.
      - intros row. rewrite elem_of_remove_dups. apply Hrows012. }
    rewrite (Permutation_length Hp). reflexivity.
Qed.

Lemma float_2_ne_1 : 2%float <> 1%float.
Proof.
  intros H.
  assert (PrimFloat.eqb 2%float 1%float = true) as Hb
    by (rewrite H; reflexivity).
  vm_compute in Hb. discriminate.
Qed.

(** C2, counterexample: two entries for (0, 0), in either order.  Both
    orders are valid inputs and permutations of each other, yet the value
    kept is the one written last. *)
Lemma nonzerosToCSR_permutation_counterexample :
  let nz := [mkNonzero 0 0 1%float; mkNonzero 0 0 2%float] in
  let nz' := [mkNonzero 0 0 2%float; mkNonzero 0 0 1%float] in
  Forall (passes true) nz /\ nz ≡ₚ nz' /\
  value (nonzerosToCSR (@GoSort.Slice) nz false) = [2%float] /\
  value (nonzerosToCSR (@GoSort.Slice) nz' false) = [1%float] /\
  nonzerosToCSR (@GoSort.Slice) nz false <>
  nonzerosToCSR (@GoSort.Slice) nz' false /\
  nonzerosToCSR insertion_Slice nz false <> nonzerosToCSR insertion_Slice nz' false.
Proof.
  cbv zeta. split; [|split; [|split; [|split; [|split]]]].
  - repeat constructor; simpl; lia.
  - apply Permutation_swap.
  - reflexivity.
  - reflexivity.
  - intros H. apply (f_equal (fun r => hd 0%float (value r))) in H.
    vm_compute in H. exact (float_2_ne_1 H).
  - intros H. apply (f_equal (fun r => hd 0%float (value r))) in H.
    vm_compute in H. exact (float_2_ne_1 H).
Qed.

(** The scenario and its reverse, sorted by [sort.Slice]. *)
Lemma nonzerosToCSR_permutation_witness :
  sort_contract (@GoSort.Slice) /\ agreeing_duplicates scenario /\
  scenario ≡ₚ rev scenario /\
  nonzerosToCSR (@GoSort.Slice) (rev scenario) false =
  nonzerosToCSR (@GoSort.Slice) scenario false.
Proof.
  split; [exact Slice_contract|].
  split; [exact (NoDup_keys_agreeing _ scenario_keys_NoDup)|].
  split; [apply Permutation_rev|].
  apply (nonzerosToCSR_permutation (@GoSort.Slice) scenario (rev scenario) false).
  - exact Slice_contract.
  - exact (NoDup_keys_agreeing _ scenario_keys_NoDup).
  - apply Permutation_rev.
Defined.

(** A lower-triangular entry handed to the Hessian conversion. *)
Lemma nonzerosToCSR_error_iff_witness :
  rearranges (@GoSort.Slice) /\
  err (nonzerosToCSR (@GoSort.Slice) [mkNonzero 1 0 5%float] true) =
  Some NotUpperTriangular.
Proof.
  split; [exact Slice_rearranges|].
  apply (nonzerosToCSR_error_iff (@GoSort.Slice) [mkNonzero 1 0 5%float] true
           Slice_rearranges).
  - split; [reflexivity|]. exists (mkNonzero 1 0 5%float).
    split; [apply elem_of_cons; left; reflexivity|simpl; lia].
  - intros (n & Hn & Hneg). apply elem_of_cons in Hn as [->|Hn].
    + simpl in Hneg. lia.
    + apply elem_of_nil in Hn. exact Hn.
Defined.

(** The scenario under the sort of package sort. *)
Lemma nonzerosToCSR_scenario_witness :
  sort_contract (@GoSort.Slice) /\
  nonzerosToCSR (@GoSort.Slice) scenario false =
  mkCsr [0; 1; 3] [1; 0; 1; 0; 1]
        [1%float; 1%float; 2%float; 3%float; 2%float] None.
Proof.
  split; [exact Slice_contract|].
  apply (proj2 nonzerosToCSR_scenario (@GoSort.Slice) Slice_contract).
Defined.

(** The invariants on the scenario, rows listed. *)
Lemma nonzerosToCSR_invariants_witness :
  let r := nonzerosToCSR (@GoSort.Slice) scenario false in
  sort_contract (@GoSort.Slice) /\ err r = None /\ index r <> [] /\
  (forall k, StronglySorted Z.lt (row_cols r k)) /\
  map (row_cols r) [0; 1; 2]%nat = [[1]; [0; 1]; [0; 1]] /\
  start r !! 0%nat = Some 0 /\
  length (index r) = length (value r) /\
  length (start r) = 3%nat.
Proof.
  intros r.
  assert (err r = None) as Herr by reflexivity.
  assert (index r <> []) as Hout by (vm_compute; discriminate).
  destruct (nonzerosToCSR_invariants (@GoSort.Slice) scenario false
              Slice_contract Herr Hout)
    as (Hcols & _ & _ & Hhead & Hlen & _ & _ & _ & Hrows).
  split; [exact Slice_contract|].
  split; [exact Herr|]. split; [exact Hout|].
  split; [exact Hcols|]. split; [reflexivity|].
  split; [exact Hhead|]. split; [exact Hlen|].
  apply Hrows. intros row. unfold scenario. cbn [map Row].
  rewrite !elem_of_cons, !elem_of_nil. tauto.
Defined.

(** ** nonzerosToCSR: which duplicate survives *)

(** X1: the merge overwrites, it never adds: every (column, value) pair of
    a result is the column and the value of one input entry. *)
Lemma nonzerosToCSR_entries_from_input (sort_Slice : sorter) nz triangular :
  rearranges sort_Slice ->
  let r := nonzerosToCSR sort_Slice nz triangular in
  forall i c v, index r !! i = Some c -> value r !! i = Some v ->
  exists n, n ∈ nz /\ Col n = c /\ Val n = v.
Proof.
  intros C r i c v Hc Hv.
  destruct (nonzerosToCSR_cases sort_Slice nz triangular)
    as [[_ Hr]|[(_ & _ & Hr)|(_ & e & n & Hr & _)]];
    fold r in Hr; rewrite Hr in Hc, Hv; cbn [index value] in Hc, Hv;
    try discriminate.
  rewrite list_lookup_fmap in Hc. rewrite list_lookup_fmap in Hv.
  destruct (merge_runs (sort_Slice Nonzero less_rowcol nz) !! i) as [n|] eqn:Hn;
    [|discriminate].
  simpl in Hc, Hv. injection Hc as <-. injection Hv as <-.
  exists n. split; [|split; reflexivity].
  apply list_elem_of_lookup_2, merge_runs_elem in Hn.
  apply (sorted_elem sort_Slice nz n C). exact Hn.
Qed.

(** Insertion sort never moves an entry past another one with the same
    (row, column): the entries of each key stay in input order. *)
Lemma insert_held_stable (row col : Z) x held :
  filter (fun n => Row n = row /\ Col n = col)
         (rev (insert_held less_rowcol x held)) =
  filter (fun n => Row n = row /\ Col n = col) (rev held ++ [x]).
Proof.
  induction held as [|y held IH]; [reflexivity|].
  cbn [insert_held]. destruct (less_rowcol x y) eqn:Hxy; [|reflexivity].
  cbn [rev]. rewrite !filter_app, IH, !filter_app, <- !app_assoc.
  f_equal. apply less_rowcol_spec in Hxy.
  rewrite !filter_cons, !filter_nil.
  destruct (decide (Row x = row /\ Col x = col)) as [[Hxr Hxc]|Hx];
    destruct (decide (Row y = row /\ Col y = col)) as [[Hyr Hyc]|Hy];
    try reflexivity.
  lia.
Qed.

Lemma insertion_Slice_stable (row col : Z) (nz : list Nonzero) :
  filter (fun n => Row n = row /\ Col n = col)
         (insertion_Slice Nonzero less_rowcol nz) =
  filter (fun n => Row n = row /\ Col n = col) nz.
Proof.
  rewrite insertion_Slice_held.
  assert (forall held,
            filter (fun n => Row n = row /\ Col n = col)
              (rev (fold_left (fun h a => insert_held less_rowcol a h) nz held)) =
            filter (fun n => Row n = row /\ Col n = col) (rev held ++ nz)) as H.
  { induction nz as [|a nz IH]; intros held.
    - simpl. rewrite app_nil_r. reflexivity.
    - cbn [fold_left]. rewrite IH, filter_app, insert_held_stable.
      rewrite <- filter_app, <- app_assoc. reflexivity. }
  apply (H []).
Qed.

(** In an ordered slice the merge keeps, for each key, the entry that comes
    last among those with that key. *)
Lemma merge_runs_last l n :
  ordered_by less_rowcol l -> n ∈ merge_runs l ->
  last (filter (fun m => Row m = Row n /\ Col m = Col n) l) = Some n.
Proof.
  unfold ordered_by. induction l as [|a rest IH]; intros Hl Hn.
  { apply elem_of_nil in Hn. contradiction. }
  destruct rest as [|b rest].
  { apply list_elem_of_singleton in Hn as ->.
    rewrite filter_cons, filter_nil.
    destruct (decide (Row a = Row a /\ Col a = Col a)); [reflexivity|tauto]. }
  apply StronglySorted_inv in Hl as [Hrest Ha].
  rewrite merge_runs_cons2 in Hn.
  assert (n ∈ merge_runs (b :: rest) ->
          last (filter (fun m => Row m = Row n /\ Col m = Col n) (a :: b :: rest))
          = Some n) as Htail.
  { intros Hin. specialize (IH Hrest Hin).
    rewrite filter_cons.
    destruct (decide (Row a = Row n /\ Col a = Col n)); [|exact IH].
    destruct (filter (fun m => Row m = Row n /\ Col m = Col n) (b :: rest))
      as [|c tl]; [discriminate|exact IH]. }
  destruct (same_key a b) eqn:Hk; [auto|].
  apply elem_of_cons in Hn as [->|Hn]; [|auto].
  rewrite filter_cons.
  destruct (decide (Row a = Row a /\ Col a = Col a)); [|tauto].
  assert (filter (fun m => Row m = Row a /\ Col m = Col a) (b :: rest) = [])
    as ->; [|reflexivity].
  apply filter_none. apply Forall_forall. intros y Hy.
  assert (less_rowcol b a = false) as Hba.
  { apply Forall_inv in Ha. exact Ha. }
  assert (less_rowcol y b = false) as Hyb.
  { apply elem_of_cons in Hy as [->|Hy].
    - apply less_rowcol_swo.
    - apply StronglySorted_inv in Hrest as [_ Hb].
      rewrite Forall_forall in Hb. apply Hb. exact Hy. }
  apply less_rowcol_false in Hba. apply less_rowcol_false in Hyb.
  assert (~ (Row a = Row b /\ Col a = Col b)) as Hne.
  { rewrite <- same_key_spec. congruence. }
  lia.
Qed.

(** X2: up to [maxInsertion] entries the merge is last-write-wins: every
    surviving entry carries the value written last for its (row, column). *)
Lemma nonzerosToCSR_last_write_short nz triangular :
  (length nz <= GoSort.maxInsertion)%nat ->
  let r := nonzerosToCSR (@GoSort.Slice) nz triangular in
  let survivors := merge_runs (GoSort.Slice less_rowcol nz) in
  err r = None -> nz <> [] ->
  index r = map Col survivors /\ value r = map Val survivors /\
  forall n, n ∈ survivors -> last_written nz (Row n) (Col n) = Some (Val n).
Proof.
  intros Hlen r survivors Herr Hne.
  destruct (nonzerosToCSR_cases (@GoSort.Slice) nz triangular)
    as [[Hnil _]|[(_ & _ & Hr)|(_ & e & n & Hr & _)]]; [congruence| |].
  2: { fold r in Hr. rewrite Hr in Herr. discriminate. }
  fold r in Hr. rewrite Hr. cbn [index value].
  split; [reflexivity|]. split; [reflexivity|].
  intros n Hn. subst survivors. rewrite Slice_short in Hn by exact Hlen.
  apply merge_runs_last in Hn;
    [|apply (sort_orders _ insertion_Slice_contract), less_rowcol_swo].
  rewrite insertion_Slice_stable in Hn.
  unfold last_written. rewrite Hn. reflexivity.
Qed.

(** C1: on [twice_written], [sort.Slice] moves the first entry of column 9
    behind the second while partitioning, so the merge keeps 1.0, the value
    written first, where the last write was 2.0.  With a sort that keeps
    equal keys in input order the merge keeps 2.0. *)
Theorem nonzerosToCSR_keeps_earlier_write :
  GoSort.Slice less_rowcol twice_written =
  [mkNonzero 0 0 5%float; mkNonzero 0 1 5%float; mkNonzero 0 2 5%float;
   mkNonzero 0 3 5%float; mkNonzero 0 4 5%float; mkNonzero 0 5 5%float;
   mkNonzero 0 6 5%float; mkNonzero 0 7 5%float; mkNonzero 0 8 5%float;
   mkNonzero 0 9 2%float; mkNonzero 0 9 1%float;
   mkNonzero 0 10 5%float; mkNonzero 0 11 5%float] /\
  nonzerosToCSR (@GoSort.Slice) twice_written false =
  mkCsr [0] [0; 1; 2; 3; 4; 5; 6; 7; 8; 9; 10; 11]
        [5%float; 5%float; 5%float; 5%float; 5%float; 5%float; 5%float;
         5%float; 5%float; 1%float; 5%float; 5%float] None /\
  last_written twice_written 0 9 = Some 2%float /\
  nonzerosToCSR insertion_Slice twice_written false =
  mkCsr [0] [0; 1; 2; 3; 4; 5; 6; 7; 8; 9; 10; 11]
        [5%float; 5%float; 5%float; 5%float; 5%float; 5%float; 5%float;
         5%float; 5%float; 2%float; 5%float; 5%float] None.
Proof. repeat split; vm_compute; reflexivity. Qed.

(** The example of the specification, two entries, stays below the
    threshold: insertion sort leaves them in input order and 2.0 survives. *)
Lemma nonzerosToCSR_overwrite_example :
  nonzerosToCSR (@GoSort.Slice)
    [mkNonzero 0 0 1%float; mkNonzero 0 0 2%float] false =
  mkCsr [0] [0] [2%float] None.
Proof. reflexivity. Qed.

(** ** expandSlice *)

Lemma fill_prefix (l : list float64) (f : float64) (k : nat) :
  (k <= length l)%nat ->
  fold_left (fun r i => <[i := f]> r) (seq 0 k) l = replicate k f ++ drop k l.
Proof.
  induction k as [|k IH]; intros Hk; [reflexivity|].
  rewrite seq_S, fold_left_app, IH by lia. cbn [fold_left Nat.add].
  destruct (lookup_lt_is_Some_2 l k ltac:(lia)) as [x Hx].
  rewrite (drop_S l x k Hx).
  replace k with (length (replicate k f) + 0)%nat at 1
    by (rewrite length_replicate; lia).
  rewrite insert_app_r. cbn [list_insert insert].
  rewrite replicate_S_end, <- app_assoc. reflexivity.
Qed.

Lemma fill_replicate (k : nat) (f : float64) :
  fill (replicate k 0%float) f = replicate k f.
Proof.
  unfold fill. rewrite length_replicate.
  rewrite fill_prefix by (rewrite length_replicate; lia).
  rewrite drop_ge by (rewrite length_replicate; lia).
  apply app_nil_r.
Qed.

(** [make([]float64, n)] panics exactly on the lengths [makeslice] refuses:
    the negative ones and those above [2^45]. *)
Lemma make_float64_panics (n : Z) :
  (exists msg, make_float64 n = Panics msg) <-> n < 0 \/ 2 ^ 45 < n.
Proof.
  unfold make_float64, maxAlloc. split.
  - intros [msg H].
    destruct (Z.ltb_spec n 0); [lia|].
    destruct (Z.ltb_spec (2 ^ 48) (n * 8)); [lia|discriminate].
  - intros H.
    destruct (Z.ltb_spec n 0); [eexists; reflexivity|].
    destruct (Z.ltb_spec (2 ^ 48) (n * 8)); [eexists; reflexivity|lia].
Qed.

Lemma make_float64_returns (n : Z) :
  0 <= n <= 2 ^ 45 ->
  make_float64 n = Returns (replicate (Z.to_nat n) 0%float).
Proof.
  intros Hn. unfold make_float64, maxAlloc.
  destruct (Z.ltb_spec n 0); [lia|].
  destruct (Z.ltb_spec (2 ^ 48) (n * 8)); [lia|reflexivity].
Qed.

Lemma make_float64_result (n : Z) (result : list float64) :
  make_float64 n = Returns result ->
  0 <= n <= 2 ^ 45 /\ result = replicate (Z.to_nat n) 0%float.
Proof.
  unfold make_float64, maxAlloc. intros H.
  destruct (Z.ltb_spec n 0); [discriminate|].
  destruct (Z.ltb_spec (2 ^ 48) (n * 8)); [discriminate|].
  cbn [orb] in H. injection H as <-. split; [lia|reflexivity].
Qed.

(** C7, as amended: whatever [n] is, [expandSlice] returns the slice itself
    when its length is [n] and fails with InconsistentLength when the slice
    is non-empty with another length.  An empty slice with [n <> 0] goes to
    [make([]float64, n)]: when [make] returns, the result is [n] copies of
    the fill value; when [make] panics, so does [expandSlice]; and [make]
    panics exactly for [n < 0] and for [n > 2^45]. *)
Theorem expandSlice_spec (n : Z) (slice : list float64) (fillValue : float64) :
  (Z.of_nat (length slice) = n ->
   expandSlice n slice fillValue = Returns (slice, None)) /\
  (slice <> [] -> Z.of_nat (length slice) <> n ->
   expandSlice n slice fillValue = Returns ([], Some InconsistentLength)) /\
  (slice = [] -> n <> 0 ->
   (forall result, make_float64 n = Returns result ->
      expandSlice n slice fillValue =
      Returns (replicate (Z.to_nat n) fillValue, None)) /\
   (forall msg, make_float64 n = Panics msg ->
      expandSlice n slice fillValue = Panics msg)) /\
  ((exists msg, make_float64 n = Panics msg) <-> n < 0 \/ 2 ^ 45 < n).
Proof.
  unfold expandSlice. split; [|split; [|split]].
  - intros Hlen. apply Z.eqb_eq in Hlen. rewrite Hlen. reflexivity.
  - intros Hne Hlen. apply Z.eqb_neq in Hlen. rewrite Hlen.
    destruct slice as [|x slice]; [congruence|]. reflexivity.
  - intros -> Hn0. change (Z.of_nat (length (@nil float64))) with 0.
    destruct (Z.eqb_spec 0 n) as [<-|_]; [congruence|].
    cbn [length Nat.eqb]. split.
    + intros result H. rewrite H.
      apply make_float64_result in H as [_ ->].
      rewrite fill_replicate. reflexivity.
    + intros msg H. rewrite H. reflexivity.
  - apply make_float64_panics.
Qed.

(** The examples of the specification, one length [make] accepts and two
    it refuses. *)
Lemma expandSlice_spec_witness :
  expandSlice 3 [] 7%float = Returns ([7%float; 7%float; 7%float], None) /\
  expandSlice 3 [1%float; 2%float; 3%float] 0%float =
  Returns ([1%float; 2%float; 3%float], None) /\
  expandSlice 3 [1%float; 2%float] 0%float =
  Returns ([], Some InconsistentLength) /\
  expandSlice (-1) [1%float; 2%float] 0%float =
  Returns ([], Some InconsistentLength) /\
  expandSlice (2 ^ 45 + 1) [] 7%float = Panics "makeslice: len out of range" /\
  ((exists msg, make_float64 (2 ^ 45 + 1) = Panics msg) <->
   2 ^ 45 + 1 < 0 \/ 2 ^ 45 < 2 ^ 45 + 1).
Proof.
  split; [|split; [|split; [|split; [|split]]]].
  - destruct (expandSlice_spec 3 [] 7%float) as (_ & _ & Hfill & _).
    destruct (Hfill eq_refl ltac:(discriminate)) as [Hmade _].
    exact (Hmade _ eq_refl).
  - destruct (expandSlice_spec 3 [1%float; 2%float; 3%float] 0%float)
      as (Hsame & _).
    exact (Hsame eq_refl).
  - destruct (expandSlice_spec 3 [1%float; 2%float] 0%float)
      as (_ & Hbad & _).
    apply Hbad; [discriminate|simpl; lia].
  - destruct (expandSlice_spec (-1) [1%float; 2%float] 0%float)
      as (_ & Hbad & _).
    apply Hbad; [discriminate|simpl; lia].
  - destruct (expandSlice_spec (2 ^ 45 + 1) [] 7%float) as (_ & _ & Hfill & _).
    destruct (Hfill eq_refl ltac:(discriminate)) as [_ Hpanic].
    exact (Hpanic _ eq_refl).
  - destruct (expandSlice_spec (2 ^ 45 + 1) [] 7%float) as (_ & _ & _ & Hmake).
    exact Hmake.
Defined.

(** C7, counterexample: a negative [n] with an empty slice reaches
    [make([]float64, n)], which panics; nothing is returned. *)
Lemma expandSlice_negative_counterexample :
  expandSlice (-1) [] 7%float = Panics "makeslice: len out of range" /\
  ~ exists result, expandSlice (-1) [] 7%float = Returns result.
Proof.
  split; [reflexivity|]. intros [result H]. discriminate.
Qed.

(** The same happens at the other end: more than [2^45] elements are more
    than [make] serves. *)
Lemma expandSlice_oversized_panics :
  expandSlice (2 ^ 50) [] 7%float = Panics "makeslice: len out of range" /\
  ~ exists result, expandSlice (2 ^ 50) [] 7%float = Returns result.
Proof.
  split; [reflexivity|]. intros [result H]. discriminate.
Qed.

(** ** maxRowCol *)

Lemma maxRowCol_fold nz a b :
  let r :=
    fold_left
      (fun '(maxRow, maxCol) n =>
         let maxRow := if Row n >? maxRow then Row n else maxRow in
         let maxCol := if Col n >? maxCol then Col n else maxCol in
         (maxRow, maxCol)) nz (a, b) in
  (a <= fst r /\ b <= snd r) /\
  (forall n, n ∈ nz -> Row n <= fst r /\ Col n <= snd r) /\
  (fst r = a \/ exists n, n ∈ nz /\ Row n = fst r) /\
  (snd r = b \/ exists n, n ∈ nz /\ Col n = snd r).
Proof.
  revert a b. induction nz as [|m nz IH]; intros a b; cbn [fold_left].
  - cbn [fst snd]. repeat split; try lia; try (left; reflexivity).
    + apply elem_of_nil in H. contradiction.
    + apply elem_of_nil in H. contradiction.
  - set (a' := if Row m >? a then Row m else a).
    set (b' := if Col m >? b then Col m else b).
    assert (a <= a' /\ Row m <= a' /\ (a' = a \/ a' = Row m)) as (Ha1 & Ha2 & Ha3).
    { subst a'. destruct (Row m >? a) eqn:E; rewrite Z.gtb_ltb in E;
        [apply Z.ltb_lt in E|apply Z.ltb_ge in E]; lia. }
    assert (b <= b' /\ Col m <= b' /\ (b' = b \/ b' = Col m)) as (Hb1 & Hb2 & Hb3).
    { subst b'. destruct (Col m >? b) eqn:E; rewrite Z.gtb_ltb in E;
        [apply Z.ltb_lt in E|apply Z.ltb_ge in E]; lia. }
    specialize (IH a' b'). cbv zeta in IH.
    destruct IH as ((I1 & I2) & I3 & I4 & I5).
    split; [split; lia|]. split; [|split].
    + intros n Hn. apply elem_of_cons in Hn as [->|Hn]; [lia|].
      apply I3. exact Hn.
    + destruct I4 as [I4|(n & Hn & I4)].
      * destruct Ha3 as [Ha3|Ha3]; [left; congruence|].
        right. exists m. split; [left|congruence].
      * right. exists n. split; [right; exact Hn|exact I4].
    + destruct I5 as [I5|(n & Hn & I5)].
      * destruct Hb3 as [Hb3|Hb3]; [left; congruence|].
        right. exists m. split; [left|congruence].
      * right. exists n. split; [right; exact Hn|exact I5].
Qed.

(** C8, as amended: [maxRowCol] returns, for rows and for columns, the
    larger of -1 and the largest index in the slice: an upper bound of all
    indices that is -1 or attained, and attained as soon as some index is at
    least -1; on the empty slice both results are -1. *)
Theorem maxRowCol_spec (nz : list Nonzero) :
  let r := maxRowCol nz in
  maxRowCol [] = (-1, -1) /\
  (-1 <= fst r /\ -1 <= snd r) /\
  (forall n, n ∈ nz -> Row n <= fst r /\ Col n <= snd r) /\
  (fst r = -1 \/ exists n, n ∈ nz /\ Row n = fst r) /\
  (snd r = -1 \/ exists n, n ∈ nz /\ Col n = snd r) /\
  ((exists n, n ∈ nz /\ -1 <= Row n) -> exists n, n ∈ nz /\ Row n = fst r) /\
  ((exists n, n ∈ nz /\ -1 <= Col n) -> exists n, n ∈ nz /\ Col n = snd r).
Proof.
  intros r. pose proof (maxRowCol_fold nz (-1) (-1)) as H.
  cbv zeta in H. change (fold_left _ nz (-1, -1)) with r in H.
  clearbody r. destruct H as (Hlow & Hub & Hrow & Hcol).
  split; [reflexivity|]. split; [exact Hlow|]. split; [exact Hub|].
  split; [exact Hrow|]. split; [exact Hcol|]. split.
  - intros (n & Hn & Hge). destruct Hrow as [Hrow|Hrow]; [|exact Hrow].
    exists n. split; [exact Hn|]. destruct (Hub n Hn) as [Hle _]. lia.
  - intros (n & Hn & Hge). destruct Hcol as [Hcol|Hcol]; [|exact Hcol].
    exists n. split; [exact Hn|]. destruct (Hub n Hn) as [_ Hle]. lia.
Qed.

(** C8, counterexample: a single entry at (-2, -3).  The largest row in the
    slice is -2 and the largest column -3, but the scan starts from -1 and
    returns (-1, -1). *)
Lemma maxRowCol_negative_counterexample :
  let nz := [mkNonzero (-2) (-3) 1%float] in
  maxRowCol nz = (-1, -1) /\
  (forall n, n ∈ nz -> Row n = -2 /\ Col n = -3) /\
  ~ (exists n, n ∈ nz /\ Row n = fst (maxRowCol nz)) /\
  ~ (exists n, n ∈ nz /\ Col n = snd (maxRowCol nz)).
Proof.
  cbv zeta. split; [reflexivity|].
  assert (forall n, n ∈ [mkNonzero (-2) (-3) 1%float] -> Row n = -2 /\ Col n = -3)
    as Hall.
  { intros n Hn. apply elem_of_cons in Hn as [->|Hn]; [split; reflexivity|].
    apply elem_of_nil in Hn. contradiction. }
  split; [exact Hall|]. split.
  - intros (n & Hn & Heq). destruct (Hall n Hn) as [Hr _].
    change (fst (maxRowCol [mkNonzero (-2) (-3) 1%float])) with (-1) in Heq. lia.
  - intros (n & Hn & Heq). destruct (Hall n Hn) as [_ Hc].
    change (snd (maxRowCol [mkNonzero (-2) (-3) 1%float])) with (-1) in Heq. lia.
Qed.

(** ** Model.AddDenseRow *)

Lemma dense_entries_cons row col val rest :
  dense_entries row col (val :: rest) =
  (if float_ne_zero val then [mkNonzero row (Z.of_nat col) val] else []) ++
  dense_entries row (S col) rest.
Proof.
  unfold dense_entries. rewrite imap_cons, filter_cons. cbn [Val].
  rewrite Nat.add_0_r.
  assert (imap ((fun i v => mkNonzero row (Z.of_nat (col + i)) v) ∘ S) rest =
          imap (fun i v => mkNonzero row (Z.of_nat (S col + i)) v) rest) as ->.
  { apply imap_ext. intros i x _. simpl. do 2 f_equal. lia. }
  destruct (float_ne_zero val); simpl; reflexivity.
Qed.

Lemma addCoeffs_spec constMatrix row col coeffs :
  addCoeffs constMatrix row col coeffs =
  constMatrix ++ dense_entries row col coeffs.
Proof.
  revert constMatrix col.
  induction coeffs as [|val rest IH]; intros constMatrix col.
  - unfold dense_entries. simpl. rewrite app_nil_r. reflexivity.
  - cbn [addCoeffs]. rewrite IH, dense_entries_cons.
    destruct (float_ne_zero val); [rewrite <- app_assoc|]; reflexivity.
Qed.

Lemma dense_entries_cols row col coeffs :
  Forall (fun n => Z.of_nat col <= Col n) (dense_entries row col coeffs).
Proof.
  revert col. induction coeffs as [|val rest IH]; intros col.
  - unfold dense_entries. simpl. constructor.
  - rewrite dense_entries_cons. apply Forall_app. split.
    + destruct (float_ne_zero val); repeat constructor. simpl. lia.
    + eapply Forall_impl; [apply IH|]. simpl. intros n. lia.
Qed.

Lemma dense_entries_at row col coeffs i :
  filter (fun n => Col n = Z.of_nat (col + i)) (dense_entries row col coeffs) =
  match coeffs !! i with
  | Some val =>
      if float_ne_zero val then [mkNonzero row (Z.of_nat (col + i)) val] else []
  | None => []
  end.
Proof.
  revert col i. induction coeffs as [|val rest IH]; intros col i.
  - unfold dense_entries. simpl. destruct i; reflexivity.
  - rewrite dense_entries_cons, filter_app. destruct i as [|i]; cbn [lookup list_lookup].
    + rewrite Nat.add_0_r.
      assert (filter (fun n => Col n = Z.of_nat col) (dense_entries row (S col) rest)
              = []) as ->.
      { apply filter_none.
        eapply Forall_impl; [apply dense_entries_cols|]. simpl. intros n. lia. }
      rewrite app_nil_r. destruct (float_ne_zero val); [|reflexivity].
      rewrite filter_cons. cbn [Col].
      destruct (decide (Z.of_nat col = Z.of_nat col)); [reflexivity|congruence].
    + replace (col + S i)%nat with (S col + i)%nat by lia.
      rewrite IH.
      assert (filter (fun n => Col n = Z.of_nat (S col + i))
                (if float_ne_zero val then [mkNonzero row (Z.of_nat col) val]
                 else []) = []) as ->; [|reflexivity].
      destruct (float_ne_zero val); [|reflexivity].
      rewrite filter_cons. cbn [Col].
      destruct (decide (Z.of_nat col = Z.of_nat (S col + i))); [lia|reflexivity].
Qed.

(** C9: [AddDenseRow] appends [lower] to RowLower and [upper] to RowUpper,
    appends to ConstMatrix exactly one entry (r, i, coeffs[i]) for every column
    [i] whose coefficient is not zero, with [r] the number of rows before the
    call, none for a zero coefficient, and leaves every other field alone. *)
Theorem AddDenseRow_effect (m : Model) (lower : float64)
  (coeffs : list float64) (upper : float64) :
  let m' := AddDenseRow m lower coeffs upper in
  let r := Z.of_nat (length (RowLower m)) in
  RowLower m' = RowLower m ++ [lower] /\
  RowUpper m' = RowUpper m ++ [upper] /\
  (exists added,
     ConstMatrix m' = ConstMatrix m ++ added /\
     added = dense_entries r 0 coeffs /\
     (forall i val, coeffs !! i = Some val -> float_ne_zero val = true ->
        filter (fun n => Col n = Z.of_nat i) added =
        [mkNonzero r (Z.of_nat i) val]) /\
     (forall i val, coeffs !! i = Some val -> float_ne_zero val = false ->
        filter (fun n => Col n = Z.of_nat i) added = []) /\
     (forall n, n ∈ added ->
        exists i val, coeffs !! i = Some val /\ float_ne_zero val = true /\
                      n = mkNonzero r (Z.of_nat i) val)) /\
  Maximize m' = Maximize m /\ Offset m' = Offset m /\
  ColCosts m' = ColCosts m /\ ColLower m' = ColLower m /\
  ColUpper m' = ColUpper m /\ Hessian m' = Hessian m /\
  VarTypes m' = VarTypes m.
Proof.
  intros m' r. split; [reflexivity|]. split; [reflexivity|].
  split; [|repeat split; reflexivity].
  exists (dense_entries r 0 coeffs).
  split; [apply addCoeffs_spec|]. split; [reflexivity|].
  split; [|split].
  - intros i val Hi Hv.
    pose proof (dense_entries_at r 0 coeffs i) as H.
    rewrite Hi, Hv in H. exact H.
  - intros i val Hi Hv.
    pose proof (dense_entries_at r 0 coeffs i) as H.
    rewrite Hi, Hv in H. exact H.
  - intros n Hn. unfold dense_entries in Hn.
    apply list_elem_of_filter in Hn as [Hv Hn].
    apply elem_of_lookup_imap in Hn as (i & val & -> & Hi).
    exists i, val. cbn [Val] in Hv. repeat split; assumption.
Qed.

(** ** Solution.Value *)

(** C10: [Value] returns [ColValues[index]] for an index inside the slice
    and 0 for every other index; it never panics. *)
Theorem Value_spec (s : Solution) (index : Z) :
  (0 <= index < Z.of_nat (length (ColValues s)) ->
   exists v, ColValues s !! Z.to_nat index = Some v /\
             Value s index = Returns v) /\
  (index < 0 \/ Z.of_nat (length (ColValues s)) <= index ->
   Value s index = Returns 0%float) /\
  (exists v, Value s index = Returns v).
Proof.
  unfold Value.
  destruct (Z.ltb_spec index 0) as [Hneg|Hnn]; cbn [orb].
  { split; [lia|]. split; [reflexivity|]. eexists; reflexivity. }
  destruct (Z.geb_spec index (Z.of_nat (length (ColValues s)))) as [Hge|Hlt].
  { split; [lia|]. split; [reflexivity|]. eexists; reflexivity. }
  destruct (lookup_lt_is_Some_2 (ColValues s) (Z.to_nat index) ltac:(lia))
    as [v Hv].
  rewrite Hv. split; [|split].
  - intros _. exists v. split; reflexivity.
  - lia.
  - exists v. reflexivity.
Qed.

(** ** nonzerosToCSR: which duplicate survives, on two inputs *)

(** The first pair of the scenario's result comes from one of its triples. *)
Lemma nonzerosToCSR_entries_from_input_witness :
  rearranges (@GoSort.Slice) /\
  exists n, n ∈ scenario /\ Col n = 1 /\ Val n = 1%float.
Proof.
  split; [exact Slice_rearranges|].
  apply (nonzerosToCSR_entries_from_input (@GoSort.Slice) scenario false
           Slice_rearranges 0%nat 1 1%float); reflexivity.
Defined.

(** Two writes to (0, 0): the second value is the one kept. *)
Lemma nonzerosToCSR_last_write_short_witness :
  let nz := [mkNonzero 0 0 1%float; mkNonzero 0 0 2%float] in
  (length nz <= GoSort.maxInsertion)%nat /\
  value (nonzerosToCSR (@GoSort.Slice) nz false) = [2%float] /\
  last_written nz 0 0 = Some 2%float.
Proof.
  cbv zeta.
  assert (length [mkNonzero 0 0 1%float; mkNonzero 0 0 2%float]
          <= GoSort.maxInsertion)%nat as Hlen by (vm_compute; lia).
  split; [exact Hlen|]. split; [reflexivity|].
  destruct (nonzerosToCSR_last_write_short
              [mkNonzero 0 0 1%float; mkNonzero 0 0 2%float] false Hlen
              eq_refl ltac:(discriminate)) as (_ & _ & H).
  apply (H (mkNonzero 0 0 2%float)).
  change (mkNonzero 0 0 2%float ∈ [mkNonzero 0 0 2%float]).
  apply list_elem_of_singleton. reflexivity.
Defined.

(** ** nonzerosToCSR: more on a result *)

Lemma passes_weaken (triangular : bool) (n : Nonzero) :
  passes triangular n -> passes false n.
Proof. intros (H1 & H2 & _). repeat split; try assumption. discriminate. Qed.

(** X3: the [triangular] flag only validates.  When [nonzerosToCSR] succeeds
    with the flag set, it returns exactly what it returns without it. *)
Theorem nonzerosToCSR_flag_only_checks (sort_Slice : sorter) (nz : list Nonzero) :
  err (nonzerosToCSR sort_Slice nz true) = None ->
  nonzerosToCSR sort_Slice nz true = nonzerosToCSR sort_Slice nz false.
Proof.
  intros Herr.
  destruct (nonzerosToCSR_cases sort_Slice nz true)
    as [[-> _]|[(Hne & Hpass & _)|(_ & e & n & Hr & _)]].
  - reflexivity.
  - rewrite (nonzerosToCSR_passes sort_Slice nz true Hne Hpass).
    rewrite (nonzerosToCSR_passes sort_Slice nz false Hne); [reflexivity|].
    eapply Forall_impl; [exact Hpass|]. apply passes_weaken.
  - rewrite Hr in Herr. discriminate.
Qed.

(** An upper-triangular input, given out of order. *)
Lemma nonzerosToCSR_flag_only_checks_witness :
  let nz := [mkNonzero 1 1 2%float; mkNonzero 0 1 1%float;
             mkNonzero 0 0 4%float] in
  err (nonzerosToCSR (@GoSort.Slice) nz true) = None /\
  nonzerosToCSR (@GoSort.Slice) nz true =
  nonzerosToCSR (@GoSort.Slice) nz false.
Proof.
  cbv zeta. split; [reflexivity|].
  apply nonzerosToCSR_flag_only_checks. reflexivity.
Defined.

Lemma nonzerosToCSR_shape (sort_Slice : sorter) (nz : list Nonzero)
  (triangular : bool) :
  let r := nonzerosToCSR sort_Slice nz triangular in
  err r = None ->
  StronglySorted Z.lt (start r) /\
  Forall (fun s => 0 <= s < len (index r)) (start r) /\
  Forall (fun c => 0 <= c) (index r) /\
  length (index r) = length (value r) /\
  (rearranges sort_Slice ->
   Forall (fun c => exists n, n ∈ nz /\ Col n = c) (index r)).
Proof.
  intros r Herr. subst r.
  destruct (nonzerosToCSR_cases sort_Slice nz triangular)
    as [[_ Hr]|[(Hne & Hpass & Hr)|(_ & e & n & Hr & _)]].
  - rewrite Hr. cbn. repeat split; constructor.
  - rewrite Hr. cbn [start index value]. split; [apply row_starts_increasing|].
    split; [|split; [|split]].
    + pose proof (row_starts_bounds
                    (merge_runs (sort_Slice Nonzero less_rowcol nz)) 0 (-1))
        as Hb.
      eapply Forall_impl; [exact Hb|]. cbn beta. intros s Hs.
      unfold len. rewrite length_map. lia.
    + apply Forall_forall. intros c Hc.
      apply list_elem_of_fmap in Hc as (x & -> & Hx).
      apply merge_runs_elem in Hx.
      rewrite Forall_forall in Hpass. destruct (Hpass x Hx) as (_ & H & _).
      exact H.
    + rewrite !length_map. reflexivity.
    + intros Hperm. apply Forall_forall. intros c Hc.
      apply list_elem_of_fmap in Hc as (x & -> & Hx).
      apply merge_runs_elem in Hx.
      apply (sorted_elem sort_Slice nz x Hperm) in Hx.
      exists x. split; [exact Hx|reflexivity].
  - rewrite Hr in Herr. discriminate.
Qed.

(** X4: on success the row offsets in [start] increase strictly, each one
    points inside [index], and no column index is negative. *)
Theorem nonzerosToCSR_offsets (sort_Slice : sorter) (nz : list Nonzero)
  (triangular : bool) :
  let r := nonzerosToCSR sort_Slice nz triangular in
  err r = None ->
  StronglySorted Z.lt (start r) /\
  Forall (fun s => 0 <= s < len (index r)) (start r) /\
  Forall (fun c => 0 <= c) (index r).
Proof.
  intros r Herr.
  destruct (nonzerosToCSR_shape sort_Slice nz triangular Herr)
    as (H1 & H2 & H3 & _).
  auto.
Qed.

(** The offsets of the scenario. *)
Lemma nonzerosToCSR_offsets_witness :
  let r := nonzerosToCSR (@GoSort.Slice) scenario false in
  err r = None /\
  StronglySorted Z.lt (start r) /\
  Forall (fun s => 0 <= s < len (index r)) (start r) /\
  Forall (fun c => 0 <= c) (index r).
Proof.
  cbv zeta. split; [reflexivity|].
  apply (nonzerosToCSR_offsets (@GoSort.Slice) scenario false). reflexivity.
Defined.

(** *** An input already in CSR order *)

Lemma key_lt_not_less (x y : Nonzero) : key_lt x y -> less_rowcol y x = false.
Proof. intros H. apply less_rowcol_false. unfold key_lt in H. lia. Qed.

Lemma strict_ordered_by (l : list Nonzero) :
  StronglySorted key_lt l -> ordered_by less_rowcol l.
Proof.
  unfold ordered_by. apply StronglySorted_weaken. exact key_lt_not_less.
Qed.

Lemma merge_runs_strict_id (l : list Nonzero) :
  StronglySorted key_lt l -> merge_runs l = l.
Proof.
  induction l as [|n [|m rest] IH]; intros Hs; try reflexivity.
  rewrite merge_runs_cons2.
  apply StronglySorted_inv in Hs as [Hrest Hall].
  apply Forall_cons in Hall as [Hnm _].
  destruct (same_key n m) eqn:Hk.
  - apply same_key_spec in Hk. unfold key_lt in Hnm. lia.
  - f_equal. apply IH. exact Hrest.
Qed.

Lemma sort_strict_id (sort_Slice : sorter) (l : list Nonzero) :
  sort_contract sort_Slice -> StronglySorted key_lt l ->
  sort_Slice Nonzero less_rowcol l = l.
Proof.
  intros C Hs. symmetry. apply ordered_unique.
  - apply NoDup_keys_agreeing, strict_keys_NoDup, Hs.
  - apply strict_ordered_by, Hs.
  - apply (sort_orders _ C), less_rowcol_swo.
  - symmetry. apply (sort_permutes _ C).
Qed.

Lemma row_starts_opens (F : list Nonzero) : forall (i : nat) (prev : Z) (k : nat),
  rows_ascend F -> Forall (fun a => prev <= Row a) F ->
  Z.of_nat (i + k) ∈ row_starts F i prev <->
  exists x, F !! k = Some x /\
            match k with
            | O => prev < Row x
            | S k' => exists p, F !! k' = Some p /\ Row p < Row x
            end.
Proof.
  induction F as [|n rest IH]; intros i prev k Hasc Hprev.
  { cbn. split; [intros H; apply elem_of_nil in H; contradiction|].
    intros (x & Hx & _). rewrite lookup_nil in Hx. discriminate. }
  apply StronglySorted_inv in Hasc as [Hasc Hn].
  apply Forall_cons in Hprev as [Hpn Hprev].
  cbn [row_starts].
  pose proof (row_starts_bounds rest (S i)) as Hb.
  assert (forall prev', Z.of_nat i ∉ row_starts rest (S i) prev') as Hnot.
  { intros prev' Hin. specialize (Hb prev'). rewrite Forall_forall in Hb.
    specialize (Hb _ Hin). lia. }
  assert (row_starts rest (S i) (if Row n >? prev then Row n else prev) =
          row_starts rest (S i) (Row n)) as Hsame.
  { destruct (Row n >? prev) eqn:E; [reflexivity|].
    rewrite Z.gtb_ltb in E; apply Z.ltb_ge in E. f_equal. lia. }
  destruct k as [|k'].
  - rewrite Nat.add_0_r. cbn [lookup list_lookup].
    destruct (Row n >? prev) eqn:E.
    + split; [|intros _; apply elem_of_cons; left; reflexivity].
      intros _. exists n. split; [reflexivity|].
      apply Z.gtb_lt in E. lia.
    + split; [intros H; apply Hnot in H; contradiction|].
      intros (x & Hx & Hlt). injection Hx as <-.
      rewrite Z.gtb_ltb in E; apply Z.ltb_ge in E. lia.
  - replace (i + S k')%nat with (S i + k')%nat by lia.
    assert (Z.of_nat (S i + k') ∈
              (if Row n >? prev
               then Z.of_nat i :: row_starts rest (S i) (Row n)
               else row_starts rest (S i) prev) <->
            Z.of_nat (S i + k') ∈ row_starts rest (S i) (Row n)) as ->.
    { destruct (Row n >? prev) eqn:E.
      - rewrite elem_of_cons. split; [intros [H|H]; [lia|exact H]|auto].
      - rewrite Hsame. reflexivity. }
    rewrite (IH (S i) (Row n) k' Hasc Hn).
    cbn [lookup list_lookup].
    split; intros (x & Hx & Hm); exists x; (split; [exact Hx|]).
    + destruct k' as [|k'']; [exists n; split; [reflexivity|exact Hm]|].
      exact Hm.
    + destruct k' as [|k'']; [|exact Hm].
      destruct Hm as (p & Hp & Hlt). injection Hp as <-. exact Hlt.
Qed.

Lemma nonzerosToCSR_strict (sort_Slice : sorter) (nz : list Nonzero)
  (triangular : bool) :
  sort_contract sort_Slice ->
  StronglySorted key_lt nz -> Forall (passes triangular) nz ->
  nonzerosToCSR sort_Slice nz triangular =
  mkCsr (row_starts nz 0 (-1)) (map Col nz) (map Val nz) None.
Proof.
  intros C Hs Hpass. destruct nz as [|n0 nz0]; [reflexivity|].
  set (nz := n0 :: nz0) in *.
  pose proof (sort_strict_id sort_Slice nz C Hs) as Hsort.
  rewrite (nonzerosToCSR_passes sort_Slice nz triangular); [|discriminate|].
  2: { rewrite Hsort. exact Hpass. }
  cbv zeta. rewrite Hsort, (merge_runs_strict_id nz Hs). reflexivity.
Qed.

(** X5: an input already in CSR order (keys strictly increasing, every
    entry valid) is taken over as it is: [index] and [value] list its
    columns and values in input order, and [start] holds the positions at
    which the row changes. *)
Theorem nonzerosToCSR_ordered_input (sort_Slice : sorter) (nz : list Nonzero)
  (triangular : bool) :
  sort_contract sort_Slice ->
  StronglySorted key_lt nz -> Forall (passes triangular) nz ->
  let r := nonzerosToCSR sort_Slice nz triangular in
  err r = None /\ index r = map Col nz /\ value r = map Val nz /\
  forall i : nat,
    Z.of_nat i ∈ start r <->
    exists x, nz !! i = Some x /\
              (i = O \/ exists p, nz !! (i - 1)%nat = Some p /\ Row p < Row x).
Proof.
  intros C Hs Hpass r. subst r.
  rewrite (nonzerosToCSR_strict sort_Slice nz triangular C Hs Hpass).
  cbn [err index value start]. repeat split; try reflexivity.
  - intros Hin.
    apply (row_starts_opens nz 0 (-1) i) in Hin.
    + destruct Hin as (x & Hx & Hm). exists x. split; [exact Hx|].
      destruct i as [|i']; [left; reflexivity|right].
      replace (S i' - 1)%nat with i' by lia. exact Hm.
    + apply strict_rows_ascend, Hs.
    + eapply Forall_impl; [exact Hpass|]. intros a (Ha & _). lia.
  - intros (x & Hx & Hm).
    apply (row_starts_opens nz 0 (-1) i).
    + apply strict_rows_ascend, Hs.
    + eapply Forall_impl; [exact Hpass|]. intros a (Ha & _). lia.
    + exists x. split; [exact Hx|].
      destruct i as [|i'].
      * rewrite Forall_forall in Hpass.
        apply list_elem_of_lookup_2 in Hx. destruct (Hpass x Hx) as (H0 & _).
        lia.
      * destruct Hm as [Hm|Hm]; [discriminate|].
        replace (S i' - 1)%nat with i' in Hm by lia. exact Hm.
Qed.

(** Rows 0 and 2, in order, with an explicit zero: nothing moves, and
    position 1 opens a row. *)
Lemma nonzerosToCSR_ordered_input_witness :
  let nz := [mkNonzero 0 1 1%float; mkNonzero 2 0 3%float;
             mkNonzero 2 2 0%float] in
  let r := nonzerosToCSR (@GoSort.Slice) nz false in
  err r = None /\ index r = [1; 0; 2] /\ value r = [1%float; 3%float; 0%float] /\
  (Z.of_nat 1 ∈ start r <->
   exists x, nz !! 1%nat = Some x /\
             (1%nat = O \/ exists p, nz !! (1 - 1)%nat = Some p /\ Row p < Row x)).
Proof.
  cbv zeta.
  destruct (nonzerosToCSR_ordered_input (@GoSort.Slice)
              [mkNonzero 0 1 1%float; mkNonzero 2 0 3%float;
               mkNonzero 2 2 0%float] false Slice_contract)
    as (H1 & H2 & H3 & H4).
  - repeat (constructor; [repeat constructor; unfold key_lt; cbn; lia|]).
    constructor.
  - repeat constructor; cbn; try lia; discriminate.
  - split; [exact H1|]. split; [exact H2|]. split; [exact H3|]. exact (H4 1%nat).
Defined.

(** *** Renumbering the rows *)

Section renumbering.

Variable f : Z -> Z.
Hypothesis f_increasing : forall x y, x < y -> f x < f y.

Let g (n : Nonzero) : Nonzero :=
  {| Row := f (Row n); Col := Col n; Val := Val n |}.

Lemma f_injective x y : f x = f y -> x = y.
Proof.
  intros H. destruct (Z.lt_trichotomy x y) as [Hlt|[Heq|Hgt]]; [|exact Heq|].
  - apply f_increasing in Hlt. lia.
  - apply f_increasing in Hgt. lia.
Qed.

Lemma f_lt_iff x y : f x < f y <-> x < y.
Proof.
  split; [|apply f_increasing].
  intros H. destruct (Z.lt_trichotomy x y) as [Hlt|[Heq|Hgt]]; [exact Hlt| |].
  - subst. lia.
  - apply f_increasing in Hgt. lia.
Qed.

Lemma less_rowcol_renumber x y : less_rowcol (g x) (g y) = less_rowcol x y.
Proof.
  apply eq_true_iff_eq. rewrite !less_rowcol_spec. cbn [g Row Col].
  rewrite f_lt_iff. split; (intros [H|[H1 H2]]; [left; exact H|right]).
  - split; [apply f_injective; exact H1|exact H2].
  - split; [congruence|exact H2].
Qed.

Lemma same_key_renumber x y : same_key (g x) (g y) = same_key x y.
Proof.
  apply eq_true_iff_eq. rewrite !same_key_spec. cbn [g Row Col].
  split; intros [H1 H2]; (split; [|exact H2]).
  - apply f_injective; exact H1.
  - congruence.
Qed.

Lemma merge_runs_renumber (l : list Nonzero) :
  merge_runs (map g l) = map g (merge_runs l).
Proof.
  induction l as [|n [|m rest] IH]; try reflexivity.
  change (map g (n :: m :: rest)) with (g n :: g m :: map g rest).
  rewrite !merge_runs_cons2, same_key_renumber.
  change (g m :: map g rest) with (map g (m :: rest)). rewrite IH.
  destruct (same_key n m); reflexivity.
Qed.

Lemma row_starts_renumber (F : list Nonzero) : forall (i : nat) (prev : Z),
  row_starts (map g F) i (f prev) = row_starts F i prev.
Proof.
  induction F as [|n rest IH]; intros i prev; [reflexivity|].
  cbn [map row_starts g Row].
  assert ((f (Row n) >? f prev) = (Row n >? prev)) as ->.
  { apply eq_true_iff_eq. rewrite <- !Zgt_is_gt_bool.
    pose proof (f_lt_iff prev (Row n)). lia. }
  destruct (Row n >? prev); rewrite IH; reflexivity.
Qed.

Lemma row_starts_renumber_first (F : list Nonzero) (i : nat) :
  Forall (fun a => 0 <= Row a) F -> Forall (fun a => 0 <= f (Row a)) F ->
  row_starts (map g F) i (-1) = row_starts F i (-1).
Proof.
  intros H1 H2. destruct F as [|n rest]; [reflexivity|].
  apply Forall_cons in H1 as [H1 _]. apply Forall_cons in H2 as [H2 _].
  cbn [map row_starts g Row].
  replace (f (Row n) >? -1) with true by (symmetry; apply Z.gtb_lt; lia).
  replace (Row n >? -1) with true by (symmetry; apply Z.gtb_lt; lia).
  rewrite row_starts_renumber. reflexivity.
Qed.

Lemma sorted_renumber (sort_Slice : sorter) (nz : list Nonzero) :
  sort_contract sort_Slice -> agreeing_duplicates nz ->
  sort_Slice Nonzero less_rowcol (map g nz) =
  map g (sort_Slice Nonzero less_rowcol nz).
Proof.
  intros C Hagree. symmetry. apply ordered_unique.
  - intros x' y' Hx Hy Hrow Hcol.
    apply list_elem_of_fmap in Hx as (x & -> & Hx).
    apply list_elem_of_fmap in Hy as (y & -> & Hy).
    apply (sorted_elem sort_Slice nz _ (sort_permutes _ C)) in Hx, Hy.
    cbn [g Row Col Val] in *. apply Hagree; try assumption.
    apply f_injective. exact Hrow.
  - unfold ordered_by.
    apply (StronglySorted_fmap g (fun x y => less_rowcol y x = false)).
    + intros x y H. rewrite less_rowcol_renumber. exact H.
    + apply (sort_orders _ C), less_rowcol_swo.
  - apply (sort_orders _ C), less_rowcol_swo.
  - rewrite (sort_permutes _ C _ less_rowcol (map g nz)).
    apply fmap_Permutation, (sort_permutes _ C).
Qed.

End renumbering.

(** X6: rows count only by their order.  Renumbering the rows of a valid
    input by a strictly increasing map leaves the result unchanged: the row
    numbers, and with them the rows that hold no entry, cannot be read off
    the arrays. *)
Theorem nonzerosToCSR_renumber_rows (sort_Slice : sorter) (f : Z -> Z)
  (nz : list Nonzero) :
  sort_contract sort_Slice ->
  (forall x y, x < y -> f x < f y) -> (forall x, 0 <= x -> 0 <= f x) ->
  agreeing_duplicates nz -> Forall (passes false) nz ->
  nonzerosToCSR sort_Slice (renumber f nz) false =
  nonzerosToCSR sort_Slice nz false.
Proof.
  intros C Hf Hpos Hagree Hpass.
  destruct nz as [|n0 nz0]; [reflexivity|].
  set (nz := n0 :: nz0) in *.
  set (g := fun n => {| Row := f (Row n); Col := Col n; Val := Val n |}).
  change (renumber f nz) with (map g nz).
  assert (Forall (passes false) (sort_Slice Nonzero less_rowcol nz)) as Hsorted.
  { apply Forall_forall. intros x Hx.
    apply (sorted_elem sort_Slice nz _ (sort_permutes _ C)) in Hx.
    rewrite Forall_forall in Hpass. apply Hpass, Hx. }
  assert (Forall (passes false) (map g (sort_Slice Nonzero less_rowcol nz)))
    as Hsorted'.
  { apply Forall_fmap. eapply Forall_impl; [exact Hsorted|].
    intros a (Ha1 & Ha2 & _). repeat split; cbn; auto. discriminate. }
  pose proof (sorted_renumber f Hf sort_Slice nz C Hagree) as Hsr.
  fold g in Hsr.
  rewrite (nonzerosToCSR_passes sort_Slice nz false); [|discriminate|exact Hsorted].
  rewrite (nonzerosToCSR_passes sort_Slice (map g nz) false);
    [|discriminate|rewrite Hsr; exact Hsorted'].
  cbv zeta. rewrite Hsr.
  pose proof (merge_runs_renumber f Hf (sort_Slice Nonzero less_rowcol nz))
    as Hmr.
  fold g in Hmr. rewrite Hmr.
  set (F := merge_runs (sort_Slice Nonzero less_rowcol nz)).
  assert (Forall (passes false) F) as HF.
  { apply Forall_forall. intros x Hx. apply merge_runs_elem in Hx.
    rewrite Forall_forall in Hsorted. apply Hsorted, Hx. }
  pose proof (row_starts_renumber_first f Hf F 0) as Hrs.
  fold g in Hrs. rewrite Hrs.
  - f_equal; rewrite <- list_fmap_compose; apply list_fmap_ext;
      intros; reflexivity.
  - eapply Forall_impl; [exact HF|]. intros a (Ha & _). exact Ha.
  - eapply Forall_impl; [exact HF|]. intros a (Ha & _). apply Hpos, Ha.
Qed.

(** Rows 0 and 1 against rows 0 and 5. *)
Lemma nonzerosToCSR_renumber_rows_witness :
  let nz := [mkNonzero 1 0 3%float; mkNonzero 0 1 1%float] in
  renumber (fun x => 5 * x) nz =
    [mkNonzero 5 0 3%float; mkNonzero 0 1 1%float] /\
  nonzerosToCSR (@GoSort.Slice) [mkNonzero 5 0 3%float; mkNonzero 0 1 1%float]
                false =
  nonzerosToCSR (@GoSort.Slice) nz false.
Proof.
  cbv zeta. split; [reflexivity|].
  apply (nonzerosToCSR_renumber_rows (@GoSort.Slice) (fun x => 5 * x)
           [mkNonzero 1 0 3%float; mkNonzero 0 1 1%float] Slice_contract).
  - intros x y H. lia.
  - intros x H. lia.
  - apply NoDup_keys_agreeing. cbn.
    repeat (constructor;
            [rewrite ?elem_of_cons, elem_of_nil; intuition congruence|]).
    constructor.
  - repeat constructor; cbn; try lia; discriminate.
Defined.

Lemma nonzerosToCSR_success_passes (sort_Slice : sorter) (nz : list Nonzero)
  (triangular : bool) :
  rearranges sort_Slice ->
  err (nonzerosToCSR sort_Slice nz triangular) = None ->
  Forall (passes triangular) nz.
Proof.
  intros Hperm Herr.
  destruct (nonzerosToCSR_cases sort_Slice nz triangular)
    as [[-> _]|[(_ & Hpass & _)|(_ & e & n & Hr & _)]].
  - constructor.
  - apply Forall_forall. intros x Hx. rewrite Forall_forall in Hpass.
    apply Hpass, (sorted_elem sort_Slice nz x Hperm), Hx.
  - rewrite Hr in Herr. discriminate.
Qed.


(** ** expandSlice and maxRowCol: how they compose *)

(** X7: a successful [expandSlice] returns a slice of length [n], and
    expanding that slice again to [n], with any fill value, returns it
    unchanged. *)
Theorem expandSlice_idempotent (n : Z) (slice : list float64)
  (fillValue : float64) (result : list float64) :
  expandSlice n slice fillValue = Returns (result, None) ->
  len result = n /\
  forall fillValue', expandSlice n result fillValue' = Returns (result, None).
Proof.
  unfold expandSlice, len. intros H.
  assert (Z.of_nat (length result) = n) as Hlen.
  { destruct (Z.of_nat (length slice) =? n) eqn:E.
    - apply Z.eqb_eq in E. injection H as <-. exact E.
    - destruct (length slice =? 0)%nat; [|discriminate].
      destruct (make_float64 n) as [made|] eqn:En; [|discriminate].
      apply make_float64_result in En as [Hn ->]. injection H as <-.
      rewrite fill_replicate, length_replicate. lia. }
  split; [exact Hlen|]. intros fillValue'.
  rewrite (proj2 (Z.eqb_eq _ _) Hlen). reflexivity.
Qed.

(** An empty slice expanded to two entries, and expanded again. *)
Lemma expandSlice_idempotent_witness :
  expandSlice 2 [] 7%float = Returns ([7%float; 7%float], None) /\
  len [7%float; 7%float] = 2 /\
  forall fillValue',
    expandSlice 2 [7%float; 7%float] fillValue' =
    Returns ([7%float; 7%float], None).
Proof.
  split; [reflexivity|].
  apply (expandSlice_idempotent 2 [] 7%float). reflexivity.
Defined.



Lemma fold_max_ge (l : list Z) : forall a, a <= fold_left Z.max l a.
Proof.
  induction l as [|x l IH]; intros a; cbn [fold_left]; [lia|].
  specialize (IH (Z.max a x)). lia.
Qed.

Lemma fold_max_from (l : list Z) : forall a c,
  c <= a -> fold_left Z.max l a = Z.max a (fold_left Z.max l c).
Proof.
  induction l as [|x l IH]; intros a c Hca; cbn [fold_left]; [lia|].
  rewrite (IH (Z.max a x) (Z.max c x)) by lia.
  pose proof (fold_max_ge l (Z.max c x)). lia.
Qed.

Lemma maxRowCol_max (nz : list Nonzero) : forall a b,
  fold_left
    (fun '(maxRow, maxCol) n =>
       let maxRow := if Row n >? maxRow then Row n else maxRow in
       let maxCol := if Col n >? maxCol then Col n else maxCol in
       (maxRow, maxCol))
    nz (a, b) =
  (fold_left Z.max (map Row nz) a, fold_left Z.max (map Col nz) b).
Proof.
  induction nz as [|n nz IH]; intros a b; [reflexivity|].
  cbn [fold_left map]. cbv zeta.
  replace (if Row n >? a then Row n else a) with (Z.max a (Row n))
    by (destruct (Row n >? a) eqn:E;
        [apply Z.gtb_lt in E|rewrite Z.gtb_ltb in E; apply Z.ltb_ge in E]; lia).
  replace (if Col n >? b then Col n else b) with (Z.max b (Col n))
    by (destruct (Col n >? b) eqn:E;
        [apply Z.gtb_lt in E|rewrite Z.gtb_ltb in E; apply Z.ltb_ge in E]; lia).
  apply IH.
Qed.

(** X8: [maxRowCol] of a concatenation is the larger, row by row and column
    by column, of the results for the two parts. *)
Theorem maxRowCol_app (a b : list Nonzero) :
  maxRowCol (a ++ b) =
  (Z.max (maxRowCol a).1 (maxRowCol b).1,
   Z.max (maxRowCol a).2 (maxRowCol b).2).
Proof.
  unfold maxRowCol. rewrite fold_left_app, !maxRowCol_max. cbn [fst snd].
  pose proof (maxRowCol_fold a (-1) (-1)) as Ha. cbv zeta in Ha.
  rewrite maxRowCol_max in Ha. cbn [fst snd] in Ha.
  destruct Ha as ((Ha1 & Ha2) & _).
  f_equal; apply fold_max_from; assumption.
Qed.

(** ** Model: rows, columns and the dimensions *)

(** *** AddSparseRow *)

Lemma sparse_entries_cons (row col : Z) (cols : list Z) (val : float64)
  (vals : list float64) :
  sparse_entries row (col :: cols) (val :: vals) =
  (if float_ne_zero val then [mkNonzero row col val] else [])
  ++ sparse_entries row cols vals.
Proof.
  unfold sparse_entries. cbn [zip_with]. rewrite filter_cons. cbn [Val].
  destruct (float_ne_zero val); case_decide; try congruence; reflexivity.
Qed.

Lemma addEntries_spec (row : Z) (vals : list float64) (cols : list Z) :
  forall (constMatrix : list Nonzero) (i : nat),
    (i + length cols <= length vals)%nat ->
    addEntries constMatrix row i cols vals =
    Returns (constMatrix ++ sparse_entries row cols (drop i vals)).
Proof.
  induction cols as [|col rest IH]; intros cm i Hlen.
  { cbn. rewrite app_nil_r. reflexivity. }
  cbn [length] in Hlen. cbn [addEntries].
  destruct (lookup_lt_is_Some_2 vals i ltac:(lia)) as [val Hval].
  rewrite Hval, (drop_S _ _ _ Hval), sparse_entries_cons.
  rewrite IH by lia.
  destruct (float_ne_zero val); [rewrite <- app_assoc|]; reflexivity.
Qed.

Lemma addEntries_panics (row : Z) (vals : list float64) (cols : list Z) :
  forall (constMatrix : list Nonzero) (i : nat),
    (i <= length vals)%nat -> (length vals < i + length cols)%nat ->
    addEntries constMatrix row i cols vals = Panics "index out of range".
Proof.
  induction cols as [|col rest IH]; intros cm i Hi Hlen;
    cbn [length] in Hlen; [lia|].
  cbn [addEntries].
  destruct (vals !! i) as [val|] eqn:Hval; [|reflexivity].
  apply lookup_lt_Some in Hval. apply IH; lia.
Qed.

Lemma AddSparseRow_like (m : Model) (lower : float64) (cols : list Z)
  (vals : list float64) (upper : float64) :
  ((length cols <= length vals)%nat ->
   AddSparseRow m lower cols vals upper =
   Returns
     {| Maximize := Maximize m;
        Offset := Offset m;
        ColCosts := ColCosts m;
        ColLower := ColLower m;
        ColUpper := ColUpper m;
        RowLower := RowLower m ++ [lower];
        RowUpper := RowUpper m ++ [upper];
        ConstMatrix :=
          ConstMatrix m ++ sparse_entries (len (RowLower m)) cols vals;
        Hessian := Hessian m;
        VarTypes := VarTypes m |}) /\
  ((length vals < length cols)%nat ->
   AddSparseRow m lower cols vals upper = Panics "index out of range").
Proof.
  unfold AddSparseRow, len. cbv zeta. split; intros Hlen.
  - rewrite addEntries_spec by (cbn; lia). rewrite drop_0. reflexivity.
  - rewrite addEntries_panics by (cbn; lia). reflexivity.
Qed.

(** X9: [AddSparseRow] returns when [vals] is at least as long as [cols]:
    it appends the two bounds and one entry (row, cols[i], vals[i]) per
    position whose value is not zero, ignores the values past [cols], and
    changes nothing else.  With fewer values than columns it panics on the
    first missing value. *)
Theorem AddSparseRow_effect (m : Model) (lower : float64) (cols : list Z)
  (vals : list float64) (upper : float64) :
  ((length cols <= length vals)%nat ->
   AddSparseRow m lower cols vals upper =
   Returns
     {| Maximize := Maximize m;
        Offset := Offset m;
        ColCosts := ColCosts m;
        ColLower := ColLower m;
        ColUpper := ColUpper m;
        RowLower := RowLower m ++ [lower];
        RowUpper := RowUpper m ++ [upper];
        ConstMatrix :=
          ConstMatrix m ++ sparse_entries (len (RowLower m)) cols vals;
        Hessian := Hessian m;
        VarTypes := VarTypes m |}) /\
  ((length vals < length cols)%nat ->
   AddSparseRow m lower cols vals upper = Panics "index out of range").
Proof.
  unfold AddSparseRow, len. cbv zeta. split; intros Hlen.
  - rewrite addEntries_spec by (cbn; lia). rewrite drop_0. reflexivity.
  - rewrite addEntries_panics by (cbn; lia). reflexivity.
Qed.

Lemma addEntries_dense (row : Z) (rest : list float64) :
  forall (constMatrix : list Nonzero) (pre : list float64),
    addEntries constMatrix row (length pre)
               (Z.of_nat <$> seq (length pre) (length rest)) (pre ++ rest) =
    Returns (addCoeffs constMatrix row (length pre) rest).
Proof.
  induction rest as [|val rest IH]; intros cm pre; [reflexivity|].
  cbn [length seq fmap list_fmap addEntries addCoeffs].
  rewrite lookup_app_r by lia. rewrite Nat.sub_diag. cbn [lookup list_lookup].
  specialize (IH (if float_ne_zero val
                  then cm ++ [mkNonzero row (Z.of_nat (length pre)) val]
                  else cm) (pre ++ [val])).
  rewrite length_app in IH. cbn [length] in IH.
  rewrite Nat.add_1_r, <- app_assoc in IH. exact IH.
Qed.

(** X10: [AddDenseRow] is [AddSparseRow] on the columns 0, 1, ...,
    len(coeffs)-1. *)
Theorem AddDenseRow_as_sparse (m : Model) (lower : float64)
  (coeffs : list float64) (upper : float64) :
  AddSparseRow m lower (Z.of_nat <$> seq 0 (length coeffs)) coeffs upper =
  Returns (AddDenseRow m lower coeffs upper).
Proof.
  unfold AddSparseRow, AddDenseRow. cbv zeta.
  rewrite (addEntries_dense _ coeffs (ConstMatrix m) []). reflexivity.
Qed.

(** *** The dimensions *)

Lemma wrap_int_range (z : Z) : - 2 ^ 63 <= wrap_int z < 2 ^ 63.
Proof.
  unfold wrap_int.
  pose proof (Z.mod_pos_bound (z + 2 ^ 63) (2 ^ 64) ltac:(lia)). lia.
Qed.

Lemma wrap_int_id (z : Z) : - 2 ^ 63 <= z < 2 ^ 63 -> wrap_int z = z.
Proof.
  intros H. unfold wrap_int. rewrite Z.mod_small by lia. lia.
Qed.

Lemma len_nonneg {A : Type} (l : list A) : 0 <= len l.
Proof. unfold len. lia. Qed.

Lemma scanCol_spec (l : list Nonzero) : forall a,
  let r := scanCol l a in
  a <= r /\ (forall n, n ∈ l -> Col n <= r) /\
  (r = a \/ exists n, n ∈ l /\ Col n = r).
Proof.
  unfold scanCol. induction l as [|x l IH]; intros a; cbn [fold_left].
  { split; [lia|]. split; [|left; reflexivity].
    intros n Hn. apply elem_of_nil in Hn. contradiction. }
  cbv zeta in IH.
  set (a' := if Col x >? a then Col x else a).
  assert (a <= a' /\ Col x <= a' /\ (a' = a \/ a' = Col x)) as (H1 & H2 & H3).
  { subst a'. destruct (Col x >? a) eqn:E;
      [apply Z.gtb_lt in E|rewrite Z.gtb_ltb in E; apply Z.ltb_ge in E]; lia. }
  destruct (IH a') as (I1 & I2 & I3). split; [lia|]. split.
  - intros n Hn. apply elem_of_cons in Hn as [->|Hn]; [lia|apply I2, Hn].
  - destruct I3 as [I3|(n & Hn & I3)].
    + destruct H3 as [H3|H3]; [left; lia|].
      right. exists x. split; [apply elem_of_cons; left; reflexivity|lia].
    + right. exists n. split; [apply elem_of_cons; right; exact Hn|exact I3].
Qed.

Lemma scanRow_spec (l : list Nonzero) : forall a,
  let r := scanRow l a in
  a <= r /\ (forall n, n ∈ l -> Row n <= r) /\
  (r = a \/ exists n, n ∈ l /\ Row n = r).
Proof.
  unfold scanRow. induction l as [|x l IH]; intros a; cbn [fold_left].
  { split; [lia|]. split; [|left; reflexivity].
    intros n Hn. apply elem_of_nil in Hn. contradiction. }
  cbv zeta in IH.
  set (a' := if Row x >? a then Row x else a).
  assert (a <= a' /\ Row x <= a' /\ (a' = a \/ a' = Row x)) as (H1 & H2 & H3).
  { subst a'. destruct (Row x >? a) eqn:E;
      [apply Z.gtb_lt in E|rewrite Z.gtb_ltb in E; apply Z.ltb_ge in E]; lia. }
  destruct (IH a') as (I1 & I2 & I3). split; [lia|]. split.
  - intros n Hn. apply elem_of_cons in Hn as [->|Hn]; [lia|apply I2, Hn].
  - destruct I3 as [I3|(n & Hn & I3)].
    + destruct H3 as [H3|H3]; [left; lia|].
      right. exists x. split; [apply elem_of_cons; left; reflexivity|lia].
    + right. exists n. split; [apply elem_of_cons; right; exact Hn|exact I3].
Qed.

(** The chain of comparisons both dimension functions end with. *)
Lemma first_above (w : Z) (ls : list Z) (r : Z) :
  r = fold_right (fun l k => if l >? w then l else k) w ls ->
  Forall (fun l => 0 <= l) ls ->
  (w <= r \/ w < 0) /\ (0 <= w -> w <= r) /\
  (r = w \/ r ∈ ls) /\ (w < 0 -> ls <> [] -> 0 <= r).
Proof.
  intros -> Hls. induction ls as [|l ls IH]; cbn [fold_right].
  { split; [lia|]. split; [lia|]. split; [left; reflexivity|].
    intros _ H. congruence. }
  apply Forall_cons in Hls as [Hl Hls]. specialize (IH Hls).
  destruct IH as (I1 & I2 & I3 & I4).
  destruct (l >? w) eqn:E;
    [apply Z.gtb_lt in E|rewrite Z.gtb_ltb in E; apply Z.ltb_ge in E].
  - split; [lia|]. split; [lia|]. split; [|lia].
    right. apply elem_of_cons. left. reflexivity.
  - split; [lia|]. split; [lia|]. split; [|lia].
    destruct I3 as [I3|I3]; [left; exact I3|right].
    apply elem_of_cons. right. exact I3.
Qed.

Lemma NumVars_chain (m : Model) :
  NumVars m =
  fold_right (fun l k => if l >? wrap_int (scanCol (Hessian m)
                                             (scanCol (ConstMatrix m) (-1)) + 1)
                         then l else k)
             (wrap_int (scanCol (Hessian m) (scanCol (ConstMatrix m) (-1)) + 1))
             [len (ColCosts m); len (ColLower m); len (ColUpper m);
              len (VarTypes m)].
Proof. reflexivity. Qed.

Lemma NumConstraints_chain (m : Model) :
  NumConstraints m =
  fold_right (fun l k => if l >? wrap_int (scanRow (ConstMatrix m) (-1) + 1)
                         then l else k)
             (wrap_int (scanRow (ConstMatrix m) (-1) + 1))
             [len (RowLower m); len (RowUpper m)].
Proof. reflexivity. Qed.

Lemma NumVars_nonneg (m : Model) : 0 <= NumVars m.
Proof.
  pose proof (first_above _ _ _ (NumVars_chain m)) as H.
  destruct H as (H1 & H2 & H3 & H4).
  { repeat constructor; apply len_nonneg. }
  set (w := wrap_int _) in *.
  destruct (Z.lt_ge_cases w 0) as [Hw|Hw]; [apply H4; [exact Hw|discriminate]|].
  specialize (H2 Hw). lia.
Qed.

Lemma NumConstraints_nonneg (m : Model) : 0 <= NumConstraints m.
Proof.
  pose proof (first_above _ _ _ (NumConstraints_chain m)) as H.
  destruct H as (H1 & H2 & H3 & H4).
  { repeat constructor; apply len_nonneg. }
  set (w := wrap_int _) in *.
  destruct (Z.lt_ge_cases w 0) as [Hw|Hw]; [apply H4; [exact Hw|discriminate]|].
  specialize (H2 Hw). lia.
Qed.

Lemma NumVars_above_cols (m : Model) :
  (forall n, n ∈ ConstMatrix m ++ Hessian m -> Col n < 2 ^ 63 - 1) ->
  len (ColCosts m) <= NumVars m /\
  forall n, n ∈ ConstMatrix m ++ Hessian m -> Col n < NumVars m.
Proof.
  intros Hcols.
  pose proof (scanCol_spec (ConstMatrix m) (-1)) as (A1 & A2 & A3).
  pose proof (scanCol_spec (Hessian m) (scanCol (ConstMatrix m) (-1)))
    as (B1 & B2 & B3).
  set (maxCol := scanCol (Hessian m) (scanCol (ConstMatrix m) (-1))) in *.
  assert (-1 <= maxCol < 2 ^ 63 - 1) as Hrange.
  { split; [lia|].
    destruct B3 as [B3|(n & Hn & B3)].
    - destruct A3 as [A3|(n & Hn & A3)]; [lia|].
      rewrite B3, <- A3. apply Hcols, elem_of_app. left. exact Hn.
    - rewrite <- B3. apply Hcols, elem_of_app. right. exact Hn. }
  split.
  - rewrite NumVars_chain. fold maxCol.
    rewrite (wrap_int_id (maxCol + 1)) by lia. cbn [fold_right].
    destruct (len (ColCosts m) >? maxCol + 1) eqn:E; [lia|].
    rewrite Z.gtb_ltb in E; apply Z.ltb_ge in E.
    destruct (first_above (maxCol + 1)
                [len (ColLower m); len (ColUpper m); len (VarTypes m)] _
                eq_refl) as (_ & H2 & _).
    { repeat constructor; apply len_nonneg. }
    cbn [fold_right] in H2. specialize (H2 ltac:(lia)). lia.
  - destruct (first_above _ _ _ (NumVars_chain m)) as (_ & H2 & _).
    { repeat constructor; apply len_nonneg. }
    fold maxCol in H2. rewrite (wrap_int_id (maxCol + 1)) in H2 by lia.
    specialize (H2 ltac:(lia)).
    intros n Hn. apply elem_of_app in Hn as [Hn|Hn].
    + specialize (A2 n Hn). lia.
    + specialize (B2 n Hn). lia.
Qed.

(** X11: [NumVars] is never negative, at least len(ColCosts), and above
    every column index of the matrix and of the Hessian (provided none
    is the largest [int], where [maxCol + 1] wraps around). *)
Theorem NumVars_bounds (m : Model) :
  (forall n, n ∈ ConstMatrix m ++ Hessian m -> Col n < 2 ^ 63 - 1) ->
  0 <= NumVars m /\ len (ColCosts m) <= NumVars m /\
  forall n, n ∈ ConstMatrix m ++ Hessian m -> Col n < NumVars m.
Proof.
  intros Hcols. split; [apply NumVars_nonneg|].
  apply NumVars_above_cols, Hcols.
Qed.

(** One cost, a matrix entry in column 2, a Hessian entry in column 1. *)
Lemma NumVars_bounds_witness :
  let m := mkModel false 0%float [1%float] [] [] [] []
             [mkNonzero 0 2 1%float] [mkNonzero 1 1 2%float] [] in
  NumVars m = 3 /\
  0 <= NumVars m /\ len (ColCosts m) <= NumVars m /\
  forall n, n ∈ ConstMatrix m ++ Hessian m -> Col n < NumVars m.
Proof.
  cbv zeta. split; [reflexivity|].
  apply NumVars_bounds. cbn [ConstMatrix Hessian app].
  intros n Hn. rewrite !elem_of_cons, elem_of_nil in Hn.
  destruct Hn as [->|[->|[]]]; cbn; lia.
Defined.

Lemma NumConstraints_above_rows (m : Model) :
  (forall n, n ∈ ConstMatrix m -> Row n < 2 ^ 63 - 1) ->
  len (RowLower m) <= NumConstraints m /\
  forall n, n ∈ ConstMatrix m -> Row n < NumConstraints m.
Proof.
  intros Hrows.
  pose proof (scanRow_spec (ConstMatrix m) (-1)) as (A1 & A2 & A3).
  set (maxRow := scanRow (ConstMatrix m) (-1)) in *.
  assert (-1 <= maxRow < 2 ^ 63 - 1) as Hrange.
  { split; [lia|].
    destruct A3 as [A3|(n & Hn & A3)]; [lia|].
    rewrite <- A3. apply Hrows, Hn. }
  split.
  - rewrite NumConstraints_chain. fold maxRow.
    rewrite (wrap_int_id (maxRow + 1)) by lia. cbn [fold_right].
    destruct (len (RowLower m) >? maxRow + 1) eqn:E; [lia|].
    rewrite Z.gtb_ltb in E; apply Z.ltb_ge in E.
    destruct (len (RowUpper m) >? maxRow + 1) eqn:E2; [|lia].
    apply Z.gtb_lt in E2. lia.
  - destruct (first_above _ _ _ (NumConstraints_chain m)) as (_ & H2 & _).
    { repeat constructor; apply len_nonneg. }
    fold maxRow in H2. rewrite (wrap_int_id (maxRow + 1)) in H2 by lia.
    specialize (H2 ltac:(lia)).
    intros n Hn. specialize (A2 n Hn). lia.
Qed.

(** X12: [NumConstraints] is never negative, at least len(RowLower), and
    above every row index of the matrix (provided none is the largest
    [int]). *)
Theorem NumConstraints_bounds (m : Model) :
  (forall n, n ∈ ConstMatrix m -> Row n < 2 ^ 63 - 1) ->
  0 <= NumConstraints m /\ len (RowLower m) <= NumConstraints m /\
  forall n, n ∈ ConstMatrix m -> Row n < NumConstraints m.
Proof.
  intros Hrows. split; [apply NumConstraints_nonneg|].
  apply NumConstraints_above_rows, Hrows.
Qed.

(** One bound, a matrix entry in row 4. *)
Lemma NumConstraints_bounds_witness :
  let m := mkModel false 0%float [] [] [] [1%float] []
             [mkNonzero 4 0 1%float] [] [] in
  NumConstraints m = 5 /\
  0 <= NumConstraints m /\ len (RowLower m) <= NumConstraints m /\
  forall n, n ∈ ConstMatrix m -> Row n < NumConstraints m.
Proof.
  cbv zeta. split; [reflexivity|].
  apply NumConstraints_bounds. cbn [ConstMatrix].
  intros n Hn. rewrite !elem_of_cons, elem_of_nil in Hn.
  destruct Hn as [->|[]]; cbn; lia.
Defined.

(** *** Rows are counted *)

Lemma dense_entries_rows (row : Z) (coeffs : list float64) : forall col,
  Forall (fun n => Row n = row) (dense_entries row col coeffs).
Proof.
  induction coeffs as [|val rest IH]; intros col; [constructor|].
  rewrite dense_entries_cons. apply Forall_app. split; [|apply IH].
  destruct (float_ne_zero val); repeat constructor.
Qed.

Lemma sparse_entries_rows (row : Z) (cols : list Z) (vals : list float64) :
  Forall (fun n => Row n = row) (sparse_entries row cols vals).
Proof.
  unfold sparse_entries. apply Forall_forall. intros n Hn.
  apply list_elem_of_filter in Hn as [_ Hn].
  apply list_elem_of_lookup_1 in Hn as [i Hi].
  rewrite lookup_zip_with in Hi.
  destruct (cols !! i); [|discriminate]. cbn in Hi.
  destruct (vals !! i); [|discriminate]. cbn in Hi.
  injection Hi as <-. reflexivity.
Qed.

Lemma rows_counted (m : Model) :
  rows_consistent m -> len (RowLower m) < 2 ^ 63 ->
  NumConstraints m = len (RowLower m).
Proof.
  intros [Hlen Hrows] Hsmall.
  pose proof (scanRow_spec (ConstMatrix m) (-1)) as (A1 & A2 & A3).
  pose proof (len_nonneg (RowLower m)) as Hnn.
  rewrite NumConstraints_chain.
  set (maxRow := scanRow (ConstMatrix m) (-1)) in *.
  assert (maxRow < len (RowLower m)) as Hmax.
  { destruct A3 as [A3|(n & Hn & A3)]; [lia|].
    rewrite <- A3. rewrite Forall_forall in Hrows. apply Hrows, Hn. }
  rewrite (wrap_int_id (maxRow + 1)) by lia. cbn [fold_right].
  assert (len (RowUpper m) = len (RowLower m)) as ->
    by (unfold len; rewrite Hlen; reflexivity).
  destruct (len (RowLower m) >? maxRow + 1) eqn:E; [reflexivity|].
  rewrite Z.gtb_ltb in E; apply Z.ltb_ge in E. lia.
Qed.

Lemma row_appended (m m' : Model) (lower upper : float64)
  (added : list Nonzero) :
  rows_consistent m -> len (RowLower m) < 2 ^ 63 - 1 ->
  RowLower m' = RowLower m ++ [lower] ->
  RowUpper m' = RowUpper m ++ [upper] ->
  ConstMatrix m' = ConstMatrix m ++ added ->
  Forall (fun n => Row n = len (RowLower m)) added ->
  one_more_row m m'.
Proof.
  intros Hc Hsmall HL HU HM Hadded.
  assert (len (RowLower m') = len (RowLower m) + 1) as Hlen'.
  { unfold len. rewrite HL, length_app. cbn [length]. lia. }
  assert (rows_consistent m') as Hc'.
  { destruct Hc as [Hlen Hrows]. split.
    - rewrite HL, HU, !length_app, Hlen. reflexivity.
    - rewrite HM, Hlen'. apply Forall_app. split.
      + eapply Forall_impl; [exact Hrows|]. cbn beta. intros; lia.
      + eapply Forall_impl; [exact Hadded|]. cbn beta. intros; lia. }
  split; [exact Hc'|].
  rewrite (rows_counted m Hc), (rows_counted m' Hc'); lia.
Qed.

(** X13: in a model whose bound slices have equal length and whose entries
    lie in rows below that length (the empty model, and every model built
    from it by the five row builders) [NumConstraints] is the number of
    rows, and each of [AddDenseRow], [AddEqRow], [AddLeRow], [AddGeRow] and
    a returning [AddSparseRow] keeps the model that way and raises
    [NumConstraints] by one. *)
Theorem NumConstraints_counts_rows (m : Model) :
  rows_consistent m -> len (RowLower m) < 2 ^ 63 - 1 ->
  NumConstraints m = len (RowLower m) /\
  (forall lower coeffs upper,
     one_more_row m (AddDenseRow m lower coeffs upper)) /\
  (forall coeffs rhs, one_more_row m (AddEqRow m coeffs rhs)) /\
  (forall coeffs rhs, one_more_row m (AddLeRow m coeffs rhs)) /\
  (forall coeffs rhs, one_more_row m (AddGeRow m coeffs rhs)) /\
  (forall lower cols vals upper m',
     AddSparseRow m lower cols vals upper = Returns m' ->
     one_more_row m m').
Proof.
  intros Hc Hsmall.
  assert (forall lower coeffs upper,
            one_more_row m (AddDenseRow m lower coeffs upper)) as Hdense.
  { intros lower coeffs upper.
    apply (row_appended m _ lower upper
             (dense_entries (len (RowLower m)) 0 coeffs)); try assumption;
      try reflexivity.
    - unfold AddDenseRow. cbn [ConstMatrix]. apply addCoeffs_spec.
    - apply dense_entries_rows. }
  split; [apply rows_counted; [exact Hc|lia]|].
  split; [exact Hdense|].
  split; [intros; apply Hdense|].
  split; [intros; apply Hdense|].
  split; [intros; apply Hdense|].
  intros lower cols vals upper m' Hadd.
  destruct (AddSparseRow_like m lower cols vals upper) as [Hret Hpanic].
  destruct (decide (length cols <= length vals)%nat) as [Hle|Hgt].
  - rewrite (Hret Hle) in Hadd. injection Hadd as <-.
    apply (row_appended m _ lower upper
             (sparse_entries (len (RowLower m)) cols vals)); try assumption;
      try reflexivity.
    apply sparse_entries_rows.
  - rewrite (Hpanic ltac:(lia)) in Hadd. discriminate.
Qed.

(** Two rows added to the empty model, the second without non-zero
    coefficient. *)
Lemma NumConstraints_counts_rows_witness :
  let m := mkModel false 0%float [] [] [] [] [] [] [] [] in
  NumConstraints m = 0 /\
  NumConstraints (AddLeRow (AddDenseRow m 1%float [0%float; 2%float] 3%float)
                           [0%float; 0%float] 4%float) = 2.
Proof.
  cbv zeta.
  set (m := mkModel false 0%float [] [] [] [] [] [] [] []).
  assert (rows_consistent m) as Hc by (split; [reflexivity|constructor]).
  assert (len (RowLower m) < 2 ^ 63 - 1) as Hs by reflexivity.
  destruct (NumConstraints_counts_rows m Hc Hs) as (H0 & Hdense & _).
  split; [exact H0|].
  destruct (Hdense 1%float [0%float; 2%float] 3%float) as [Hc1 H1].
  set (m1 := AddDenseRow m 1%float [0%float; 2%float] 3%float) in *.
  assert (len (RowLower m1) < 2 ^ 63 - 1) as Hs1 by reflexivity.
  destruct (NumConstraints_counts_rows m1 Hc1 Hs1) as (_ & _ & _ & Hle & _).
  destruct (Hle [0%float; 0%float] 4%float) as [_ H2].
  rewrite H2, H1, H0. reflexivity.
Defined.

(** *** Dense rows and the CSR arrays *)

Lemma row_starts_app (A B : list Nonzero) : forall (i : nat) (prev : Z),
  row_starts (A ++ B) i prev =
  row_starts A i prev ++ row_starts B (i + length A) (scanRow A prev).
Proof.
  induction A as [|n A IH]; intros i prev.
  { cbn. rewrite Nat.add_0_r. reflexivity. }
  cbn [app row_starts length]. unfold scanRow. cbn [fold_left].
  fold (scanRow A (if Row n >? prev then Row n else prev)).
  replace (i + S (length A))%nat with (S i + length A)%nat by lia.
  destruct (Row n >? prev); rewrite IH; reflexivity.
Qed.

Lemma row_starts_none (B : list Nonzero) : forall (j : nat) (p : Z),
  Forall (fun n => Row n <= p) B -> row_starts B j p = [].
Proof.
  induction B as [|n B IH]; intros j p HB; [reflexivity|].
  apply Forall_cons in HB as [Hn HB]. cbn [row_starts].
  replace (Row n >? p) with false
    by (symmetry; rewrite Z.gtb_ltb; apply Z.ltb_ge; lia).
  apply IH, HB.
Qed.

Lemma row_starts_one_row (B : list Nonzero) (j : nat) (p row : Z) :
  Forall (fun n => Row n = row) B -> p < row ->
  row_starts B j p = match B with [] => [] | _ => [Z.of_nat j] end.
Proof.
  intros HB Hp. destruct B as [|n B]; [reflexivity|].
  apply Forall_cons in HB as [Hn HB]. cbn [row_starts].
  replace (Row n >? p) with true by (symmetry; apply Z.gtb_lt; lia).
  rewrite row_starts_none; [reflexivity|].
  eapply Forall_impl; [exact HB|]. cbn beta. intros; lia.
Qed.

Lemma dense_entries_strict (row : Z) (coeffs : list float64) : forall col,
  StronglySorted key_lt (dense_entries row col coeffs).
Proof.
  induction coeffs as [|val rest IH]; intros col; [constructor|].
  rewrite dense_entries_cons.
  destruct (float_ne_zero val); [|apply IH].
  cbn [app]. constructor; [apply IH|].
  pose proof (dense_entries_rows row rest (S col)) as Hrows.
  pose proof (dense_entries_cols row (S col) rest) as Hcols.
  rewrite Forall_forall in Hrows, Hcols. apply Forall_forall. intros x Hx.
  right. cbn [Row Col]. specialize (Hrows x Hx). specialize (Hcols x Hx).
  split; [congruence|lia].
Qed.

(** X14: for a model built from dense rows, [AddDenseRow] followed by the
    CSR conversion appends to the arrays: the earlier [index], [value] and
    [start] stay, the non-zero coefficients of the new row follow in column
    order, and [start] gains one offset, the old length, if the row has
    a non-zero coefficient and nothing if it has none. *)
Theorem AddDenseRow_csr (sort_Slice : sorter) (m : Model) (lower : float64)
  (coeffs : list float64) (upper : float64) :
  sort_contract sort_Slice -> dense_form m ->
  let m' := AddDenseRow m lower coeffs upper in
  let r := nonzerosToCSR sort_Slice (ConstMatrix m) false in
  let r' := nonzerosToCSR sort_Slice (ConstMatrix m') false in
  let added := dense_entries (len (RowLower m)) 0 coeffs in
  dense_form m' /\ err r = None /\ err r' = None /\
  index r' = index r ++ map Col added /\
  value r' = value r ++ map Val added /\
  start r' = start r ++ match added with
                        | [] => []
                        | _ => [len (index r)]
                        end.
Proof.
  intros C [Hsorted Hrange] m' r r' added.
  assert (ConstMatrix m' = ConstMatrix m ++ added) as HM
    by (subst m' added; unfold AddDenseRow; cbn [ConstMatrix];
        apply addCoeffs_spec).
  assert (len (RowLower m') = len (RowLower m) + 1) as HL.
  { subst m'. unfold AddDenseRow, len. cbn [RowLower].
    rewrite length_app. cbn [length]. lia. }
  pose proof (dense_entries_rows (len (RowLower m)) coeffs 0) as Hrows.
  pose proof (dense_entries_cols (len (RowLower m)) 0 coeffs) as Hcols.
  fold added in Hrows, Hcols.
  assert (dense_form m') as Hform'.
  { split.
    - rewrite HM. apply StronglySorted_app_2.
      + intros x y Hx Hy. left.
        rewrite Forall_forall in Hrange, Hrows.
        specialize (Hrange x Hx). specialize (Hrows y Hy). lia.
      + exact Hsorted.
      + apply dense_entries_strict.
    - rewrite HM, HL. apply Forall_app. split.
      + eapply Forall_impl; [exact Hrange|]. cbn beta. intros; lia.
      + apply Forall_forall. intros x Hx.
        rewrite Forall_forall in Hrows, Hcols.
        specialize (Hrows x Hx). specialize (Hcols x Hx).
        pose proof (len_nonneg (RowLower m)). lia. }
  assert (forall mm, dense_form mm -> Forall (passes false) (ConstMatrix mm))
    as Hpasses.
  { intros mm [_ Hr]. eapply Forall_impl; [exact Hr|].
    intros a [[Ha1 Ha2] Ha3]. split; [exact Ha1|]. split; [exact Ha3|].
    intros Hf. discriminate Hf. }
  subst r r'.
  rewrite (nonzerosToCSR_strict sort_Slice (ConstMatrix m) false C Hsorted
             (Hpasses m (conj Hsorted Hrange))).
  rewrite (nonzerosToCSR_strict sort_Slice (ConstMatrix m') false C
             (proj1 Hform') (Hpasses m' Hform')).
  cbn [err index value start].
  split; [exact Hform'|]. split; [reflexivity|]. split; [reflexivity|].
  rewrite HM, (map_app Col), (map_app Val).
  split; [reflexivity|]. split; [reflexivity|].
  rewrite row_starts_app. f_equal. cbn [Nat.add].
  rewrite (row_starts_one_row added _ _ (len (RowLower m)) Hrows).
  - unfold len. rewrite length_map. reflexivity.
  - pose proof (scanRow_spec (ConstMatrix m) (-1)) as (_ & _ & A3).
    pose proof (len_nonneg (RowLower m)).
    destruct A3 as [A3|(n & Hn & A3)]; [lia|].
    rewrite <- A3. rewrite Forall_forall in Hrange.
    specialize (Hrange n Hn). lia.
Qed.

(** A row with one non-zero coefficient, then a row of zeros: the arrays of
    the first stay as they are, while the model has two rows. *)
Lemma AddDenseRow_csr_witness :
  let m := AddDenseRow (mkModel false 0%float [] [] [] [] [] [] [] [])
             1%float [0%float; 2%float] 3%float in
  let r' := nonzerosToCSR (@GoSort.Slice)
              (ConstMatrix (AddDenseRow m 0%float [0%float; 0%float] 1%float))
              false in
  dense_form m /\
  start r' = [0] /\ index r' = [1] /\ value r' = [2%float] /\
  NumConstraints (AddDenseRow m 0%float [0%float; 0%float] 1%float) = 2.
Proof.
  cbv zeta.
  set (m0 := mkModel false 0%float [] [] [] [] [] [] [] []).
  assert (dense_form m0) as H0 by (split; constructor).
  destruct (AddDenseRow_csr (@GoSort.Slice) m0 1%float [0%float; 2%float]
              3%float Slice_contract H0) as (H1 & _).
  split; [exact H1|].
  destruct (AddDenseRow_csr (@GoSort.Slice) _ 0%float [0%float; 0%float]
              1%float Slice_contract H1) as (_ & _ & _ & Hi & Hv & Hs).
  rewrite Hs, Hi, Hv. repeat split; reflexivity.
Defined.

(** *** Row offsets and the number of rows *)

Lemma distinct_rows_counted (sort_Slice : sorter) (nz : list Nonzero)
  (triangular : bool) :
  sort_contract sort_Slice -> nz <> [] ->
  Forall (passes triangular) (sort_Slice Nonzero less_rowcol nz) ->
  length (row_starts (merge_runs (sort_Slice Nonzero less_rowcol nz)) 0 (-1))
  = length (remove_dups (map Row nz)).
Proof.
  intros C Hne Hpass.
  set (sorted := sort_Slice Nonzero less_rowcol nz) in *.
  set (F := merge_runs sorted).
  rewrite row_starts_length.
  apply Permutation_length, start_rows_distinct_rows.
  - apply merge_runs_strict, (sort_orders _ C), less_rowcol_swo.
  - apply Forall_forall. intros a Ha. apply merge_runs_elem in Ha.
    rewrite Forall_forall in Hpass. destruct (Hpass a Ha) as (H & _). exact H.
  - intros r. rewrite list_elem_of_fmap. split.
    + intros (x & Hx & <-). apply merge_runs_elem in Hx.
      apply (sorted_elem sort_Slice nz x (sort_permutes _ C)) in Hx.
      exists x. split; [reflexivity|exact Hx].
    + intros (x & -> & Hx).
      apply (sorted_elem sort_Slice nz x (sort_permutes _ C)) in Hx.
      destruct (merge_runs_keys sorted x Hx) as (y & Hy & Hrow & _).
      exists y. split; [exact Hy|exact Hrow].
Qed.

(** X15: for a sort that meets the contract of [sort.Slice] and a matrix
    in which no row index is the largest [int], the converted matrix has at
    most [NumConstraints] row offsets, and exactly that many only when
    every row below [NumConstraints] holds an entry: a row without entries
    gets no offset. *)
Theorem row_offsets_and_NumConstraints (sort_Slice : sorter) (m : Model) :
  sort_contract sort_Slice ->
  (forall n, n ∈ ConstMatrix m -> Row n < 2 ^ 63 - 1) ->
  let a := nonzerosToCSR sort_Slice (ConstMatrix m) false in
  err a = None ->
  len (start a) <= NumConstraints m /\
  (len (start a) = NumConstraints m <->
   forall r, 0 <= r < NumConstraints m ->
             exists n, n ∈ ConstMatrix m /\ Row n = r).
Proof.
  intros C Hrows a Herr. subst a.
  pose proof (NumConstraints_nonneg m) as Hnn.
  destruct (NumConstraints_above_rows m Hrows) as [_ Habove].
  assert (Forall (passes false) (ConstMatrix m)) as Hin
    by (apply (nonzerosToCSR_success_passes sort_Slice _ _
                 (sort_permutes _ C) Herr)).
  assert (len (start (nonzerosToCSR sort_Slice (ConstMatrix m) false)) =
          len (remove_dups (map Row (ConstMatrix m)))) as ->.
  { destruct (nonzerosToCSR_cases sort_Slice (ConstMatrix m) false)
      as [[-> Hr]|[(Hne & Hpass & Hr)|(_ & e & n & Hr & _)]].
    - reflexivity.
    - rewrite Hr. cbn [start]. unfold len. f_equal.
      apply (distinct_rows_counted sort_Slice _ false C Hne Hpass).
    - rewrite Hr in Herr. discriminate. }
  set (D := remove_dups (map Row (ConstMatrix m))).
  set (K := seqZ 0 (NumConstraints m)).
  assert (NoDup D) as HD by apply NoDup_remove_dups.
  assert (forall r, r ∈ D <-> exists n, n ∈ ConstMatrix m /\ Row n = r) as HDin.
  { intros r. subst D. rewrite elem_of_remove_dups, list_elem_of_fmap.
    split; intros (n & H1 & H2); exists n; auto. }
  assert (forall r, r ∈ K <-> 0 <= r < NumConstraints m) as HKin.
  { intros r. subst K. rewrite elem_of_seqZ. lia. }
  assert (length K = Z.to_nat (NumConstraints m)) as HK by apply length_seqZ.
  assert (D ⊆+ K) as Hsub.
  { apply NoDup_submseteq; [exact HD|]. intros r Hr.
    apply HKin. apply HDin in Hr as (n & Hn & <-).
    rewrite Forall_forall in Hin. destruct (Hin n Hn) as (H0 & _).
    specialize (Habove n Hn). lia. }
  pose proof (submseteq_length _ _ Hsub) as Hle.
  unfold len. split; [lia|]. split.
  - intros Heq r Hr. apply HDin.
    rewrite (submseteq_length_Permutation D K Hsub ltac:(lia)).
    apply HKin, Hr.
  - intros Hall.
    assert (K ⊆+ D) as Hsub'.
    { apply NoDup_submseteq; [apply NoDup_seqZ|]. intros r Hr.
      apply HDin, Hall, HKin, Hr. }
    pose proof (submseteq_length _ _ Hsub'). lia.
Qed.

(** Entries in rows 0 and 2 only: three rows, two offsets. *)
Lemma row_offsets_and_NumConstraints_witness :
  let m := mkModel false 0%float [] [] [] [] []
             [mkNonzero 2 0 1%float; mkNonzero 0 1 2%float] [] [] in
  let a := nonzerosToCSR (@GoSort.Slice) (ConstMatrix m) false in
  start a = [0; 1] /\ NumConstraints m = 3 /\
  len (start a) <= NumConstraints m /\
  (len (start a) = NumConstraints m <->
   forall r, 0 <= r < NumConstraints m ->
             exists n, n ∈ ConstMatrix m /\ Row n = r).
Proof.
  cbv zeta. split; [reflexivity|]. split; [reflexivity|].
  apply (row_offsets_and_NumConstraints (@GoSort.Slice) _ Slice_contract).
  - cbn [ConstMatrix]. intros n Hn.
    rewrite !elem_of_cons, elem_of_nil in Hn.
    destruct Hn as [->|[->|[]]]; reflexivity.
  - reflexivity.
Defined.

(** The bound on the row indices is needed: at the largest [int] the count
    of [NumConstraints] wraps around, and one offset stands against no
    constraint. *)
Lemma row_offsets_at_largest_int :
  let m := mkModel false 0%float [] [] [] [] []
             [mkNonzero (2 ^ 63 - 1) 0 1%float] [] [] in
  let a := nonzerosToCSR (@GoSort.Slice) (ConstMatrix m) false in
  err a = None /\ start a = [0] /\ NumConstraints m = 0.
Proof. cbv zeta. repeat split; reflexivity. Qed.

(** ** Status and Solve *)

(** *** Reading a status *)

(** X16: how the readings of a status relate: optimal and time-limit
    statuses count as having a solution; a status that has a solution is
    neither infeasible nor unbounded; both infeasible and unbounded are
    reported exactly for [ModelStatusUnboundedOrInfeasible]. *)
Theorem status_readings (s : Solution) :
  (IsOptimal s = true -> HasSolution s = true) /\
  (IsTimeLimit s = true -> HasSolution s = true) /\
  (HasSolution s = true -> IsInfeasible s = false /\ IsUnbounded s = false) /\
  (IsInfeasible s = true /\ IsUnbounded s = true <->
   SolStatus s = ModelStatusUnboundedOrInfeasible) /\
  IsOptimal s = ModelStatus_IsOptimal (SolStatus s).
Proof.
  unfold IsOptimal, IsTimeLimit, HasSolution, IsInfeasible, IsUnbounded,
    ModelStatus_HasSolution, ModelStatus_IsOptimal.
  destruct (SolStatus s); repeat split; intros; try reflexivity;
    try discriminate; try tauto;
    match goal with H : _ /\ _ |- _ => destruct H; discriminate end.
Qed.

(** *** Solve *)

(** The four ways through [expandSlice]. *)
Lemma expandSlice_cases (n : Z) (slice : list float64) (fillValue : float64) :
  (len slice = n /\
   expandSlice n slice fillValue = Returns (slice, None)) \/
  (len slice <> n /\ len slice <> 0 /\
   expandSlice n slice fillValue = Returns ([], Some InconsistentLength)) \/
  (len slice <> n /\ slice = [] /\ 0 <= n <= 2 ^ 45 /\
   expandSlice n slice fillValue =
   Returns (replicate (Z.to_nat n) fillValue, None)) \/
  (slice = [] /\ (n < 0 \/ 2 ^ 45 < n) /\
   expandSlice n slice fillValue = Panics "makeslice: len out of range").
Proof.
  unfold expandSlice, len.
  destruct (Z.eqb_spec (Z.of_nat (length slice)) n) as [E|E]; [left; auto|].
  right. destruct slice as [|x slice].
  - right. cbn [length Nat.eqb].
    destruct (decide (0 <= n <= 2 ^ 45)) as [Hn|Hn].
    + left. rewrite (make_float64_returns n Hn), fill_replicate. auto.
    + right. split; [reflexivity|]. split; [lia|].
      unfold make_float64, maxAlloc.
      destruct (Z.ltb_spec n 0); [reflexivity|].
      destruct (Z.ltb_spec (2 ^ 48) (n * 8)); [reflexivity|lia].
  - left. split; [exact E|]. split; [cbn [length]; lia|reflexivity].
Qed.

Lemma expands_iff (n : Z) (slice : list float64) :
  expands n slice <-> len slice = n \/ (slice = [] /\ 0 <= n <= 2 ^ 45).
Proof.
  unfold expands. split.
  - intros (f & x & H).
    destruct (expandSlice_cases n slice f)
      as [(L & _)|[(_ & _ & E)|[(_ & S & Hn & _)|(_ & _ & E)]]];
      [left; exact L|congruence|right; auto|congruence].
  - intros [L|(-> & Hn)].
    + exists 0%float, slice.
      destruct (expandSlice_cases n slice 0%float)
        as [(_ & E)|[(L' & _)|[(L' & _)|(-> & Hn & _)]]];
        [exact E|contradiction|contradiction|].
      change (len []) with 0 in L. lia.
    + exists 0%float.
      destruct (expandSlice_cases n [] 0%float)
        as [(_ & E)|[(_ & L' & _)|[(_ & _ & _ & E)|(_ & Hn' & _)]]];
        [eexists; exact E| |eexists; exact E|lia].
      exfalso. apply L'. reflexivity.
Qed.

Lemma expanded_misfit (n : Z) (slice : list float64) (fillValue : float64)
  (msg : string) :
  ~ fits n slice ->
  expanded n slice fillValue msg = Returns (inl (newErrorMsg "Solve" msg)).
Proof.
  intros Hfit. unfold expanded, expandSlice, fits, len in *.
  destruct (Z.of_nat (length slice) =? n) eqn:E.
  { apply Z.eqb_eq in E. tauto. }
  destruct (length slice =? 0)%nat eqn:E0; [|reflexivity].
  apply Nat.eqb_eq in E0. lia.
Qed.

(** What [Solve] gets from [expandSlice]: the error, a slice of the length
    asked for, or the panic of [make]. *)
Lemma expanded_cases (n : Z) (slice : list float64) (fillValue : float64)
  (msg : string) :
  expanded n slice fillValue msg = Returns (inl (newErrorMsg "Solve" msg)) \/
  (exists x, expanded n slice fillValue msg = Returns (inr x) /\ len x = n) \/
  ((n < 0 \/ 2 ^ 45 < n) /\
   expanded n slice fillValue msg = Panics "makeslice: len out of range").
Proof.
  unfold expanded.
  destruct (expandSlice_cases n slice fillValue)
    as [(L & ->)|[(_ & _ & ->)|[(_ & _ & Hn & ->)|(_ & Hn & ->)]]].
  - right. left. exists slice. auto.
  - left. reflexivity.
  - right. left. eexists. split; [reflexivity|].
    unfold len. rewrite length_replicate. lia.
  - right. right. auto.
Qed.

Lemma expanded_expands (n : Z) (slice : list float64) (fillValue : float64)
  (msg : string) :
  expands n slice ->
  exists x, expanded n slice fillValue msg = Returns (inr x) /\ len x = n.
Proof.
  intros H. apply expands_iff in H. unfold expanded.
  destruct (expandSlice_cases n slice fillValue)
    as [(L & ->)|[(L1 & L2 & _)|[(_ & _ & Hn & ->)|(-> & Hn & _)]]].
  - exists slice. auto.
  - destruct H as [L|(-> & _)]; [contradiction|].
    exfalso. apply L2. reflexivity.
  - eexists. split; [reflexivity|].
    unfold len. rewrite length_replicate. lia.
  - destruct H as [L|(_ & Hn')]; [|lia].
    change (len []) with 0 in L. lia.
Qed.

Lemma expanded_success (n : Z) (slice : list float64) (fillValue : float64)
  (msg : string) (x : list float64) :
  expanded n slice fillValue msg = Returns (inr x) -> fits n slice.
Proof.
  intros H. destruct (decide (len slice = 0 \/ len slice = n)) as [F|F];
    [exact F|].
  rewrite (expanded_misfit n slice fillValue msg F) in H. discriminate.
Qed.

(** The variable types [Solve] passes on: as given when they are empty or
    as many as the columns, otherwise cut or filled up with [Continuous],
    in a slice that [make] has to serve. *)
Lemma make_VariableType_cases (numCol : Z) :
  (0 <= numCol <= 2 ^ 45 /\
   make_VariableType numCol =
   Returns (replicate (Z.to_nat numCol) Continuous)) \/
  ((numCol < 0 \/ 2 ^ 45 < numCol) /\
   make_VariableType numCol = Panics "makeslice: len out of range").
Proof.
  unfold make_VariableType, maxAlloc.
  destruct (Z.ltb_spec numCol 0); [right; auto|].
  destruct (Z.ltb_spec (2 ^ 48) (numCol * 8)).
  - right. split; [lia|reflexivity].
  - left. split; [lia|reflexivity].
Qed.

Lemma copy_length {A : Type} (dst src : list A) :
  length (copy dst src) = length dst.
Proof. unfold copy. rewrite length_app, length_take, length_drop. lia. Qed.

Ltac varTypes_step m Hvts :=
  match goal with
  | |- context [bind (if ?c then ?a else ?b) _] =>
      let vts := fresh "vts" in
      set (vts := if c then a else b);
      assert ((2 ^ 45 < NumVars m /\
               vts = Panics "makeslice: len out of range") \/
              exists vt, vts = Returns (inr vt) /\
                         (vt = [] \/ len vt = NumVars m)) as Hvts;
      [ subst vts; pose proof (NumVars_nonneg m);
        destruct ((0 <? len (VarTypes m))
                  && negb (len (VarTypes m) =? NumVars m)) eqn:E;
        [ destruct (make_VariableType_cases (NumVars m)) as [[? ->]|[? ->]];
          [ right; eexists; split; [reflexivity|]; right; unfold len;
            rewrite copy_length, length_replicate; lia
          | left; split; [lia|reflexivity] ]
        | right; exists (VarTypes m); split; [reflexivity|];
          apply andb_false_iff in E as [E|E];
          [ apply Z.ltb_ge in E; left;
            destruct (VarTypes m); [reflexivity|];
            unfold len in E; cbn [length] in E; lia
          | apply negb_false_iff, Z.eqb_eq in E; right; exact E ] ]
      | ]
  end.

(** One [expandSlice] of [Solve] at the head of the goal: the error, the
    slice [x] of length [L], or the panic with its cause [Hbig]. *)
Ltac expanded_step x L Hbig :=
  match goal with
  | |- context [bind (expanded ?n ?s ?f ?msg) _] =>
      destruct (expanded_cases n s f msg)
        as [->|[(x & -> & L)|(Hbig & ->)]]; cbn [bind]
  end.

Lemma bind_success {A B : Type} (x : attempt A) (k : A -> attempt B) (b : B) :
  bind x k = Returns (inr b) ->
  exists a, x = Returns (inr a) /\ k a = Returns (inr b).
Proof.
  destruct x as [[e|a]|p]; cbn [bind]; intros H; try discriminate.
  exists a. split; [reflexivity|exact H].
Qed.

(** The option loop panics on the first [nil] option and on nothing else. *)
Lemma applyOptions_panics (opts : list SolveOption) :
  forall cfg msg,
    applyOptions opts cfg = Panics msg ->
    None ∈ opts /\
    msg = "runtime error: invalid memory address or nil pointer dereference".
Proof.
  induction opts as [|[opt|] opts IH]; intros cfg msg H; cbn in H.
  - discriminate.
  - destruct (IH _ _ H) as [Hin ->]. split; [right; exact Hin|reflexivity].
  - injection H as <-. split; [left|reflexivity].
Qed.

Lemma applyOptions_snoc (opts : list SolveOption)
  (opt : solveConfig -> solveConfig) :
  forall cfg cfg',
    applyOptions opts cfg = Returns cfg' ->
    applyOptions (opts ++ [Some opt]) cfg = Returns (opt cfg').
Proof.
  induction opts as [|[o|] opts IH]; intros cfg cfg' H; cbn in *.
  - injection H as <-. reflexivity.
  - apply IH, H.
  - discriminate.
Qed.

Section solving.

Variable sort_Slice : sorter.
Variable Solver : Type.
Variable NewSolver : Error + Solver.
Variable SetBoolOption : Solver -> string -> bool -> Solver * option Error.
Variable SetIntOption : Solver -> string -> Z -> Solver * option Error.
Variable SetFloatOption : Solver -> string -> float64 -> Solver * option Error.
Variable SetStringOption : Solver -> string -> string -> Solver * option Error.
Variable PassModel :
  Solver -> Z -> Z ->
  list float64 -> list float64 -> list float64 ->
  list float64 -> list float64 ->
  list Z -> list Z -> list float64 ->
  list VariableType -> bool -> float64 -> Solver * option Error.
Variable PassHessian :
  Solver -> Z -> list Z -> list Z -> list float64 -> Solver * option Error.
Variable Run : Solver -> Error + Solution.
Variable range_map : forall V : Type, gmap string V -> list (string * V).

Let configured (cfg : solveConfig) (solver : Solver) :=
  apply Solver SetBoolOption SetIntOption SetFloatOption SetStringOption
        range_map cfg solver.

Let solve :=
  Solve sort_Slice Solver NewSolver SetBoolOption SetIntOption SetFloatOption
        SetStringOption PassModel PassHessian Run range_map.

(** X17: [Solve] panics in two ways only, both after the solver has been
    created: by calling a [nil] option, or in [make] when [NumVars] or
    [NumConstraints] is above [2^45].  A negative length never reaches
    [expandSlice] or [make], because [NumVars] and [NumConstraints] are
    never negative. *)
Theorem Solve_panics_only_when (m : Model) (opts : list SolveOption)
  (msg : string) :
  solve m opts = Panics msg ->
  (exists solver, NewSolver = inr solver) /\
  ((None ∈ opts /\
    msg = "runtime error: invalid memory address or nil pointer dereference")
   \/
   ((2 ^ 45 < NumVars m \/ 2 ^ 45 < NumConstraints m) /\
    msg = "makeslice: len out of range")).
Proof.
  unfold solve, Solve.
  destruct NewSolver as [e|solver]; [discriminate|].
  intros H. split; [exists solver; reflexivity|]. revert H.
  destruct (applyOptions opts defaultSolveConfig) as [cfg|p] eqn:Eo.
  2:{ intros [= <-]. left. exact (applyOptions_panics _ _ _ Eo). }
  destruct (apply _ _ _ _ _ _ _ solver) as [solver1 [e|]]; [discriminate|].
  cbv zeta. destruct (NumVars m =? 0); [discriminate|].
  pose proof (NumVars_nonneg m) as Hc.
  pose proof (NumConstraints_nonneg m) as Hr.
  right. revert H.
  expanded_step x1 L1 B; [discriminate| |intros [= <-]; split; [lia|reflexivity]].
  expanded_step x2 L2 B; [discriminate| |intros [= <-]; split; [lia|reflexivity]].
  expanded_step x3 L3 B; [discriminate| |intros [= <-]; split; [lia|reflexivity]].
  expanded_step x4 L4 B; [discriminate| |intros [= <-]; split; [lia|reflexivity]].
  expanded_step x5 L5 B; [discriminate| |intros [= <-]; split; [lia|reflexivity]].
  destruct (err (nonzerosToCSR sort_Slice (ConstMatrix m) false));
    [discriminate|].
  varTypes_step m Hvts.
  destruct Hvts as [[Hbig ->]|(vt & -> & Hvt)]; cbn [bind].
  { intros [= <-]. split; [left; exact Hbig|reflexivity]. }
  destruct (PassModel _ _ _ _ _ _ _ _ _ _ _ _ _ _) as [solver2 [e|]];
    [discriminate|].
  destruct (0 <? len (Hessian m)); [|discriminate].
  destruct (err (nonzerosToCSR sort_Slice (Hessian m) true));
    [discriminate|].
  destruct (PassHessian _ _ _ _ _) as [solver3 [e|]]; discriminate.
Qed.

Lemma NumVars_without_columns (m : Model) :
  ColCosts m = [] -> ColLower m = [] -> ColUpper m = [] -> VarTypes m = [] ->
  Forall (fun n => Col n < 0) (ConstMatrix m ++ Hessian m) ->
  NumVars m = 0.
Proof.
  intros H1 H2 H3 H4 Hneg. rewrite Forall_app, !Forall_forall in Hneg.
  destruct Hneg as [Hc Hh].
  pose proof (scanCol_spec (ConstMatrix m) (-1)) as (A1 & _ & A3).
  pose proof (scanCol_spec (Hessian m) (scanCol (ConstMatrix m) (-1)))
    as (B1 & _ & B3).
  unfold NumVars. cbv zeta.
  set (maxCol := scanCol (Hessian m) (scanCol (ConstMatrix m) (-1))) in *.
  assert (maxCol = -1) as ->.
  { destruct B3 as [B3|(n & Hn & B3)]; [|specialize (Hh n Hn); lia].
    destruct A3 as [A3|(n & Hn & A3)]; [lia|specialize (Hc n Hn); lia]. }
  rewrite H1, H2, H3, H4. reflexivity.
Qed.

(** X18: a model with no column data and no entry in a non-negative column
    is reported optimal, with an empty solution, once the solver is created,
    the option loop is through and the solver configured: its rows, their
    bounds and negative column indices are never looked at. *)
Theorem Solve_without_columns (m : Model) (opts : list SolveOption)
  (cfg : solveConfig) (solver : Solver) :
  NewSolver = inr solver ->
  applyOptions opts defaultSolveConfig = Returns cfg ->
  snd (configured cfg solver) = None ->
  ColCosts m = [] -> ColLower m = [] -> ColUpper m = [] -> VarTypes m = [] ->
  Forall (fun n => Col n < 0) (ConstMatrix m ++ Hessian m) ->
  solve m opts =
  Returns (inr (mkSolution ModelStatusOptimal [] [] [] [] [] [] 0%float)).
Proof.
  intros Hnew Hopts Hcfg H1 H2 H3 H4 Hneg.
  unfold solve, Solve. rewrite Hnew, Hopts.
  unfold configured in Hcfg.
  destruct (apply _ _ _ _ _ _ _ solver) as [solver1 [e|]];
    [discriminate Hcfg|].
  cbv zeta. rewrite (NumVars_without_columns m H1 H2 H3 H4 Hneg).
  reflexivity.
Qed.

Lemma NumVars_ge_ColCosts (m : Model) : len (ColCosts m) <= NumVars m.
Proof.
  rewrite NumVars_chain. cbn [fold_right].
  set (w := wrap_int _).
  destruct (len (ColCosts m) >? w) eqn:E; [lia|].
  rewrite Z.gtb_ltb in E; apply Z.ltb_ge in E.
  destruct (first_above w
              [len (ColLower m); len (ColUpper m); len (VarTypes m)] _
              eq_refl) as (_ & H2 & _).
  { repeat constructor; apply len_nonneg. }
  cbn [fold_right] in H2. pose proof (len_nonneg (ColCosts m)).
  specialize (H2 ltac:(lia)). lia.
Qed.

(** X19: with at least one column, [Solve] rejects the first of ColCosts,
    ColLower, ColUpper, RowLower, RowUpper that is neither empty nor as
    long as its dimension, naming it, provided [expandSlice] returned a
    slice for each of the ones before it; ColCosts can only be too short;
    when all five are expanded, an error of the matrix conversion is
    returned as it is; and with ColCosts empty and more than [2^45]
    columns [Solve] panics in [make] before it looks at another slice. *)
Theorem Solve_length_errors (m : Model) (opts : list SolveOption)
  (cfg : solveConfig) (solver : Solver) :
  NewSolver = inr solver ->
  applyOptions opts defaultSolveConfig = Returns cfg ->
  snd (configured cfg solver) = None ->
  NumVars m <> 0 ->
  let numCol := NumVars m in
  let numRow := NumConstraints m in
  (fits numCol (ColCosts m) \/ 0 < len (ColCosts m) < numCol) /\
  (~ fits numCol (ColCosts m) -> solve m opts = length_error "ColCosts") /\
  (expands numCol (ColCosts m) -> ~ fits numCol (ColLower m) ->
   solve m opts = length_error "ColLower") /\
  (expands numCol (ColCosts m) -> expands numCol (ColLower m) ->
   ~ fits numCol (ColUpper m) -> solve m opts = length_error "ColUpper") /\
  (expands numCol (ColCosts m) -> expands numCol (ColLower m) ->
   expands numCol (ColUpper m) -> ~ fits numRow (RowLower m) ->
   solve m opts = length_error "RowLower") /\
  (expands numCol (ColCosts m) -> expands numCol (ColLower m) ->
   expands numCol (ColUpper m) -> expands numRow (RowLower m) ->
   ~ fits numRow (RowUpper m) -> solve m opts = length_error "RowUpper") /\
  (expands numCol (ColCosts m) -> expands numCol (ColLower m) ->
   expands numCol (ColUpper m) -> expands numRow (RowLower m) ->
   expands numRow (RowUpper m) ->
   forall e, err (nonzerosToCSR sort_Slice (ConstMatrix m) false) = Some e ->
             solve m opts = Returns (inl e)) /\
  (ColCosts m = [] -> 2 ^ 45 < numCol ->
   solve m opts = Panics "makeslice: len out of range").
Proof.
  intros Hnew Hopts Hcfg Hnz numCol numRow.
  split.
  { pose proof (NumVars_ge_ColCosts m). pose proof (len_nonneg (ColCosts m)).
    unfold fits. fold numCol in H. lia. }
  unfold solve, Solve, length_error. rewrite Hnew, Hopts.
  unfold configured in Hcfg.
  destruct (apply _ _ _ _ _ _ _ solver) as [solver1 [e|]];
    [discriminate Hcfg|].
  cbv zeta. rewrite (proj2 (Z.eqb_neq _ _) Hnz).
  fold numCol numRow.
  split.
  { intros F1. rewrite (expanded_misfit _ _ _ _ F1). reflexivity. }
  split.
  { intros F1 F2.
    destruct (expanded_expands numCol _ 0%float "inconsistent ColCosts length"
                F1) as (x1 & -> & _). cbn [bind].
    rewrite (expanded_misfit _ _ _ _ F2). reflexivity. }
  split.
  { intros F1 F2 F3.
    destruct (expanded_expands numCol _ 0%float "inconsistent ColCosts length"
                F1) as (x1 & -> & _). cbn [bind].
    destruct (expanded_expands numCol _ neg_infinity
                "inconsistent ColLower length" F2) as (x2 & -> & _).
    cbn [bind].
    rewrite (expanded_misfit _ _ _ _ F3). reflexivity. }
  split.
  { intros F1 F2 F3 F4.
    destruct (expanded_expands numCol _ 0%float "inconsistent ColCosts length"
                F1) as (x1 & -> & _). cbn [bind].
    destruct (expanded_expands numCol _ neg_infinity
                "inconsistent ColLower length" F2) as (x2 & -> & _).
    cbn [bind].
    destruct (expanded_expands numCol _ infinity
                "inconsistent ColUpper length" F3) as (x3 & -> & _).
    cbn [bind].
    rewrite (expanded_misfit _ _ _ _ F4). reflexivity. }
  split.
  { intros F1 F2 F3 F4 F5.
    destruct (expanded_expands numCol _ 0%float "inconsistent ColCosts length"
                F1) as (x1 & -> & _). cbn [bind].
    destruct (expanded_expands numCol _ neg_infinity
                "inconsistent ColLower length" F2) as (x2 & -> & _).
    cbn [bind].
    destruct (expanded_expands numCol _ infinity
                "inconsistent ColUpper length" F3) as (x3 & -> & _).
    cbn [bind].
    destruct (expanded_expands numRow _ neg_infinity
                "inconsistent RowLower length" F4) as (x4 & -> & _).
    cbn [bind].
    rewrite (expanded_misfit _ _ _ _ F5). reflexivity. }
  split.
  { intros F1 F2 F3 F4 F5 e0 He.
    destruct (expanded_expands numCol _ 0%float "inconsistent ColCosts length"
                F1) as (x1 & -> & _). cbn [bind].
    destruct (expanded_expands numCol _ neg_infinity
                "inconsistent ColLower length" F2) as (x2 & -> & _).
    cbn [bind].
    destruct (expanded_expands numCol _ infinity
                "inconsistent ColUpper length" F3) as (x3 & -> & _).
    cbn [bind].
    destruct (expanded_expands numRow _ neg_infinity
                "inconsistent RowLower length" F4) as (x4 & -> & _).
    cbn [bind].
    destruct (expanded_expands numRow _ infinity
                "inconsistent RowUpper length" F5) as (x5 & -> & _).
    cbn [bind].
    rewrite He. reflexivity. }
  intros E Hbig. rewrite E. unfold expanded.
  destruct (expandSlice_cases numCol [] 0%float)
    as [(L & _)|[(_ & L & _)|[(_ & _ & Hn & _)|(_ & _ & ->)]]].
  - change (len []) with 0 in L. lia.
  - exfalso. apply L. reflexivity.
  - lia.
  - reflexivity.
Qed.

(** X21: [Solve] returns a solution only for a model without columns or for
    one whose five slices fit, whose matrix entries have non-negative
    indices and whose Hessian entries have non-negative indices on or above
    the diagonal. *)
Theorem Solve_success_requires (m : Model) (opts : list SolveOption)
  (sol : Solution) :
  rearranges sort_Slice ->
  solve m opts = Returns (inr sol) ->
  NumVars m = 0 \/
  (fits (NumVars m) (ColCosts m) /\ fits (NumVars m) (ColLower m) /\
   fits (NumVars m) (ColUpper m) /\
   fits (NumConstraints m) (RowLower m) /\
   fits (NumConstraints m) (RowUpper m) /\
   Forall (passes false) (ConstMatrix m) /\
   Forall (passes true) (Hessian m)).
Proof.
  intros Hperm Hsol. unfold solve, Solve in Hsol.
  destruct NewSolver as [e|solver]; [discriminate|].
  destruct (applyOptions opts defaultSolveConfig) as [cfg|p]; [|discriminate].
  destruct (apply _ _ _ _ _ _ _ solver) as [solver1 [e|]]; [discriminate|].
  cbv zeta in Hsol.
  destruct (NumVars m =? 0) eqn:Hnz; [left; apply Z.eqb_eq, Hnz|right].
  apply bind_success in Hsol as (x1 & E1 & Hsol).
  apply bind_success in Hsol as (x2 & E2 & Hsol).
  apply bind_success in Hsol as (x3 & E3 & Hsol).
  apply bind_success in Hsol as (x4 & E4 & Hsol).
  apply bind_success in Hsol as (x5 & E5 & Hsol).
  apply expanded_success in E1, E2, E3, E4, E5.
  destruct (err (nonzerosToCSR sort_Slice (ConstMatrix m) false)) eqn:Ha;
    [discriminate|].
  apply (nonzerosToCSR_success_passes _ _ _ Hperm) in Ha.
  apply bind_success in Hsol as (vt & _ & Hsol).
  destruct (PassModel _ _ _ _ _ _ _ _ _ _ _ _ _ _) as [solver2 [e|]];
    [discriminate|].
  repeat (split; [assumption|]).
  destruct (0 <? len (Hessian m)) eqn:Eh.
  - destruct (err (nonzerosToCSR sort_Slice (Hessian m) true)) eqn:Hh;
      [discriminate|].
    apply (nonzerosToCSR_success_passes _ _ _ Hperm), Hh.
  - apply Z.ltb_ge in Eh. destruct (Hessian m); [constructor|].
    unfold len in Eh. cbn [length] in Eh. lia.
Qed.

End solving.

Section two_solvers.

Variable sort_Slice : sorter.
Variable Solver : Type.
Variable NewSolver : Error + Solver.
Variable SetBoolOption : Solver -> string -> bool -> Solver * option Error.
Variable SetIntOption : Solver -> string -> Z -> Solver * option Error.
Variable SetFloatOption : Solver -> string -> float64 -> Solver * option Error.
Variable SetStringOption : Solver -> string -> string -> Solver * option Error.
Variable PassModel PassModel' :
  Solver -> Z -> Z ->
  list float64 -> list float64 -> list float64 ->
  list float64 -> list float64 ->
  list Z -> list Z -> list float64 ->
  list VariableType -> bool -> float64 -> Solver * option Error.
Variable PassHessian :
  Solver -> Z -> list Z -> list Z -> list float64 -> Solver * option Error.
Variable Run : Solver -> Error + Solution.
Variable range_map : forall V : Type, gmap string V -> list (string * V).

Let solve :=
  Solve sort_Slice Solver NewSolver SetBoolOption SetIntOption SetFloatOption
        SetStringOption PassModel PassHessian Run range_map.

Let solve_alt :=
  Solve sort_Slice Solver NewSolver SetBoolOption SetIntOption SetFloatOption
        SetStringOption PassModel' PassHessian Run range_map.

(** X20: [Solve] calls [PassModel] only with arguments that agree with each
    other: two solvers that treat such arguments alike give the same
    [Solve].  The column and row slices have the lengths [numCol > 0] and
    [numRow], the offsets increase strictly inside [aIndex], the column
    indices lie in [0, numCol), and the variable types are absent or
    [numCol] many. *)
Theorem Solve_passes_consistent_model (m : Model) (opts : list SolveOption) :
  rearranges sort_Slice ->
  (forall n, n ∈ ConstMatrix m ++ Hessian m -> Col n < 2 ^ 63 - 1) ->
  (forall solver numCol numRow colCost colLower colUpper rowLower rowUpper
          aStart aIndex aValue integrality maximize offset,
     consistent_model numCol numRow colCost colLower colUpper rowLower
                      rowUpper aStart aIndex aValue integrality ->
     PassModel solver numCol numRow colCost colLower colUpper rowLower
               rowUpper aStart aIndex aValue integrality maximize offset =
     PassModel' solver numCol numRow colCost colLower colUpper rowLower
                rowUpper aStart aIndex aValue integrality maximize offset) ->
  solve m opts = solve_alt m opts.
Proof.
  intros Hperm Hcols Hagree. unfold solve, solve_alt, Solve.
  destruct NewSolver as [e|solver]; [reflexivity|].
  destruct (applyOptions opts defaultSolveConfig) as [cfg|p]; [|reflexivity].
  destruct (apply _ _ _ _ _ _ _ solver) as [solver1 [e|]]; [reflexivity|].
  cbv zeta. destruct (NumVars m =? 0) eqn:Hnz; [reflexivity|].
  apply Z.eqb_neq in Hnz.
  pose proof (NumVars_nonneg m) as Hc.
  pose proof (NumConstraints_nonneg m) as Hr.
  expanded_step x1 L1 B; [reflexivity| |reflexivity].
  expanded_step x2 L2 B; [reflexivity| |reflexivity].
  expanded_step x3 L3 B; [reflexivity| |reflexivity].
  expanded_step x4 L4 B; [reflexivity| |reflexivity].
  expanded_step x5 L5 B; [reflexivity| |reflexivity].
  destruct (err (nonzerosToCSR sort_Slice (ConstMatrix m) false)) eqn:Ha;
    [reflexivity|].
  varTypes_step m Hvts.
  destruct Hvts as [[Hbig ->]|(vt & -> & Hvt)]; cbn [bind]; [reflexivity|].
  rewrite Hagree; [reflexivity|].
  destruct (nonzerosToCSR_shape sort_Slice (ConstMatrix m) false Ha)
    as (S1 & S2 & S3 & S4 & S5).
  destruct (NumVars_above_cols m Hcols) as [_ Habove].
  assert (Forall (fun c => 0 <= c < NumVars m)
            (index (nonzerosToCSR sort_Slice (ConstMatrix m) false))) as Hix.
  { specialize (S5 Hperm). rewrite Forall_forall in S3, S5.
    apply Forall_forall. intros c Hin. split; [apply S3, Hin|].
    destruct (S5 c Hin) as (n & Hn & <-).
    apply Habove, elem_of_app. left. exact Hn. }
  unfold consistent_model.
  split; [lia|]. split; [exact Hr|].
  split; [exact L1|]. split; [exact L2|]. split; [exact L3|].
  split; [exact L4|]. split; [exact L5|]. split; [exact S4|].
  split; [exact S1|]. split; [exact S2|]. split; [exact Hix|exact Hvt].
Qed.

End two_solvers.

(** A [nil] option, and a model whose only entry sits in column [2^45], on
    a solver that accepts everything. *)
Lemma Solve_panics_only_when_witness :
  let m := mkModel false 0%float [] [] [] [] [] [] [] [] in
  let m' := mkModel false 0%float [] [] [] [] []
              [mkNonzero 0 (2 ^ 45) 1%float] [] [] in
  let solve :=
    Solve (@GoSort.Slice) unit (inr tt) accept_option accept_option
          accept_option accept_option accept_model accept_hessian run_optimal
          range_listed in
  solve m [WithOutput true; None] =
  Panics "runtime error: invalid memory address or nil pointer dereference" /\
  solve m' [] = Panics "makeslice: len out of range" /\
  NumVars m' = 2 ^ 45 + 1 /\
  ((exists solver : unit, inr tt = inr solver :> Error + unit) /\
   ((None ∈ ([] : list SolveOption) /\
     "makeslice: len out of range"%string =
     "runtime error: invalid memory address or nil pointer dereference"%string)
    \/
    ((2 ^ 45 < NumVars m' \/ 2 ^ 45 < NumConstraints m') /\
     "makeslice: len out of range"%string =
     "makeslice: len out of range"%string))).
Proof.
  cbv zeta. split; [reflexivity|]. split; [reflexivity|].
  split; [reflexivity|].
  apply (Solve_panics_only_when (@GoSort.Slice) unit (inr tt) accept_option
           accept_option accept_option accept_option accept_model
           accept_hessian run_optimal range_listed
           (mkModel false 0%float [] [] [] [] []
                    [mkNonzero 0 (2 ^ 45) 1%float] [] [])
           [] "makeslice: len out of range").
  reflexivity.
Defined.

(** One row with bounds and an entry in column -1, on a solver that accepts
    everything. *)
Lemma Solve_without_columns_witness :
  let m := mkModel false 0%float [] [] [] [1%float] [2%float]
             [mkNonzero 0 (-1) 1%float] [] [] in
  Solve (@GoSort.Slice) unit (inr tt) accept_option accept_option
        accept_option accept_option accept_model accept_hessian run_optimal
        range_listed m [] =
  Returns (inr (mkSolution ModelStatusOptimal [] [] [] [] [] [] 0%float)).
Proof.
  cbv zeta.
  apply (Solve_without_columns (@GoSort.Slice) unit (inr tt) accept_option
           accept_option accept_option accept_option accept_model
           accept_hessian run_optimal range_listed _ [] defaultSolveConfig tt);
    try reflexivity.
  repeat constructor.
Defined.

(** One cost and two lower bounds: [NumVars] is 1 and ColLower is
    rejected.  No cost, one lower bound and an entry in column [2^50]:
    [Solve] panics on the costs before it looks at the bound. *)
Lemma Solve_length_errors_witness :
  let m := mkModel false 0%float [1%float] [0%float; 0%float] [] [] []
             [] [] [] in
  let m' := mkModel false 0%float [] [0%float] [] [] []
              [mkNonzero 0 (2 ^ 50) 1%float] [] [] in
  let solve :=
    Solve (@GoSort.Slice) unit (inr tt) accept_option accept_option
          accept_option accept_option accept_model accept_hessian run_optimal
          range_listed in
  NumVars m = 1 /\
  solve m [] = length_error "ColLower" /\
  NumVars m' = 2 ^ 50 + 1 /\
  solve m' [] = Panics "makeslice: len out of range".
Proof.
  cbv zeta. split; [reflexivity|]. split; [|split; [reflexivity|]].
  - destruct (Solve_length_errors (@GoSort.Slice) unit (inr tt) accept_option
                accept_option accept_option accept_option accept_model
                accept_hessian run_optimal range_listed
                (mkModel false 0%float [1%float] [0%float; 0%float] [] [] []
                         [] [] [])
                [] defaultSolveConfig tt eq_refl eq_refl eq_refl)
      as (_ & _ & H & _).
    + vm_compute. discriminate.
    + apply H.
      * exists 0%float, [1%float]. reflexivity.
      * intros [F|F]; vm_compute in F; discriminate.
  - destruct (Solve_length_errors (@GoSort.Slice) unit (inr tt) accept_option
                accept_option accept_option accept_option accept_model
                accept_hessian run_optimal range_listed
                (mkModel false 0%float [] [0%float] [] [] []
                         [mkNonzero 0 (2 ^ 50) 1%float] [] [])
                [] defaultSolveConfig tt eq_refl eq_refl eq_refl)
      as (_ & _ & _ & _ & _ & _ & _ & H).
    + vm_compute. discriminate.
    + apply H; reflexivity.
Defined.

(** A solver that accepts every model against one that checks the lengths. *)
Lemma Solve_passes_consistent_model_witness :
  let m := AddDenseRow (mkModel false 0%float [] [] [] [] [] [] [] [])
             1%float [0%float; 2%float] 3%float in
  Solve (@GoSort.Slice) unit (inr tt) accept_option accept_option
        accept_option accept_option accept_model accept_hessian run_optimal
        range_listed m [] =
  Solve (@GoSort.Slice) unit (inr tt) accept_option accept_option
        accept_option accept_option checked_model accept_hessian run_optimal
        range_listed m [].
Proof.
  cbv zeta.
  apply Solve_passes_consistent_model.
  - exact Slice_rearranges.
  - intros n Hn. change (n ∈ [mkNonzero 0 1 2%float]) in Hn.
    apply list_elem_of_singleton in Hn as ->. reflexivity.
  - intros s numCol numRow cc cl cu rl ru st ix vl it mx off H.
    destruct H as (_ & _ & H1 & H2 & H3 & H4 & H5 & _).
    unfold accept_model, checked_model.
    rewrite (proj2 (Z.eqb_eq _ _) H1), (proj2 (Z.eqb_eq _ _) H2),
      (proj2 (Z.eqb_eq _ _) H3), (proj2 (Z.eqb_eq _ _) H4),
      (proj2 (Z.eqb_eq _ _) H5).
    reflexivity.
Defined.

(** A one-row model that is solved. *)
Lemma Solve_success_requires_witness :
  let m := AddDenseRow (mkModel false 0%float [] [] [] [] [] [] [] [])
             1%float [0%float; 2%float] 3%float in
  Solve (@GoSort.Slice) unit (inr tt) accept_option accept_option
        accept_option accept_option accept_model accept_hessian run_optimal
        range_listed m [] =
  Returns (inr (mkSolution ModelStatusOptimal [1%float] [] [] [] [] []
                           1%float)) /\
  (NumVars m = 0 \/
   (fits (NumVars m) (ColCosts m) /\ fits (NumVars m) (ColLower m) /\
    fits (NumVars m) (ColUpper m) /\
    fits (NumConstraints m) (RowLower m) /\
    fits (NumConstraints m) (RowUpper m) /\
    Forall (passes false) (ConstMatrix m) /\
    Forall (passes true) (Hessian m))).
Proof.
  cbv zeta. split; [reflexivity|].
  apply (Solve_success_requires (@GoSort.Slice) unit (inr tt) accept_option
           accept_option accept_option accept_option accept_model
           accept_hessian run_optimal range_listed _ []
           (mkSolution ModelStatusOptimal [1%float] [] [] [] [] [] 1%float)
           Slice_rearranges).
  reflexivity.
Defined.

(** *** The options *)

Lemma last_said {A : Type} (says : given -> option A) (gs : list given)
  (g : given) :
  last (omap says (gs ++ [g])) =
  match says g with Some v => Some v | None => last (omap says gs) end.
Proof.
  rewrite omap_app, last_app. cbn [omap list_omap].
  destruct (says g); reflexivity.
Qed.

(** X22: of the options handed to [Solve], the last one given for a
    setting, and for an extra option the last one given under its name,
    is what the configuration holds when the option loop is through; a
    setting no option mentions stays unset. *)
Theorem options_last_wins (gs : list given) :
  exists cfg,
    applyOptions (option_of <$> gs) defaultSolveConfig = Returns cfg /\
    output cfg = last (omap says_output gs) /\
    timeLimit cfg = last (omap says_timeLimit gs) /\
    mipAbsGap cfg = last (omap says_mipAbsGap gs) /\
    mipRelGap cfg = last (omap says_mipRelGap gs) /\
    threads cfg = last (omap says_threads gs) /\
    presolve cfg = last (omap says_presolve gs) /\
    (forall name, extraBool cfg !! name = last (omap (says_bool name) gs)) /\
    (forall name, extraInt cfg !! name = last (omap (says_int name) gs)) /\
    (forall name, extraFloat cfg !! name = last (omap (says_float name) gs)) /\
    (forall name,
       extraString cfg !! name = last (omap (says_string name) gs)).
Proof.
  induction gs as [|g gs IH] using rev_ind.
  { exists defaultSolveConfig. cbn.
    repeat split; intros; apply lookup_empty. }
  destruct IH as (cfg & Hcfg & I1 & I2 & I3 & I4 & I5 & I6 & I7 & I8 & I9
                  & I10).
  rewrite fmap_app. cbn [fmap list_fmap].
  destruct (option_of g) as [opt|] eqn:Eg; [|destruct g; discriminate].
  exists (opt cfg). split; [apply applyOptions_snoc, Hcfg|].
  rewrite !last_said.
  repeat split; try intros name; rewrite ?last_said;
    destruct g; cbn in Eg; injection Eg as <-; cbn;
    try assumption; try reflexivity;
    try (rewrite lookup_insert; case_decide; [reflexivity|]);
    auto.
Qed.

Section no_options.

Variable sort_Slice : sorter.
Variable Solver : Type.
Variable NewSolver : Error + Solver.
Variable SetBoolOption SetBoolOption' :
  Solver -> string -> bool -> Solver * option Error.
Variable SetIntOption SetIntOption' :
  Solver -> string -> Z -> Solver * option Error.
Variable SetFloatOption SetFloatOption' :
  Solver -> string -> float64 -> Solver * option Error.
Variable SetStringOption SetStringOption' :
  Solver -> string -> string -> Solver * option Error.
Variable PassModel :
  Solver -> Z -> Z ->
  list float64 -> list float64 -> list float64 ->
  list float64 -> list float64 ->
  list Z -> list Z -> list float64 ->
  list VariableType -> bool -> float64 -> Solver * option Error.
Variable PassHessian :
  Solver -> Z -> list Z -> list Z -> list float64 -> Solver * option Error.
Variable Run : Solver -> Error + Solution.
Variable range_map : forall V : Type, gmap string V -> list (string * V).

(** X23: without options [Solve] sets no option: whatever the four setters
    of the solver would do, the result is the same. *)
Theorem Solve_without_options (m : Model) :
  (forall V : Type, range_map V ∅ = []) ->
  Solve sort_Slice Solver NewSolver SetBoolOption SetIntOption SetFloatOption
        SetStringOption PassModel PassHessian Run range_map m [] =
  Solve sort_Slice Solver NewSolver SetBoolOption' SetIntOption'
        SetFloatOption' SetStringOption' PassModel PassHessian Run range_map
        m [].
Proof.
  intros Hempty. unfold Solve, apply. cbn [applyOptions].
  unfold defaultSolveConfig.
  cbn [output timeLimit mipAbsGap mipRelGap threads presolve
       extraBool extraInt extraFloat extraString].
  rewrite !Hempty. reflexivity.
Qed.

End no_options.

(** Setters that accept everything against setters that refuse everything. *)
Lemma Solve_without_options_witness :
  let m := AddDenseRow (mkModel false 0%float [] [] [] [] [] [] [] [])
             1%float [0%float; 2%float] 3%float in
  Solve (@GoSort.Slice) unit (inr tt) accept_option accept_option
        accept_option accept_option accept_model accept_hessian run_optimal
        range_listed m [] =
  Solve (@GoSort.Slice) unit (inr tt)
        (fun s _ _ => (s, Some (newErrorMsg "SetBoolOption" "")))
        (fun s _ _ => (s, Some (newErrorMsg "SetIntOption" "")))
        (fun s _ _ => (s, Some (newErrorMsg "SetFloatOption" "")))
        (fun s _ _ => (s, Some (newErrorMsg "SetStringOption" "")))
        accept_model accept_hessian run_optimal range_listed m [].
Proof.
  cbv zeta. apply Solve_without_options.
  intros V. unfold range_listed. apply map_to_list_empty.
Defined.
